(** * The style-function expression compiler of mapbox-gl-js

    A shallow embedding of [src/style-spec/function/expression.js]
    (registry, [parseExpression], [compile], [compileExpression]), of
    [type_check.js] ([typeCheckExpression], [matchTypeError], [isGeneric])
    and of [evaluation_context.js] ([get], [asObject], [asArray], [typeOf],
    [color], [rgba], [evaluateCurve], [findStopLessThanOrEqualTo],
    [interpolationFactor]).

    Conventions.
    - A JavaScript [throw] is the [Throw] outcome; a returned value is [Ok].
    - The two recursions that are not structural, [matchTypeError] (through
      the self-referential type [Value]) and [compile] (on the arguments of
      the checked expression), are given fuel; [OutOfFuel] is no result.
    - The mutable [typenameMap] object is passed as explicit state.
    - Generated code (the [js] fields) is kept as text, as the source builds
      it.  Turning the text into a callable ([new Function]) is outside the
      embedding.
    - Number literals of an expression are integers ([Z]), written with all
      their digits, as JavaScript writes the integers it holds exactly, up
      to 2^53; numbers met at run time by the curve helpers are rationals
      ([Q]) with exact arithmetic: no rounding, no infinities. *)

From Stdlib Require Import String Ascii ZArith QArith List Bool Lia.
From Stdlib Require Import DecimalString.
From stdpp Require Import base option gmap strings.

Import ListNotations.
Set Warnings "-register-all".
Local Open Scope string_scope.
Local Open Scope list_scope.

(** ** Outcomes of JavaScript code *)

(** The exceptions the modelled code can raise.  [RuntimeError] is the class
    of [evaluation_context.js]: it carries its [name] and [message]. *)
Inductive JsError : Type :=
| Error (message : string)
| TypeError
| AssertionError
| RuntimeError (name message : string).

(** What running a piece of code gives: a value, an exception, or, for the
    functions defined with fuel ([matchTypeError], [compile]) and their
    callers, no result within the fuel. *)
Inductive outcome (A : Type) : Type :=
| Ok (a : A)
| Throw (e : JsError)
| OutOfFuel.
Arguments Ok {A} a.
Arguments Throw {A} e.
Arguments OutOfFuel {A}.

Definition bind {A B : Type} (c : outcome A) (f : A -> outcome B) : outcome B :=
  match c with
  | Ok a => f a
  | Throw e => Throw e
  | OutOfFuel => OutOfFuel
  end.

Notation "'do' x <- c ; k" := (bind c (fun x => k))
  (at level 10, x name, c at level 99, k at level 200).
Notation "'do' ' p <- c ; k" := (bind c (fun x => match x with p => k end))
  (at level 10, p pattern, c at level 99, k at level 200).

(** ** Text helpers *)

(** The double quote character, and a string made of it. *)
Definition dquote : ascii := ascii_of_nat 34.
Definition dq : string := String dquote EmptyString.
Definition backslash : ascii := ascii_of_nat 92.

(** [Array.prototype.join] on strings. *)
Fixpoint join (sep : string) (l : list string) : string :=
  match l with
  | [] => EmptyString
  | [x] => x
  | x :: r => x +:+ sep +:+ join sep r
  end.

Definition string_of_nat (n : nat) : string :=
  NilEmpty.string_of_uint (Nat.to_uint n).

(** Decimal text of an integer, as [String(n)] and [JSON.stringify(n)] give it
    for an integral number below 1e21. *)
Definition string_of_Z (z : Z) : string :=
  NilZero.string_of_int (Z.to_int z).

Definition upper_ascii (c : ascii) : ascii :=
  let n := nat_of_ascii c in
  if (Nat.leb 97 n && Nat.leb n 122)%bool then ascii_of_nat (n - 32) else c.

(** [String.prototype.toUpperCase], on ASCII letters. *)
Fixpoint toUpperCase (s : string) : string :=
  match s with
  | EmptyString => EmptyString
  | String c r => String (upper_ascii c) (toUpperCase r)
  end.

Definition hex_digit (n : nat) : ascii :=
  if Nat.ltb n 10 then ascii_of_nat (48 + n) else ascii_of_nat (87 + n).

(** The escape [JSON.stringify] writes for one character of a string. *)
Definition json_escape (c : ascii) : string :=
  let n := nat_of_ascii c in
  if Nat.eqb n 34 then String backslash dq
  else if Nat.eqb n 92 then String backslash (String backslash EmptyString)
  else if Nat.eqb n 8 then String backslash "b"
  else if Nat.eqb n 12 then String backslash "f"
  else if Nat.eqb n 10 then String backslash "n"
  else if Nat.eqb n 13 then String backslash "r"
  else if Nat.eqb n 9 then String backslash "t"
  else if Nat.ltb n 32 then
    String backslash ("u00" +:+ String (hex_digit (n / 16)) (String (hex_digit (n mod 16)) EmptyString))
  else String c EmptyString.

Fixpoint json_escape_string (s : string) : string :=
  match s with
  | EmptyString => EmptyString
  | String c r => json_escape c +:+ json_escape_string r
  end.

(** [JSON.stringify] of a string. *)
Definition quote (s : string) : string := dq +:+ json_escape_string s +:+ dq.

(** ** JSON-shaped input *)

(** What [compileExpression] receives: [expr: any].  [JUndefined] is the
    absent value; object members keep their order. *)
Inductive json : Type :=
| JUndefined
| JNull
| JBool (b : bool)
| JNum (n : Z)
| JStr (s : string)
| JArr (items : list json)
| JObj (members : list (string * json)).

Definition string_of_bool (b : bool) : string := if b then "true" else "false".

(** [String(v)], which is also the property key [v] is turned into in
    [expressions[v]]: an array joins the texts of its items with a comma, a
    null or undefined item giving the empty text. *)
Fixpoint js_String (v : json) : string :=
  match v with
  | JUndefined => "undefined"
  | JNull => "null"
  | JBool b => string_of_bool b
  | JNum n => string_of_Z n
  | JStr s => s
  | JArr items =>
      join "," (map (fun x => match x with
                              | JUndefined | JNull => EmptyString
                              | _ => js_String x
                              end) items)
  | JObj _ => "[object Object]"
  end.

(** [JSON.stringify(v)]: no blanks; an undefined array item is written
    [null], an undefined member is left out.  (At top level [undefined] has no
    JSON text; the callers below only pass arrays and literal values.) *)
Fixpoint JSON_stringify (v : json) : string :=
  match v with
  | JUndefined => "undefined"
  | JNull => "null"
  | JBool b => string_of_bool b
  | JNum n => string_of_Z n
  | JStr s => quote s
  | JArr items =>
      "[" +:+ join "," (map (fun x => match x with
                                      | JUndefined => "null"
                                      | _ => JSON_stringify x
                                      end) items) +:+ "]"
  | JObj members =>
      "{" +:+ join ","
        ((fix go (ms : list (string * json)) : list string :=
            match ms with
            | [] => []
            | (k, JUndefined) :: r => go r
            | (k, x) :: r => (quote k +:+ ":" +:+ JSON_stringify x) :: go r
            end) members) +:+ "}"
  end.

(** ** Type algebra *)

(** Modelled from the spec: [types.js] is not among the sources; only its
    exports are used ([NullType] ... [InterpolationType], [typename],
    [variant], [vector], [array], [anyArray], [lambda], [nargs]).  The
    constructors below are the spec's closed sum of type kinds, one per
    [kind] tag that [type_check.js] tests.  [ValueType] is the spec's top
    type, which matches every primitive except Interpolation, and
    Vector<Value>: a type of kind [variant] named [Value] that is one of its
    own members' item type (the self-referential type for which [isGeneric]
    keeps a stack).  It is a constructor of its own, its members being given
    by [members_of]. *)
Inductive Ty : Type :=
| primitive (name : string)
| ValueType
| vector (itemType : Ty)
| array (itemType : Ty) (N : nat)
| anyArray (itemType : Ty)
| variant (members : list Ty)
| typename (tn : string)
| nargs (types : list Ty)
| lambda (result : Ty) (args : list Ty).

Definition NullType : Ty := primitive "Null".
Definition NumberType : Ty := primitive "Number".
Definition StringType : Ty := primitive "String".
Definition BooleanType : Ty := primitive "Boolean".
Definition ColorType : Ty := primitive "Color".
Definition ObjectType : Ty := primitive "Object".
Definition InterpolationType : Ty := primitive "Interpolation".

(** [t.members] for a type of kind [variant]; [None] for the other kinds. *)
Definition members_of (t : Ty) : option (list Ty) :=
  match t with
  | variant members => Some members
  | ValueType =>
      Some [NullType; NumberType; StringType; BooleanType; ColorType; ObjectType;
            vector ValueType]
  | _ => None
  end.

(** Modelled from the spec: the [name] of a type.  The spec fixes the
    primitive names, [Value], and the forms [Vector<T>], [Array<T,4>] and
    [(String | Number)]; for the other kinds it gives no form, and the ones
    below follow its notation for the data model. *)
Fixpoint type_name (t : Ty) : string :=
  match t with
  | primitive name => name
  | ValueType => "Value"
  | vector i => "Vector<" +:+ type_name i +:+ ">"
  | array i N => "Array<" +:+ type_name i +:+ "," +:+ string_of_nat N +:+ ">"
  | anyArray i => "Array<" +:+ type_name i +:+ ">"
  | variant ms => "(" +:+ join " | " (map type_name ms) +:+ ")"
  | typename tn => tn
  | nargs ts => join ", " (map type_name ts) +:+ ", ..."
  | lambda r a => "(" +:+ join ", " (map type_name a) +:+ ") => " +:+ type_name r
  end.

(** [t === expected] on types.  The primitive types and [ValueType] are
    constants of [types.js], so identity is equality of names; another variant
    is only ever compared with the registry's own object, for which identity
    and structural equality agree. *)
Fixpoint Ty_eqb (a b : Ty) {struct a} : bool :=
  let fix all2 (l1 l2 : list Ty) {struct l1} : bool :=
    match l1, l2 with
    | [], [] => true
    | x :: r1, y :: r2 => Ty_eqb x y && all2 r1 r2
    | _, _ => false
    end in
  match a, b with
  | primitive n1, primitive n2 => String.eqb n1 n2
  | ValueType, ValueType => true
  | vector i1, vector i2 => Ty_eqb i1 i2
  | array i1 n1, array i2 n2 => Ty_eqb i1 i2 && Nat.eqb n1 n2
  | anyArray i1, anyArray i2 => Ty_eqb i1 i2
  | variant m1, variant m2 => all2 m1 m2
  | typename t1, typename t2 => String.eqb t1 t2
  | nargs l1, nargs l2 => all2 l1 l2
  | lambda r1 a1, lambda r2 a2 => Ty_eqb r1 r2 && all2 a1 a2
  | _, _ => false
  end.

Definition is_typename (t : Ty) : bool :=
  match t with typename _ => true | _ => false end.

Definition is_nargs (t : Ty) : bool :=
  match t with nargs _ => true | _ => false end.

(** [isGeneric(type, stack = [])].  The [stack] stops the walk at a type that
    is already being visited, which happens for [ValueType] alone: its members
    are then all found not generic.  [any_array], [lambda] and [nargs] fall
    through to [false]. *)
Fixpoint isGeneric (type : Ty) : bool :=
  match type with
  | typename _ => true
  | vector i | array i _ => isGeneric i
  | variant ms => existsb isGeneric ms
  | _ => false
  end.

(** [`Expected ${expected.name} but found ${t.name} instead.`] *)
Definition errorMessage (expected t : Ty) : string :=
  "Expected " +:+ type_name expected +:+ " but found " +:+ type_name t +:+ " instead.".

Definition nested (msg inner : string) : string :=
  msg +:+ ". (" +:+ inner +:+ ")".

Definition not_valid_output {A : Type} (expected : Ty) : outcome A :=
  Throw (Error (type_name expected +:+ " is not a valid output type.")).

(** [if (t.kind === 'lambda') t = t.result] *)
Definition unlambda (t : Ty) : Ty :=
  match t with lambda r _ => r | _ => t end.

(** The [typenameMap] object: typename to the type bound to it.
    [typenameMap[n]] is truthy exactly when [n] is bound. *)
Abbreviation tmap := (gmap string Ty).

(** Modelled from the spec: [util.extend] of [util/util.js], which is not
    among the sources; the spec has the checker merge one typename map into
    another with it.  [util.extend(dest, src)] copies every property of [src]
    onto [dest]. *)
Definition extend (dest src : tmap) : tmap := src ∪ dest.

(** The loop of [matchTypeError] over [expected.members], with
    [matchTypeError] itself as [rec]: each member is tried under a copy of the
    map, and the first that matches has its copy merged back.  [otherwise] is
    what follows the loop. *)
Fixpoint matchMembers (rec : Ty -> Ty -> option tmap -> outcome (option string * option tmap))
    (t : Ty) (typenameMap : option tmap)
    (otherwise : outcome (option string * option tmap)) (members : list Ty)
  : outcome (option string * option tmap) :=
  match members with
  | memberType :: rest =>
      (* memberTypeNames = typenameMap && util.extend({}, typenameMap) *)
      do '(error, memberTypeNames) <- rec memberType t (option_map (extend ∅) typenameMap);
      match error with
      | None =>
          Ok (None,
              match typenameMap, memberTypeNames with
              | Some m, Some names => Some (extend m names)
              | _, _ => typenameMap
              end)
      | Some _ => matchMembers rec t typenameMap otherwise rest
      end
  | [] => otherwise
  end.

(** [t.members.some(m => matchTypeError(expected, m))], with [matchTypeError]
    itself as [rec]. *)
Fixpoint someMismatch (rec : Ty -> Ty -> option tmap -> outcome (option string * option tmap))
    (expected : Ty) (tmembers : list Ty) : outcome bool :=
  match tmembers with
  | [] => Ok false
  | m :: rest =>
      do '(error, _) <- rec expected m None;
      match error with
      | Some _ => Ok true
      | None => someMismatch rec expected rest
      end
  end.

(** [matchTypeError(expected, t, typenameMap?)]: [None] for the diagnostic is
    JavaScript's [null] (the types match).  The map is mutated in place by the
    source, so it is returned with the diagnostic, as mutated even when the
    types do not match; it is [None] when the call is made without one.  The
    recursion follows [expected] into its item type or members and, through
    [ValueType], comes back to it with a smaller [t]; it is given fuel. *)
Fixpoint matchTypeError (fuel : nat) (expected t0 : Ty) (typenameMap : option tmap)
    {struct fuel} : outcome (option string * option tmap) :=
  match fuel with
  | O => OutOfFuel
  | S fuel =>
      let msg := errorMessage expected t0 in
      let t := unlambda t0 in
      match typenameMap, expected with
      | Some m, typename en =>
          match m !! en with
          | None => if isGeneric t then Ok (None, Some m)
                    else Ok (None, Some (<[en := t]> m))
          | Some _ => Ok (None, Some m)
          end
      | _, _ =>
          let '(t, typenameMap) :=
            match typenameMap, t with
            | Some m, typename tn =>
                match m !! tn with
                | Some bound => (bound, Some m)
                | None => if isGeneric expected then (t, Some m)
                          else (expected, Some (<[tn := expected]> m))
                end
            | _, _ => (t, typenameMap)
            end in
          (* the item types of a vector or an array; [sameN] is the test on N *)
          let items (eitem titem : Ty) (sameN : bool) :=
            do '(error, typenameMap) <- matchTypeError fuel eitem titem typenameMap;
            match error with
            | Some inner => Ok (Some (nested msg inner), typenameMap)
            | None => if sameN then Ok (None, typenameMap) else Ok (Some msg, typenameMap)
            end in
          match expected with
          | primitive _ =>
              if Ty_eqb t expected then Ok (None, typenameMap) else Ok (Some msg, typenameMap)
          | vector eitem =>
              match t with
              | vector titem => items eitem titem true
              | _ => Ok (Some msg, typenameMap)
              end
          | anyArray eitem =>
              match t with
              | array titem _ => items eitem titem true
              | _ => Ok (Some msg, typenameMap)
              end
          | array eitem eN =>
              match t with
              | array titem tN => items eitem titem (Nat.eqb eN tN)
              | _ => Ok (Some msg, typenameMap)
              end
          | _ =>
              match members_of expected with
              | None => not_valid_output expected
              | Some members =>
                  if Ty_eqb t expected then Ok (None, typenameMap) else
                  matchMembers (matchTypeError fuel) t typenameMap
                    (* If t itself is a variant, then 'expected' must match each
                       of its member types in order for this to be a match. *)
                    match members_of t with
                    | Some tmembers =>
                        do mismatch <- someMismatch (matchTypeError fuel) expected tmembers;
                        Ok (if mismatch then Some msg else None, typenameMap)
                    | None => Ok (Some msg, typenameMap)
                    end
                    members
              end
          end
      end
  end.

Fixpoint type_size (t : Ty) : nat :=
  match t with
  | primitive _ | typename _ | ValueType => 1
  | vector i | array i _ | anyArray i => S (type_size i)
  | variant l | nargs l => S (list_sum (map type_size l))
  | lambda r a => S (type_size r + list_sum (map type_size a))
  end.

(** The fuel a match is run with: twice the sizes of the two types and of the
    types bound in the map. *)
Definition match_fuel (expected t : Ty) (typenameMap : option tmap) : nat :=
  S (2 * (type_size expected + type_size t +
          match typenameMap with
          | Some m => map_fold (fun _ v n => type_size v + n)%nat 0%nat m
          | None => 0
          end)).

(** [matchTypeError(expected, t)], called without a map. *)
Definition matchTypeErrorNoMap (expected t : Ty) : outcome (option string) :=
  do '(error, _) <- matchTypeError (match_fuel expected t None) expected t None;
  Ok error.

(** [matchTypeError(expected, t, typenameMap)], called with a map. *)
Definition matchTypeErrorMap (expected t : Ty) (typenameMap : tmap)
  : outcome (option string * tmap) :=
  do '(error, names) <-
     matchTypeError (match_fuel expected t (Some typenameMap)) expected t (Some typenameMap);
  Ok (error, match names with Some m => m | None => typenameMap end).

Arguments matchTypeErrorNoMap : simpl never.
Arguments matchTypeErrorMap : simpl never.

(** A run that did not stop for lack of fuel gives the same result when run
    again, [c'], with other fuel. *)
Definition stable {A : Type} (c c' : outcome A) : Prop := c <> OutOfFuel -> c' = c.

(** ** Typed expressions *)

(** The [value] of a literal: [string | number | boolean | null]. *)
Inductive LitValue : Type :=
| LNull
| LString (s : string)
| LNumber (n : Z)
| LBoolean (b : bool).

(** [TypedExpression]: [{literal: true, value, type, key}] or
    [{literal: false, name, type, arguments, key}].  [name] is the first item
    of the input array as it was given.  The [type] of a call is [None] where
    the source has [undefined] (see [lookup_expressions]). *)
Inductive TypedExpression : Type :=
| Literal (value : LitValue) (type : Ty) (key : string)
| LambdaCall (name : json) (type : option Ty) (arguments : list TypedExpression) (key : string).

Definition key_of (e : TypedExpression) : string :=
  match e with Literal _ _ k => k | LambdaCall _ _ _ k => k end.

(** [e.type], [None] for [undefined]. *)
Definition type_of (e : TypedExpression) : option Ty :=
  match e with Literal _ t _ => Some t | LambdaCall _ t _ _ => t end.

Definition json_of_value (v : LitValue) : json :=
  match v with
  | LNull => JNull
  | LString s => JStr s
  | LNumber n => JNum n
  | LBoolean b => JBool b
  end.

Fixpoint serializeExpression (e : TypedExpression) : json :=
  match e with
  | Literal v _ _ => json_of_value v
  | LambdaCall name _ arguments _ => JArr (name :: map serializeExpression arguments)
  end.

Definition stringifyExpression (e : TypedExpression) : string :=
  JSON_stringify (serializeExpression e).

(** [{key, error}] *)
Record TypeError_ : Type := mkError { key : string; error : string }.

(** What [typeCheckExpression] returns: the checked expression or
    [{errors}]. *)
Inductive CheckResult : Type :=
| Checked (e : TypedExpression)
| Errors (errors : list TypeError_).

Definition could_not_resolve (expectedResult : Ty) (e : TypedExpression) : string :=
  "Could not resolve " +:+ type_name expectedResult +:+
  ".  This expression must be wrapped in a type conversion, e.g. [" +:+ dq +:+ "string" +:+ dq +:+ ", "
  +:+ stringifyExpression e +:+ "].".

Definition arity_error (expanded actual : nat) : string :=
  "Expected " +:+ string_of_nat expanded +:+ " arguments, but found " +:+
  string_of_nat actual +:+ " instead.".

(** [matchTypeError(t, arg.type, map)] where [arg.type] may be [undefined]:
    reading [t.name] of [undefined] throws. *)
Definition matchArg (t : option Ty) (arg : TypedExpression) (m : tmap)
  : outcome (option string * tmap) :=
  match t, type_of arg with
  | Some t, Some at_ => matchTypeErrorMap t at_ m
  | _, _ => Throw TypeError
  end.

(** ** The type checker *)

(** The inner [while] of the first pass, for one [NArgs] slot: it consumes
    argument values greedily while each matches [t.types[j]].  [rest] are the
    values from [vi] on; [committed] are the values from the last completed
    group on, which is where [vi -= j] puts the cursor back to.  Returns the
    values left, the expanded types and the map. *)
Fixpoint consume (types : list Ty) (rest : list TypedExpression) (j : nat)
    (curTypeNames : tmap) (committed : list TypedExpression)
    (expandedArgTypes : list Ty) (typenameMap : tmap) {struct rest}
  : outcome (list TypedExpression * list Ty * tmap) :=
  match rest with
  | [] => Ok (committed, expandedArgTypes, typenameMap)
  | arg :: rest' =>
      do '(error, curTypeNames) <- matchArg (nth_error types j) arg curTypeNames;
      match error with
      | Some _ => Ok (committed, expandedArgTypes, typenameMap)
      | None =>
          let j := (S j) mod (length types) in
          if Nat.eqb j 0
          then consume types rest' 0 ∅ rest'
                 (expandedArgTypes ++ types) (extend typenameMap curTypeNames)
          else consume types rest' j curTypeNames committed expandedArgTypes typenameMap
      end
  end.

(** The first pass: [for (vi = 0, ti = 0; vi < argValues.length && ti <
    expectedArgs.length; ti++)].  [rest] are the argument values from [vi] on,
    [expectedArgs] the types from [ti] on. *)
Fixpoint expandArgs (k : string) (expectedArgs : list Ty) (rest : list TypedExpression)
    (expandedArgTypes : list Ty) (errors : list TypeError_) (typenameMap : tmap)
    {struct expectedArgs}
  : outcome (list Ty * list TypeError_ * tmap) :=
  match rest, expectedArgs with
  | arg :: rest', t :: expectedArgs' =>
      match t with
      | nargs types =>
          do '(rest2, expandedArgTypes, typenameMap) <-
             consume types rest 0 ∅ rest expandedArgTypes typenameMap;
          expandArgs k expectedArgs' rest2 expandedArgTypes errors typenameMap
      | _ =>
          do '(error, typenameMap) <- matchArg (Some t) arg typenameMap;
          let errors := match error with
                        | Some msg => errors ++ [mkError k msg]
                        | None => errors
                        end in
          expandArgs k expectedArgs' rest' (expandedArgTypes ++ [t]) errors typenameMap
      end
  | _, _ => Ok (expandedArgTypes, errors, typenameMap)
  end.

(** [(t.kind === 'typename' && typenameMap[t.typename]) ? typenameMap[t.typename] : t] *)
Definition resolve (typenameMap : tmap) (t : Ty) : Ty :=
  match t with
  | typename tn => match typenameMap !! tn with Some bound => bound | None => t end
  | _ => t
  end.

(** The second pass of [typeCheckExpression], [for (let i = 0; i <
    expandedArgTypes.length; i++)], with [typeCheckExpression] itself as
    [rec]: [types] are the expanded types and [args] the argument values from
    index [i] on.  It returns the three arrays the loop fills. *)
Fixpoint checkArgs (rec : Ty -> TypedExpression -> outcome CheckResult)
    (typenameMap : tmap) (types : list Ty) (args : list TypedExpression)
    (errors : list TypeError_) (resolvedArgTypes : list Ty)
    (checkedArgs : list TypedExpression) {struct args}
  : outcome (list TypeError_ * list Ty * list TypedExpression) :=
  match types with
  | [] => Ok (errors, resolvedArgTypes, checkedArgs)
  | t :: types' =>
      match args with
      | [] => Throw TypeError
      | arg :: args' =>
          let expected := resolve typenameMap t in
          do result <- rec expected arg;
          match result with
          | Errors errs =>
              checkArgs rec typenameMap types' args' (errors ++ errs)
                resolvedArgTypes checkedArgs
          | Checked r =>
              match errors with
              | [] => checkArgs rec typenameMap types' args' errors
                        (resolvedArgTypes ++ [expected]) (checkedArgs ++ [r])
              | _ :: _ => checkArgs rec typenameMap types' args' errors
                            resolvedArgTypes checkedArgs
              end
          end
      end
  end.

(** [typeCheckExpression(expected, e)]. *)
Fixpoint typeCheckExpression (expected : Ty) (e : TypedExpression) {struct e}
  : outcome CheckResult :=
  match e with
  | Literal _ type k =>
      do error <- matchTypeErrorNoMap expected type;
      match error with
      | Some msg => Ok (Errors [mkError k msg])
      | None => Ok (Checked e)
      end
  | LambdaCall name type argValues k =>
      let expectedResult := match expected with lambda r _ => r | _ => expected end in
      (* expectedArgs; [None] is undefined, a call without a type has no .args *)
      do expectedArgs <-
         match expected with
         | lambda _ a => Ok (Some a)
         | _ => match type with
                | None => Throw TypeError
                | Some (lambda _ a) => Ok (Some a)
                | Some _ => Ok None
                end
         end;
      if is_typename expectedResult
      then Ok (Errors [mkError k (could_not_resolve expectedResult e)])
      else
      do typeResult <- match type with
                       | Some (lambda r _) => Ok r
                       | _ => Throw TypeError
                       end;
      do '(error, typenameMap) <- matchTypeErrorMap expectedResult typeResult ∅;
      match error with
      | Some msg => Ok (Errors [mkError k msg])
      | None =>
          (* unroll NArgs, and collect typename mappings & type errors *)
          do '(expandedArgTypes, errors, typenameMap) <-
             match argValues, expectedArgs with
             | [], _ => Ok ([], [], typenameMap)
             | _ :: _, None => Throw TypeError
             | _ :: _, Some expectedArgs =>
                 expandArgs k expectedArgs argValues [] [] typenameMap
             end;
          let errors :=
            if Nat.eqb (length expandedArgTypes) (length argValues) then errors
            else errors ++ [mkError k (arity_error (length expandedArgTypes) (length argValues))] in
          match errors with
          | _ :: _ => Ok (Errors errors)
          | [] =>
              (* resolve typenames and recursively type check argument expressions *)
              do '(errors, resolvedArgTypes, checkedArgs) <-
                 checkArgs typeCheckExpression typenameMap expandedArgTypes argValues [] [] [];
              match errors with
              | _ :: _ => Ok (Errors errors)
              | [] => Ok (Checked (LambdaCall name
                            (Some (lambda expectedResult resolvedArgTypes))
                            checkedArgs k))
              end
          end
      end
  end.

(** ** Compiled expressions and the operator registry *)

(** [CompiledExpression]; its [function] field, the callable, is not part of
    the embedding. *)
Record CompiledExpression : Type := mkCompiled {
  js : string;
  type : Ty;
  isFeatureConstant : bool;
  isZoomConstant : bool;
  expression : TypedExpression
}.

(** [CompiledExpression | CompileErrors], told apart by [result]. *)
Inductive CompileResult : Type :=
| success (c : CompiledExpression)
| error_ (errors : list TypeError_).

(** What a definition's [compile] returns:
    [{js?, errors?, isFeatureConstant?, isZoomConstant?}]. *)
Record CompileOutput : Type := mkOutput {
  out_js : option string;
  out_errors : option (list string);
  out_isFeatureConstant : option bool;
  out_isZoomConstant : option bool
}.

Definition output_js (s : string) : CompileOutput := mkOutput (Some s) None None None.
Definition output_errors (l : list string) : CompileOutput := mkOutput None (Some l) None None.

Record Definition_ : Type := mkDefinition {
  def_name : string;
  def_type : Ty;
  def_compile : TypedExpression -> list CompiledExpression -> outcome CompileOutput
}.

(** [args[i]], throwing as a property read of [undefined] does. *)
Definition arg_at (args : list CompiledExpression) (i : nat) : outcome CompiledExpression :=
  match nth_error args i with
  | Some a => Ok a
  | None => Throw TypeError
  end.

Definition all_js (args : list CompiledExpression) : list string := map js args.

(** The [assert]s of the three [define...] helpers on [Math] hold for every
    name the registry passes and are left out. *)
Definition defineMathConstant (name : string) : Definition_ :=
  let mathName := toUpperCase name in
  mkDefinition name (lambda NumberType [])
    (fun _ _ => Ok (output_js ("Math." +:+ mathName))).

Definition defineMathFunction (name : string) (arity : nat) (mathName : option string)
  : Definition_ :=
  let key := match mathName with Some m => m | None => name end in
  mkDefinition name (lambda NumberType (repeat NumberType arity))
    (fun _ args => Ok (output_js ("Math." +:+ key +:+ "(" +:+ join ", " (all_js args) +:+ ")"))).

Definition defineBinaryMathOp (name : string) (isAssociative : bool) : Definition_ :=
  let args := if isAssociative then [nargs [NumberType]] else [NumberType; NumberType] in
  mkDefinition name (lambda NumberType args)
    (fun _ args => Ok (output_js (join name (all_js args)))).

Definition defineComparisonOp (name : string) (isAssociative : bool) : Definition_ :=
  let op := if String.eqb name "==" then "==="
            else if String.eqb name "!=" then "!=="
            else name in
  let args := if isAssociative then [nargs [typename "T"]] else [typename "T"; typename "T"] in
  mkDefinition name (lambda BooleanType args)
    (fun _ args =>
       do a0 <- arg_at args 0;
       do a1 <- arg_at args 1;
       Ok (output_js (js a0 +:+ " " +:+ op +:+ " " +:+ js a1))).

Definition defineBooleanOp (op : string) : Definition_ :=
  mkDefinition op (lambda BooleanType [nargs [BooleanType]])
    (fun _ args => Ok (output_js (join op (all_js args)))).

Definition fromContext (name : string)
  : TypedExpression -> list CompiledExpression -> outcome CompileOutput :=
  fun _ args =>
    let argvalues := join ", " (all_js args) in
    Ok (output_js ("this." +:+ name +:+ "(" +:+ argvalues +:+ ")")).

(** A template with one hole for [args[0].js]. *)
Definition unary (before after : string)
  : TypedExpression -> list CompiledExpression -> outcome CompileOutput :=
  fun _ args => do a0 <- arg_at args 0; Ok (output_js (before +:+ js a0 +:+ after)).

(** The [compile] of ['case']. *)
Fixpoint case_branches (args : list CompiledExpression)
  : list string * list CompiledExpression :=
  match args with
  | c0 :: c1 :: rest =>
      let '(result, remaining) := case_branches rest in
      ((js c0 +:+ " ? " +:+ js c1) :: result, remaining)
  | _ => ([], args)
  end.

Definition compile_case (_ : TypedExpression) (args : list CompiledExpression)
  : outcome CompileOutput :=
  let '(result, args) := case_branches args in
  match args with
  | [a] => Ok (output_js (join ":" (result ++ [js a])))
  | _ => Throw AssertionError
  end.

Definition nl : string := String (ascii_of_nat 10) EmptyString.
Definition indent12 : string := "            ".
Definition indent16 : string := "                ".

Definition curve_not_interpolatable (t : Ty) : string :=
  "Type " +:+ type_name t +:+
  " is not interpolatable, and thus cannot be used as a curve's output type.".
Definition curve_not_literal : string :=
  "Input/output pairs for " +:+ dq +:+ "curve" +:+ dq +:+
  " expressions must be defined using literal numeric values (not computed expressions) for the input values.".
Definition curve_not_ascending : string :=
  "Input/output pairs for " +:+ dq +:+ "curve" +:+ dq +:+
  " expressions must be arranged with input values in strictly ascending order.".
Definition curve_base_not_literal : string :=
  "Exponential interpolation base must be a literal number value.".

(** The [for] loop of the [compile] of ['curve'] over the input/output
    pairs, [pairs] being [args] from index [i] on: the stops and outputs
    collected, or the error message the loop returns. *)
Fixpoint curve_stops (pairs : list CompiledExpression) (stops : list Z) (outputs : list string)
  : string + (list Z * list string) :=
  match pairs with
  | inputArg :: output :: rest =>
      match expression inputArg with
      | Literal (LNumber value) _ _ =>
          if match last stops with
             | Some top => Z.geb top value
             | None => false
             end
          then inl curve_not_ascending
          else curve_stops rest (stops ++ [value]) (outputs ++ ["() => " +:+ js output])
      | _ => inl curve_not_literal
      end
  | _ => inr (stops, outputs)
  end.

(** The [compile] of ['curve']. *)
Definition compile_curve (_ : TypedExpression) (args : list CompiledExpression)
  : outcome CompileOutput :=
  do a0 <- arg_at args 0;
  match expression a0 with
  | Literal _ _ _ => Throw (Error "Invalid interpolation type")
  | LambdaCall interpolation_name _ interpolation_arguments _ =>
      do a3 <- arg_at args 3;
      match (if Ty_eqb (type a3) NumberType then Some "number"
             else if Ty_eqb (type a3) ColorType then Some "color"
             else None) with
      | None => Ok (output_errors [curve_not_interpolatable (type a3)])
      | Some resultType =>
          match curve_stops (skipn 2 args) [] [] with
          | inl msg => Ok (output_errors [msg])
          | inr (stops, outputs) =>
              if Nat.eqb (length stops) 1
              then Ok (output_js (nth 0 outputs EmptyString))
              else
                let finish (interpolationOptions : json) : outcome CompileOutput :=
                  do a1 <- arg_at args 1;
                  Ok (output_js (
                    nl +:+ indent12 +:+ "(function () {" +:+
                    nl +:+ indent16 +:+ "var input = " +:+ js a1 +:+ ";" +:+
                    nl +:+ indent16 +:+ "var stopInputs = [" +:+
                      join ", " (map string_of_Z stops) +:+ "];" +:+
                    nl +:+ indent16 +:+ "var stopOutputs = [" +:+ join ", " outputs +:+ "];" +:+
                    nl +:+ indent16 +:+ "return this.evaluateCurve(" +:+ js a1 +:+
                      ", stopInputs, stopOutputs, " +:+ JSON_stringify interpolationOptions +:+
                      ", " +:+ quote resultType +:+ ");" +:+
                    nl +:+ indent12 +:+ "}.bind(this))()")) in
                match interpolation_name with
                | JStr "exponential" =>
                    match interpolation_arguments with
                    | [] => Throw TypeError
                    | Literal (LNumber base) _ _ :: _ =>
                        finish (JObj [("name", interpolation_name); ("base", JNum base)])
                    | _ :: _ => Ok (output_errors [curve_base_not_literal])
                    end
                | _ => finish (JObj [("name", interpolation_name)])
                end
          end
      end
  end.

Definition void0 : TypedExpression -> list CompiledExpression -> outcome CompileOutput :=
  fun _ _ => Ok (output_js "void 0").

Definition feature_dependent (code : string)
  : TypedExpression -> list CompiledExpression -> outcome CompileOutput :=
  fun _ _ => Ok (mkOutput (Some code) None (Some false) None).

(** [const expressions = { ... }], in the order of the source.  The [name]
    fields are the source's (so ['number'] is named [string], ['rgba'] [rgb]
    and ['linear'] [step]); the registry is read by key. *)
Definition expressions : list (string * Definition_) := [
  ("ln2", defineMathConstant "ln2");
  ("pi", defineMathConstant "pi");
  ("e", defineMathConstant "e");
  ("string", mkDefinition "string" (lambda StringType [ValueType]) (unary "String(" ")"));
  ("number", mkDefinition "string" (lambda NumberType [ValueType]) (unary "Number(" ")"));
  ("boolean", mkDefinition "boolean" (lambda BooleanType [ValueType]) (unary "Boolean(" ")"));
  ("json_array", mkDefinition "json_array" (lambda (vector ValueType) [ValueType])
                   (fromContext "asArray"));
  ("object", mkDefinition "object" (lambda ObjectType [ValueType]) (fromContext "asObject"));
  ("color", mkDefinition "color" (lambda ColorType [StringType]) (fromContext "color"));
  ("color_to_array", mkDefinition "color_to_array" (lambda (array NumberType 4) [ColorType])
                       (unary EmptyString ".value"));
  ("get", mkDefinition "get" (lambda ValueType [ObjectType; StringType]) (fromContext "get"));
  ("has", mkDefinition "has" (lambda BooleanType [ObjectType; StringType])
            (fun _ args =>
               do a0 <- arg_at args 0;
               do a1 <- arg_at args 1;
               Ok (output_js (js a0 +:+ ".hasOwnProperty(" +:+ js a1 +:+ ")"))));
  ("at", mkDefinition "at"
           (lambda (typename "T")
              [variant [vector (typename "T"); anyArray (typename "T")]; NumberType])
           (fun _ args =>
              do a0 <- arg_at args 0;
              do a1 <- arg_at args 1;
              Ok (output_js (js a0 +:+ "[" +:+ js a1 +:+ "]"))));
  ("typeof", mkDefinition "typeof" (lambda StringType [ValueType]) (fromContext "typeOf"));
  ("length", mkDefinition "length"
               (lambda NumberType [variant [vector (typename "T"); StringType]])
               (unary EmptyString ".length"));
  ("properties", mkDefinition "properties" (lambda ObjectType [])
                   (feature_dependent "this.asObject(props)"));
  ("geometry_type", mkDefinition "geometry_type" (lambda StringType [])
                      (feature_dependent "(feature.geometry || {}).type || null"));
  ("id", mkDefinition "id" (lambda ValueType [])
           (feature_dependent ("typeof feature.id === " +:+ dq +:+ "undefined" +:+ dq +:+
                               " ? null : feature.id")));
  ("zoom", mkDefinition "zoom" (lambda NumberType [])
             (fun _ _ => Ok (mkOutput (Some "mapProperties.zoom") None None (Some false))));
  ("+", defineBinaryMathOp "+" false);
  ("*", defineBinaryMathOp "*" false);
  ("-", defineBinaryMathOp "-" false);
  ("/", defineBinaryMathOp "/" false);
  ("%", defineBinaryMathOp "%" false);
  ("^", mkDefinition "^" (lambda NumberType [NumberType; NumberType])
          (fun _ args =>
             do a0 <- arg_at args 0;
             do a1 <- arg_at args 1;
             Ok (output_js ("Math.pow(" +:+ js a0 +:+ ", " +:+ js a1 +:+ ")"))));
  ("log10", defineMathFunction "log10" 1 None);
  ("ln", defineMathFunction "ln" 1 (Some "log"));
  ("log2", defineMathFunction "log2" 1 None);
  ("sin", defineMathFunction "sin" 1 None);
  ("cos", defineMathFunction "cos" 1 None);
  ("tan", defineMathFunction "tan" 1 None);
  ("asin", defineMathFunction "asin" 1 None);
  ("acos", defineMathFunction "acos" 1 None);
  ("atan", defineMathFunction "atan" 1 None);
  ("==", defineComparisonOp "==" false);
  ("!=", defineComparisonOp "!=" false);
  (">", defineComparisonOp ">" false);
  ("<", defineComparisonOp "<" false);
  (">=", defineComparisonOp ">=" false);
  ("<=", defineComparisonOp "<=" false);
  ("&&", defineBooleanOp "&&");
  ("||", defineBooleanOp "||");
  ("!", mkDefinition "!" (lambda BooleanType [BooleanType]) (unary "!(" ")"));
  ("upcase", mkDefinition "upcase" (lambda StringType [StringType])
               (unary "(" ").toUpperCase()"));
  ("downcase", mkDefinition "downcase" (lambda StringType [StringType])
                 (unary "(" ").toLowerCase()"));
  ("concat", mkDefinition "concat" (lambda StringType [nargs [ValueType]])
               (fun _ args => Ok (output_js ("[" +:+ join ", " (all_js args) +:+ "].join('')"))));
  ("rgb", mkDefinition "rgb" (lambda ColorType [NumberType; NumberType; NumberType])
            (fromContext "rgba"));
  ("rgba", mkDefinition "rgb"
             (lambda ColorType [NumberType; NumberType; NumberType; NumberType])
             (fromContext "rgba"));
  ("case", mkDefinition "case"
             (lambda (typename "T") [nargs [BooleanType; typename "T"]; typename "T"])
             compile_case);
  ("curve", mkDefinition "curve"
              (lambda (typename "T")
                 [InterpolationType; NumberType; nargs [NumberType; typename "T"]])
              compile_curve);
  ("step", mkDefinition "step" (lambda InterpolationType []) void0);
  ("exponential", mkDefinition "exponential" (lambda InterpolationType [NumberType]) void0);
  ("linear", mkDefinition "step" (lambda InterpolationType []) void0)
].

(** The names every object literal inherits from [Object.prototype]; a read
    of one of them on the registry finds a function (or, for [__proto__], an
    object), which is truthy and has neither [type] nor [compile]. *)
Definition objectPrototypeKeys : list string := [
  "constructor"; "__defineGetter__"; "__defineSetter__"; "hasOwnProperty";
  "__lookupGetter__"; "__lookupSetter__"; "isPrototypeOf"; "propertyIsEnumerable";
  "toString"; "valueOf"; "__proto__"; "toLocaleString"
].

Fixpoint assoc {A : Type} (k : string) (l : list (string * A)) : option A :=
  match l with
  | [] => None
  | (k', v) :: r => if String.eqb k k' then Some v else assoc k r
  end.

(** What [expressions[op]] finds. *)
Inductive Found : Type :=
| Own (definition : Definition_)
| Inherited
| Missing.

Definition lookup_expressions (op : json) : Found :=
  let k := js_String op in
  match assoc k expressions with
  | Some d => Own d
  | None => if existsb (String.eqb k) objectPrototypeKeys then Inherited else Missing
  end.

(** ** Parsing and compiling *)

(** [expr.slice(1).map((arg, i) => parseExpression(`${key}.${i + 1}`, arg))],
    with [parseExpression] itself as [rec]: [l] are the items from index [i]
    of the slice on. *)
Fixpoint parseArguments (rec : string -> json -> outcome TypedExpression)
    (key : string) (i : nat) (l : list json) {struct l}
  : outcome (list TypedExpression) :=
  match l with
  | [] => Ok []
  | arg :: r =>
      do a <- rec (key +:+ "." +:+ string_of_nat (i + 1)) arg;
      do others <- parseArguments rec key (S i) r;
      Ok (a :: others)
  end.

(** [parseExpression(key, expr)].  [typeof expr] is ['object'] for [null]
    and for an object, the two inputs that reach the first [throw]. *)
Fixpoint parseExpression (key : string) (expr : json) {struct expr}
  : outcome TypedExpression :=
  match expr with
  | JUndefined => Ok (Literal LNull NullType key)
  | JStr s => Ok (Literal (LString s) StringType key)
  | JNum n => Ok (Literal (LNumber n) NumberType key)
  | JBool b => Ok (Literal (LBoolean b) BooleanType key)
  | JNull | JObj _ =>
      Throw (Error (key +:+ ": expected an array, but found object instead."))
  | JArr items =>
      (* op = expr[0]; the arguments are expr.slice(1) *)
      let build (op : json) (parse_arguments : outcome (list TypedExpression)) :=
        match lookup_expressions op with
        | Missing => Throw (Error (key +:+ ": unknown function " +:+ js_String op))
        | Own definition =>
            do arguments <- parse_arguments;
            Ok (LambdaCall op (Some (def_type definition)) arguments key)
        | Inherited =>
            do arguments <- parse_arguments;
            Ok (LambdaCall op None arguments key)
        end in
      match items with
      | [] => build JUndefined (Ok [])
      | op :: rest => build op (parseArguments parseExpression key 0 rest)
      end
  end.

(** The [for] loop of [compile] over [e.arguments], with [compile] itself as
    [rec]: [argTypes] are [e.type.args] from index [i] on. *)
Fixpoint compileArgs (rec : option Ty -> TypedExpression -> outcome CompileResult)
    (argTypes : list Ty) (arguments : list TypedExpression)
    (errors : list TypeError_) (compiledArgs : list CompiledExpression)
  : outcome (list TypeError_ * list CompiledExpression) :=
  match arguments with
  | [] => Ok (errors, compiledArgs)
  | arg :: rest =>
      do compiledArg <- rec (head argTypes) arg;
      match compiledArg with
      | error_ errs => compileArgs rec (tail argTypes) rest (errors ++ errs) compiledArgs
      | success c => compileArgs rec (tail argTypes) rest errors (compiledArgs ++ [c])
      end
  end.

(** What [compile] does with the compiled arguments of a checked call [e]
    once none of them gave an error: the flags, the definition's [compile],
    the result. *)
Definition finishCall (e : TypedExpression) (name : json) (type : option Ty) (k : string)
    (compiledArgs : list CompiledExpression) : outcome CompileResult :=
  let isFeatureConstant := forallb isFeatureConstant compiledArgs in
  let isZoomConstant := forallb isZoomConstant compiledArgs in
  match lookup_expressions name with
  | Own definition =>
      do compiled <- def_compile definition e compiledArgs;
      match out_errors compiled with
      | Some messages =>
          Ok (error_ (map (fun message => mkError k message) messages))
      | None =>
          let isFeatureConstant :=
            match out_isFeatureConstant compiled with
            | Some b => isFeatureConstant && b
            | None => isFeatureConstant
            end in
          let isZoomConstant :=
            match out_isZoomConstant compiled with
            | Some b => isZoomConstant && b
            | None => isZoomConstant
            end in
          (* assert(compiled.js) *)
          match out_js compiled with
          | None | Some EmptyString => Throw AssertionError
          | Some body =>
              match type with
              | Some (lambda result _) =>
                  Ok (success (mkCompiled ("(" +:+ body +:+ ")") result
                                 isFeatureConstant isZoomConstant e))
              | _ => Throw TypeError
              end
          end
      end
  | _ => Throw TypeError
  end.

(** [typecheck(expected || e.type, e)] *)
Definition typecheck_for (expected : option Ty) (e : TypedExpression) : outcome CheckResult :=
  match (match expected with Some t => Some t | None => type_of e end) with
  | Some t => typeCheckExpression t e
  | None => Throw TypeError
  end.

(** [compile(expected, e)]; [expected] is [None] for [null] and for
    [undefined].  The recursion is on the arguments of the checked expression,
    so it is given fuel: [compile] below supplies the height of the
    expression. *)
Fixpoint compile_fuel (fuel : nat) (expected : option Ty) (e : TypedExpression)
  : outcome CompileResult :=
  match fuel with
  | O => OutOfFuel
  | S fuel =>
      do typecheckResult <- typecheck_for expected e;
      match typecheckResult with
      | Errors errors => Ok (error_ errors)
      | Checked ((Literal value type _) as e) =>
          Ok (success (mkCompiled (JSON_stringify (json_of_value value)) type true true e))
      | Checked ((LambdaCall name type arguments k) as e) =>
          let argTypes := match type with Some (lambda _ a) => a | _ => [] end in
          do '(errors, compiledArgs) <-
             compileArgs (compile_fuel fuel) argTypes arguments [] [];
          match errors with
          | _ :: _ => Ok (error_ errors)
          | [] => finishCall e name type k compiledArgs
          end
      end
  end.

Fixpoint height (e : TypedExpression) : nat :=
  match e with
  | Literal _ _ _ => 0
  | LambdaCall _ _ arguments _ => S (list_max (map height arguments))
  end.

Definition compile (expected : option Ty) (e : TypedExpression) : outcome CompileResult :=
  compile_fuel (S (height e)) expected e.

(** [compileExpression(expr)].  On success the source goes on to build the
    callable from [compiled.js] with [new Function]; that step, which rethrows
    the engine's exception when the text is not a JavaScript expression, is
    not modelled, and the result is given without its [function] field. *)
Definition compileExpression (expr : json) : outcome CompileResult :=
  do parsed <- parseExpression EmptyString expr;
  compile None parsed.

(** ** Run-time values *)

(** What an object is: a plain object, an array ([Array.isArray]), or a
    function of the host, named. *)
Inductive ObjClass : Type :=
| PlainObject
| ArrayObject
| FunctionObject (name : string).

(** The values the compiled code handles.  An object has its own
    properties, in the order [Object.keys] lists them, each with its
    [enumerable] flag, and a prototype ([VNull] ends the chain). *)
Inductive Value : Type :=
| VUndefined
| VNull
| VBoolean (b : bool)
| VNumber (q : Q)
| VString (s : string)
| VObject (class : ObjClass) (own : list (string * (bool * Value))) (proto : Value).

(** [!!v] *)
Definition truthy (v : Value) : bool :=
  match v with
  | VUndefined | VNull => false
  | VBoolean b => b
  | VNumber q => negb (Qeq_bool q 0)
  | VString s => negb (String.eqb s EmptyString)
  | VObject _ _ _ => true
  end.

(** [o.hasOwnProperty(k)] as [Object.prototype] defines it, on the own
    properties of an object. *)
Definition has_own (own : list (string * (bool * Value))) (k : string) : bool :=
  existsb (fun p => String.eqb k (fst p)) own.

(** [k in o], for an object [o]: own properties, then the prototype chain. *)
Fixpoint js_in (k : string) (o : Value) : bool :=
  match o with
  | VObject _ own proto => has_own own k || js_in k proto
  | _ => false
  end.

(** [Object.getPrototypeOf(o)], for an object [o]. *)
Definition prototype_of (o : Value) : Value :=
  match o with
  | VObject _ _ proto => proto
  | _ => VNull
  end.

(** The one accessor property met here, [__proto__] of [Object.prototype],
    is held under that key as its getter, the host function
    [get __proto__]. *)
Definition is_proto_getter (v : Value) : bool :=
  match v with
  | VObject (FunctionObject "get __proto__") _ _ => true
  | _ => false
  end.

(** The property [k] is looked up along the prototype chain of [o]; a data
    property gives its value, the accessor [__proto__] the prototype of the
    object that was read, [receiver]. *)
Fixpoint js_read_from (receiver o : Value) (k : string) : Value :=
  match o with
  | VObject _ own proto =>
      match assoc k own with
      | Some (_, v) =>
          if String.eqb k "__proto__" && is_proto_getter v then prototype_of receiver else v
      | None => js_read_from receiver proto k
      end
  | _ => VUndefined
  end.

(** [o[k]], for an object [o]. *)
Definition js_read (o : Value) (k : string) : Value := js_read_from o o k.

(** The number an array index is written as: a canonical decimal numeral, no
    leading zero, at most 2^32 - 2. *)
Fixpoint digits_value (s : string) (acc : N) : option N :=
  match s with
  | EmptyString => Some acc
  | String c r =>
      let n := N_of_ascii c in
      if (48 <=? n)%N && (n <=? 57)%N then digits_value r (10 * acc + (n - 48))%N else None
  end.

Definition array_index (k : string) : option N :=
  match k with
  | EmptyString => None
  | String c r =>
      if Ascii.eqb c "0" && negb (String.eqb r EmptyString) then None
      else match digits_value k 0 with
           | Some n => if (n <=? 4294967294)%N then Some n else None
           | None => None
           end
  end.

Fixpoint insert_index (x : N * string) (l : list (N * string)) : list (N * string) :=
  match l with
  | [] => [x]
  | y :: r => if (fst x <=? fst y)%N then x :: l else y :: insert_index x r
  end.

(** The order in which the own keys of an object are listed: the array
    indices in ascending order, then the other keys in the order in which the
    properties were created, which is the order of the list. *)
Definition own_property_keys (keys : list string) : list string :=
  map snd (fold_right insert_index []
             (flat_map (fun k => match array_index k with
                                 | Some n => [(n, k)]
                                 | None => []
                                 end) keys)) ++
  List.filter (fun k => match array_index k with Some _ => false | None => true end) keys.

(** [Object.keys(o)]: the own enumerable keys. *)
Definition Object_keys (o : Value) : list string :=
  match o with
  | VObject _ own _ => own_property_keys (map fst (List.filter (fun p => fst (snd p)) own))
  | _ => []
  end.

(** [typeof v === 'object'] *)
Definition typeof_object (v : Value) : bool :=
  match v with
  | VNull | VObject PlainObject _ _ | VObject ArrayObject _ _ => true
  | _ => false
  end.

(** A host function as a value.  What a function object itself contains is
    not spelled out. *)
Definition builtin (name : string) : Value := VObject (FunctionObject name) [] VNull.

(** [Object.prototype], with the properties every object inherits: the
    eleven methods, and the accessor [__proto__]. *)
Definition ObjectPrototype : Value :=
  VObject PlainObject
    (map (fun k => (k, (false, builtin k)))
       ["constructor"; "__defineGetter__"; "__defineSetter__"; "hasOwnProperty";
        "__lookupGetter__"; "__lookupSetter__"; "isPrototypeOf"; "propertyIsEnumerable";
        "toString"; "valueOf"] ++
     [("__proto__", (false, builtin "get __proto__"));
      ("toLocaleString", (false, builtin "toLocaleString"))])
    VNull.

(** A member is added to the own properties of an object: a key the object
    has keeps its place and takes the new value. *)
Fixpoint define_member (own : list (string * (bool * Value))) (k : string) (v : Value)
  : list (string * (bool * Value)) :=
  match own with
  | [] => [(k, (true, v))]
  | (k', slot) :: r =>
      if String.eqb k k' then (k', (true, v)) :: r else (k', slot) :: define_member r k v
  end.

(** An object as [JSON.parse] builds it from its members, in the order in
    which they are written: own enumerable properties over
    [Object.prototype]. *)
Definition object_literal (members : list (string * Value)) : Value :=
  VObject PlainObject
    (fold_left (fun own p => define_member own (fst p) (snd p)) members [])
    ObjectPrototype.

Definition emptyObject : Value := object_literal [].

(** ** The evaluation context *)

(** [new RuntimeError(message)] *)
Definition new_RuntimeError (message : string) : JsError :=
  RuntimeError "ExpressionEvaluationError" message.

(** [RuntimeError.prototype.toJSON] *)
Definition toJSON (e : JsError) : string :=
  match e with
  | RuntimeError name message => name +:+ ": " +:+ message
  | _ => EmptyString
  end.

(** [get(obj, key)].  [key in obj] throws on a value that is not an object. *)
Definition get (obj : Value) (key : string) : outcome Value :=
  if negb (truthy obj)
  then Throw (new_RuntimeError ("Cannot get property " +:+ key +:+ " from null object"))
  else match obj with
       | VObject _ _ _ =>
           if negb (js_in key obj)
           then Throw (new_RuntimeError
                         ("Property " +:+ key +:+ " not found in object with keys: [" +:+
                          join "," (Object_keys obj) +:+ "]"))
           else Ok (js_read obj key)
       | _ => Throw TypeError
       end.

(** [asObject(obj)] *)
Definition asObject (obj : Value) : outcome Value :=
  if truthy obj && typeof_object obj then Ok obj
  else Throw (new_RuntimeError "Expected an object").

(** [var props = feature.properties || {}], from the value of
    [feature.properties]. *)
Definition props_of (feature_properties : Value) : Value :=
  if truthy feature_properties then feature_properties else emptyObject.

(** What the body compiled for [["get", ["properties"], key]],
    [this.get((this.asObject(props)), key)], evaluates to. *)
Definition evaluate_get_properties (feature_properties : Value) (key : string)
  : outcome Value :=
  do o <- asObject (props_of feature_properties);
  get o key.

Section Host.

(** A call of a host function other than [hasOwnProperty], on a receiver and
    one argument. *)
Variable call_function : string -> Value -> string -> outcome Value.

(** [o.hasOwnProperty(k)], the body compiled for [["has", o, k]], on the
    object [o] made of [class], [own] and [proto] (the receiver is a result of
    [this.asObject]): the method is looked up like any property, then
    called. *)
Definition evaluate_has (class : ObjClass) (own : list (string * (bool * Value)))
    (proto : Value) (k : string) : outcome Value :=
  let o := VObject class own proto in
  match js_read o "hasOwnProperty" with
  | VObject (FunctionObject "hasOwnProperty") _ _ => Ok (VBoolean (has_own own k))
  | VObject (FunctionObject f) _ _ => call_function f o k
  | _ => Throw TypeError
  end.

End Host.

(** ** Curves at run time *)

Definition Qltb (a b : Q) : bool := negb (Qle_bool b a).

(** Comparisons where an operand may be [undefined] (an index outside the
    array): they are then false. *)
Definition lt_ (a b : option Q) : bool :=
  match a, b with Some a, Some b => Qltb a b | _, _ => false end.
Definition le_ (a b : option Q) : bool :=
  match a, b with Some a, Some b => Qle_bool a b | _, _ => false end.
Definition eq_ (a b : option Q) : bool :=
  match a, b with Some a, Some b => Qeq_bool a b | _, _ => false end.

(** [stops[i]] for an integer [i]. *)
Definition at_index {A : Type} (l : list A) (i : Z) : option A :=
  if (i <? 0)%Z then None else nth_error l (Z.to_nat i).

(** The [while] loop of [findStopLessThanOrEqualTo].  When none of the three
    branches applies the source loops on with the same bounds. *)
Fixpoint findStop_loop (fuel : nat) (stops : list Q) (input : Q)
    (lowerIndex upperIndex currentIndex : Z) : option Z :=
  if (lowerIndex <=? upperIndex)%Z then
    match fuel with
    | O => None
    | S fuel =>
        let currentIndex := ((lowerIndex + upperIndex) / 2)%Z in
        let currentValue := at_index stops currentIndex in
        let upperValue := at_index stops (currentIndex + 1) in
        if eq_ (Some input) currentValue
           || (lt_ currentValue (Some input) && lt_ (Some input) upperValue)
        then Some currentIndex
        else if lt_ currentValue (Some input)
        then findStop_loop fuel stops input (currentIndex + 1)%Z upperIndex currentIndex
        else if lt_ (Some input) currentValue
        then findStop_loop fuel stops input lowerIndex (currentIndex - 1)%Z currentIndex
        else findStop_loop fuel stops input lowerIndex upperIndex currentIndex
    end
  else Some (Z.max (currentIndex - 1) 0).

(** [findStopLessThanOrEqualTo(stops, input)]: every turn of the loop that
    goes on narrows the bounds, so [n + 1] turns are enough. *)
Definition findStopLessThanOrEqualTo (stops : list Q) (input : Q) : option Z :=
  let n := Z.of_nat (length stops) in
  findStop_loop (S (length stops)) stops input 0 (n - 1) 0.

(** The interpolation a curve was compiled with: [{name: 'step'}],
    [{name: 'linear'}] or [{name: 'exponential', base}], the three operators
    of type [Interpolation]. *)
Inductive Interpolation : Type :=
| step
| linear
| exponential (base : Q).

(** The [resultType] a curve was compiled with. *)
Inductive ResultType : Type :=
| number_result
| color_result.

(** [new Color(input)] for an array [input] is an object whose [value] is the
    array. *)
Definition ColorPrototype : Value :=
  VObject PlainObject [("constructor", (false, builtin "Color"))] ObjectPrototype.

(** [x.value] *)
Definition dot_value (x : Value) : outcome Value :=
  match x with
  | VUndefined | VNull => Throw TypeError
  | VObject _ _ _ => Ok (js_read x "value")
  | _ => Ok VUndefined
  end.

Section Curve.

(** [Math.pow]. *)
Variable pow : Q -> Q -> Q.
(** [interpolate.number] and [interpolate.color] of [util/interpolate], which
    is not among the sources: the spec takes them as given.  The factor is
    [None] when it is not a number. *)
Variable interpolate : ResultType -> Value -> Value -> option Q -> outcome Value.
(** [parseColor] of [util/parse_color], and the text of a value in a
    template. *)
Variable parseColor : Value -> Value.
Variable text_of : Value -> string.

(** [interpolationFactor(input, base, lowerValue, upperValue)], in exact
    arithmetic.  The source computes in doubles: the two agree up to rounding
    where no operation overflows and no divisor is zero; a quotient by zero,
    [Infinity] or no number in the source, is 0 here. *)
Definition interpolationFactor (input base lowerValue upperValue : Q) : Q :=
  let difference := (upperValue - lowerValue)%Q in
  let progress := (input - lowerValue)%Q in
  if Qeq_bool base 1
  then (progress / difference)%Q
  else ((pow base progress - 1) / (pow base difference - 1))%Q.

(** [new Color(input)] *)
Definition new_Color (input : Value) : outcome Value :=
  match input with
  | VObject ArrayObject _ _ =>
      Ok (VObject PlainObject [("value", (true, input))] ColorPrototype)
  | _ =>
      match parseColor input with
      | VUndefined =>
          Throw (new_RuntimeError
                   ("Could not parse color from value '" +:+ text_of input +:+ "'"))
      | value => Ok (VObject PlainObject [("value", (true, value))] ColorPrototype)
      end
  end.

(** [stopOutputs[i]()]: the outputs are thunks, called when needed. *)
Definition call_output (stopOutputs : list (unit -> outcome Value)) (i : Z)
  : outcome Value :=
  match at_index stopOutputs i with
  | Some f => f tt
  | None => Throw TypeError
  end.

(** The last statement of [evaluateCurve]: the two outputs around [index]
    are called and interpolated at [t]. *)
Definition interpolateOutputs (stopOutputs : list (unit -> outcome Value))
    (resultType : ResultType) (index : Z) (t : option Q) : outcome Value :=
  match resultType with
  | color_result =>
      do lower <- call_output stopOutputs index;
      do lowerColor <- dot_value lower;
      do upper <- call_output stopOutputs (index + 1);
      do upperColor <- dot_value upper;
      do mixed <- interpolate color_result lowerColor upperColor t;
      new_Color mixed
  | number_result =>
      do lower <- call_output stopOutputs index;
      do upper <- call_output stopOutputs (index + 1);
      interpolate number_result lower upper t
  end.

(** [evaluateCurve(input, stopInputs, stopOutputs, interpolation, resultType)] *)
Definition evaluateCurve (input : Q) (stopInputs : list Q)
    (stopOutputs : list (unit -> outcome Value))
    (interpolation : Interpolation) (resultType : ResultType) : option (outcome Value) :=
  let stopCount := Z.of_nat (length stopInputs) in
  if le_ (Some input) (at_index stopInputs 0) then Some (call_output stopOutputs 0)
  else if le_ (at_index stopInputs (stopCount - 1)) (Some input)
  then Some (call_output stopOutputs (stopCount - 1))
  else
    index ← findStopLessThanOrEqualTo stopInputs input;
    Some match interpolation with
    | step => call_output stopOutputs index
    | _ =>
        let base := match interpolation with exponential b => b | _ => 1%Q end in
        (* an undefined stop makes the factor NaN *)
        let t := match at_index stopInputs index, at_index stopInputs (index + 1) with
                 | Some lowerValue, Some upperValue =>
                     Some (interpolationFactor input base lowerValue upperValue)
                 | _, _ => None
                 end in
        interpolateOutputs stopOutputs resultType index t
    end.

End Curve.

(** ** Vocabulary of the properties *)

(** The operator names whose [compile] reports [isFeatureConstant: false],
    and the one that reports [isZoomConstant: false]. *)
Definition feature_operator (k : string) : bool :=
  String.eqb k "properties" || String.eqb k "geometry_type" || String.eqb k "id".
Definition zoom_operator (k : string) : bool := String.eqb k "zoom".

(** An expression mentions an operator selected by [p] when some call in it
    names one; the name is read as the registry reads it. *)
Fixpoint mentions (p : string -> bool) (e : TypedExpression) : bool :=
  match e with
  | Literal _ _ _ => false
  | LambdaCall name _ arguments _ => p (js_String name) || existsb (mentions p) arguments
  end.

(** The flag of a node as the conjunction of the flags of its arguments and
    of the override of its own operator. *)
Fixpoint constant (p : string -> bool) (e : TypedExpression) : bool :=
  match e with
  | Literal _ _ _ => true
  | LambdaCall name _ arguments _ =>
      forallb (constant p) arguments && negb (p (js_String name))
  end.

(** Does a Typename occur anywhere in a type? *)
Fixpoint has_typename (t : Ty) : bool :=
  match t with
  | typename _ => true
  | primitive _ | ValueType => false
  | vector i | array i _ | anyArray i => has_typename i
  | variant l | nargs l => existsb has_typename l
  | lambda r a => has_typename r || existsb has_typename a
  end.

(** Does a Typename occur anywhere in the type annotations of a tree? *)
Fixpoint typename_remains (e : TypedExpression) : bool :=
  match e with
  | Literal _ t _ => has_typename t
  | LambdaCall _ t arguments _ =>
      match t with Some t => has_typename t | None => false end
      || existsb typename_remains arguments
  end.

(** No annotation of the tree is itself a Typename: a literal's type is not
    one, and a call is annotated with a lambda whose result type and argument
    types are not. *)
Fixpoint annotations_resolved (e : TypedExpression) : bool :=
  match e with
  | Literal _ t _ => negb (is_typename t)
  | LambdaCall _ t arguments _ =>
      match t with
      | Some (lambda r a) => negb (is_typename r) && forallb (fun t => negb (is_typename t)) a
      | _ => false
      end
      && forallb annotations_resolved arguments
  end.

(** Stop inputs in strictly ascending order. *)
Fixpoint ascending (stops : list Q) : bool :=
  match stops with
  | a :: ((b :: _) as rest) => Qltb a b && ascending rest
  | _ => true
  end.

(** ** Induction on expressions *)

Section TypedExpression_induction.

Variable P : TypedExpression -> Prop.
Hypothesis P_literal : forall v t k, P (Literal v t k).
Hypothesis P_call : forall name t arguments k,
  Forall P arguments -> P (LambdaCall name t arguments k).

Fixpoint TypedExpression_nested_ind (e : TypedExpression) : P e :=
  match e with
  | Literal v t k => P_literal v t k
  | LambdaCall name t arguments k =>
      P_call name t arguments k
        ((fix all (l : list TypedExpression) : Forall P l :=
            match l with
            | [] => @List.Forall_nil _ P
            | x :: r => @List.Forall_cons _ P x r (TypedExpression_nested_ind x) (all r)
            end) arguments)
  end.

End TypedExpression_induction.


(** ** The reports of the registry *)

(** What holds of the output of the [compile] of the operator registered
    under [k]: an [errors] list is never empty, and the two overrides are the
    ones of the feature and zoom operators. *)
Definition entry_reports (k : string) (d : Definition_) : Prop :=
  forall e cs out, def_compile d e cs = Ok out ->
    (forall l, out_errors out = Some l -> l <> []) /\
    (out_errors out = None ->
       out_isFeatureConstant out = (if feature_operator k then Some false else None) /\
       out_isZoomConstant out = (if zoom_operator k then Some false else None)).

Ltac split_output H :=
  repeat match type of H with
         | bind ?c _ = Ok _ => destruct c; cbn [bind] in H; try discriminate H
         | context [match ?x with _ => _ end] => destruct x; try discriminate H
         | context [if ?x then _ else _] => destruct x; try discriminate H
         end.

Ltac entry_reports_tac :=
  let e := fresh "e" in let cs := fresh "cs" in let out := fresh "out" in
  let H := fresh "H" in
  intros e cs out H;
  cbv beta iota zeta delta [def_compile fst snd unary fromContext defineMathConstant
    defineMathFunction defineBinaryMathOp defineComparisonOp defineBooleanOp
    compile_case compile_curve void0 feature_dependent output_js output_errors] in H;
  split_output H;
  inversion H; subst; clear H; cbn;
  (split; [intros ? [=]; subst; discriminate | intros; split; (reflexivity || discriminate)]).

(** The missing-key error of [get]. *)
Definition not_found (key : string) (obj : Value) : JsError :=
  new_RuntimeError ("Property " +:+ key +:+ " not found in object with keys: [" +:+
                    join "," (Object_keys obj) +:+ "]").

(** The index the search is to return: the stop there is at most [input],
    which it equals or which is below the next stop. *)
Definition settles (stops : list Q) (input : Q) (i : Z) : Prop :=
  exists k, at_index stops i = Some k /\
    ((input == k)%Q \/
     ((k < input)%Q /\ exists k', at_index stops (i + 1)%Z = Some k' /\ (input < k')%Q)).

(** ** Inputs of the examples *)

Definition curve_of (interpolation : json) (stops : list json) : json :=
  JArr [JStr "number"; JArr (JStr "curve" :: interpolation :: JArr [JStr "zoom"] :: stops)].

Definition plus_one_two : json := JArr [JStr "+"; JNum 1; JStr "two"].

Definition power_of_one : json := JArr [JStr "^"; JNum 1].

Definition get_property_x : json := JArr [JStr "get"; JArr [JStr "properties"]; JStr "x"].

Definition get_property_x_compiled : CompiledExpression :=
  mkCompiled ("(this.get((this.asObject(props)), " +:+ dq +:+ "x" +:+ dq +:+ "))")
    ValueType false true
    (LambdaCall (JStr "get") (Some (lambda ValueType [ObjectType; StringType]))
       [LambdaCall (JStr "properties") (Some (lambda ObjectType [])) [] ".1";
        Literal (LString "x") StringType ".2"] EmptyString).

Definition length_of_abc : json := JArr [JStr "length"; JStr "abc"].

Definition one_stop_curve : json :=
  curve_of (JArr [JStr "step"]) [JNum 0; JNum 10].

Definition get_missing : json := JArr [JStr "get"; JArr [JStr "properties"]; JStr "missing"].

Definition four_stops : list Q := [0; 10; 20; 30]%Q.

Definition factor_as_value : ResultType -> Value -> Value -> option Q -> outcome Value :=
  fun _ _ _ t => Ok match t with Some q => VNumber q | None => VUndefined end.

(** ** The other helpers of the evaluation context *)

(** [typeof v] *)
Definition js_typeof (v : Value) : string :=
  match v with
  | VUndefined => "undefined"
  | VNull => "object"
  | VBoolean _ => "boolean"
  | VNumber _ => "number"
  | VString _ => "string"
  | VObject (FunctionObject _) _ _ => "function"
  | VObject _ _ _ => "object"
  end.

(** [titlecase(s)]: [`${s.slice(0, 1).toUpperCase()}${s.slice(1)}`] *)
Definition titlecase (s : string) : string :=
  toUpperCase (substring 0 1 s) +:+ substring 1 (String.length s - 1) s.

(** [Array.isArray(x)] *)
Definition isArray (x : Value) : bool :=
  match x with VObject ArrayObject _ _ => true | _ => false end.

(** Objects carry no identity here: [Color.prototype] is told by its own
    [constructor], the function [Color]. *)
Definition is_ColorPrototype (p : Value) : bool :=
  match p with
  | VObject _ own _ =>
      match assoc "constructor" own with
      | Some (_, VObject (FunctionObject "Color") _ _) => true
      | _ => false
      end
  | _ => false
  end.

(** [x instanceof Color]: [Color.prototype] is on the prototype chain of
    [x]. *)
Fixpoint instanceof_Color (x : Value) : bool :=
  match x with
  | VObject _ _ proto => is_ColorPrototype proto || instanceof_Color proto
  | _ => false
  end.

(** [typeOf(x)] *)
Definition typeOf (x : Value) : string :=
  if isArray x then "Vector<Value>"
  else match x with
       | VNull => "Null"
       | _ => if instanceof_Color x then "Color" else titlecase (js_typeof x)
       end.

(** [asArray(arr)] *)
Definition asArray (arr : Value) : outcome Value :=
  if isArray arr then Ok arr else Throw (new_RuntimeError "Expected an array").

(** [Array.prototype], with the methods of ECMAScript 2016; later editions
    add more. *)
Definition ArrayPrototype : Value :=
  VObject ArrayObject
    (("length", (false, VNumber 0)) ::
     map (fun k => (k, (false, builtin k)))
       ["constructor"; "concat"; "copyWithin"; "fill"; "find"; "findIndex";
        "lastIndexOf"; "pop"; "push"; "reverse"; "shift"; "unshift"; "slice"; "sort";
        "splice"; "includes"; "indexOf"; "join"; "keys"; "entries"; "forEach";
        "filter"; "map"; "every"; "some"; "reduce"; "reduceRight"; "toLocaleString";
        "toString"])
    ObjectPrototype.

(** The own properties of an array with the given items, from index [i]
    on. *)
Fixpoint array_items (i : nat) (items : list Value) : list (string * (bool * Value)) :=
  match items with
  | [] => []
  | v :: r => (string_of_nat i, (true, v)) :: array_items (S i) r
  end.

(** An array literal [[v0, v1, ...]]: the indices, then [length], which
    [Object.keys] does not list. *)
Definition array_literal (items : list Value) : Value :=
  VObject ArrayObject
    (array_items 0 items ++
     [("length", (false, VNumber (inject_Z (Z.of_nat (List.length items)))))])
    ArrayPrototype.

Section Colors.

Variable parseColor : Value -> Value.
Variable text_of : Value -> string.

(** [color(s)] *)
Definition color (s : Value) : outcome Value := new_Color parseColor text_of s.

(** [rgba(...components)], for components that are numbers, as the checker
    has them.  With fewer than three components a channel is
    [undefined / 255], which is not a number: no value here stands for it,
    and the result is [None]. *)
Definition rgba (components : list Q) : option (outcome Value) :=
  r ← nth_error components 0;
  g ← nth_error components 1;
  b ← nth_error components 2;
  Some (new_Color parseColor text_of
          (array_literal
             [VNumber (r / 255); VNumber (g / 255); VNumber (b / 255);
              VNumber (if Nat.ltb 3 (List.length components)
                       then nth 3 components 1%Q else 1%Q)])).

End Colors.

(** ** Vocabulary of the further properties *)

(** The map a match leaves holds every binding of the map it was given. *)
Definition grows (before after : option tmap) : Prop :=
  match before, after with
  | Some m, Some m' => m ⊆ m'
  | None, None => True
  | _, _ => False
  end.

(** The types the matcher follows to the end without a typename map:
    primitives, [Value], variants, and vectors and arrays of such. *)
Fixpoint self_matching (t : Ty) : bool :=
  match t with
  | primitive _ | ValueType | variant _ => true
  | vector i | array i _ => self_matching i
  | _ => false
  end.

Definition is_lambda (t : Ty) : bool :=
  match t with lambda _ _ => true | _ => false end.

(** The text [JSON.stringify] writes for an item of an array. *)
Definition item_text (x : json) : string :=
  match x with
  | JUndefined => "null"
  | _ => JSON_stringify x
  end.

(** The keys of the arguments of a node keyed [k]: [k.1], [k.2], ... *)
Definition children_keyed (k : string) (arguments : list TypedExpression) : Prop :=
  forall i a, nth_error arguments i = Some a ->
    key_of a = k +:+ "." +:+ string_of_nat (i + 1).

(** Every node of a tree is keyed by its path from the node above. *)
Inductive keyed_by_path : TypedExpression -> Prop :=
| keyed_literal v t k : keyed_by_path (Literal v t k)
| keyed_call name t arguments k :
    children_keyed k arguments -> Forall keyed_by_path arguments ->
    keyed_by_path (LambdaCall name t arguments k).

(** The keys of the nodes of a tree. *)
Fixpoint keys_of (e : TypedExpression) : list string :=
  match e with
  | Literal _ _ k => [k]
  | LambdaCall _ _ arguments k => k :: flat_map keys_of arguments
  end.

(** A literal as the input writes it; [undefined] is the input that is
    parsed as the literal [null]. *)
Definition literal_input (v : LitValue) : json :=
  match v with
  | LNull => JUndefined
  | LString s => JStr s
  | LNumber n => JNum n
  | LBoolean b => JBool b
  end.

(** The type [parseExpression] tags a literal with. *)
Definition literal_type (v : LitValue) : Ty :=
  match v with
  | LNull => NullType
  | LString _ => StringType
  | LNumber _ => NumberType
  | LBoolean _ => BooleanType
  end.

(** The JavaScript operator [defineComparisonOp] compiles a comparison to. *)
Definition comparison_operator (name : string) : string :=
  if String.eqb name "==" then "===" else if String.eqb name "!=" then "!==" else name.

(** Compiled literal numbers, as arguments of a [compile] callback. *)
Definition compiled_number (n : Z) (k : string) : CompiledExpression :=
  mkCompiled (string_of_Z n) NumberType true true (Literal (LNumber n) NumberType k).

(** The own properties of the objects on the prototype chain of [o], from
    [o] itself up. *)
Fixpoint prototype_chain (o : Value) : list (list (string * (bool * Value))) :=
  match o with
  | VObject _ own proto => own :: prototype_chain proto
  | _ => []
  end.

(** [k] is a key of some object of the chain. *)
Definition on_chain (k : string) (o : Value) : Prop :=
  exists own, In own (prototype_chain o) /\ In k (map fst own).

(** [["has", ["properties"], k]] *)
Definition has_property (k : string) : json :=
  JArr [JStr "has"; JArr [JStr "properties"]; JStr k].





(** The call of a binary operator on two integer literals, parsed at the
    root. *)
Definition binary_call (op : string) (n m : Z) : TypedExpression :=
  LambdaCall (JStr op) (Some (lambda NumberType [NumberType; NumberType]))
    [Literal (LNumber n) NumberType ".1"; Literal (LNumber m) NumberType ".2"] EmptyString.

(** ** Induction on types and on inputs *)

Section Ty_induction.

Variable P : Ty -> Prop.
Hypothesis P_primitive : forall name, P (primitive name).
Hypothesis P_value : P ValueType.
Hypothesis P_vector : forall i, P i -> P (vector i).
Hypothesis P_array : forall i N, P i -> P (array i N).
Hypothesis P_anyArray : forall i, P i -> P (anyArray i).
Hypothesis P_variant : forall members, Forall P members -> P (variant members).
Hypothesis P_typename : forall tn, P (typename tn).
Hypothesis P_nargs : forall types, Forall P types -> P (nargs types).
Hypothesis P_lambda : forall result args, P result -> Forall P args -> P (lambda result args).

Fixpoint Ty_nested_ind (t : Ty) : P t :=
  let all := fix all (l : list Ty) : Forall P l :=
    match l with
    | [] => @List.Forall_nil _ P
    | x :: r => @List.Forall_cons _ P x r (Ty_nested_ind x) (all r)
    end in
  match t with
  | primitive name => P_primitive name
  | ValueType => P_value
  | vector i => P_vector i (Ty_nested_ind i)
  | array i N => P_array i N (Ty_nested_ind i)
  | anyArray i => P_anyArray i (Ty_nested_ind i)
  | variant members => P_variant members (all members)
  | typename tn => P_typename tn
  | nargs types => P_nargs types (all types)
  | lambda result args => P_lambda result args (Ty_nested_ind result) (all args)
  end.

End Ty_induction.

Section json_induction.

Variable P : json -> Prop.
Hypothesis P_undefined : P JUndefined.
Hypothesis P_null : P JNull.
Hypothesis P_bool : forall b, P (JBool b).
Hypothesis P_num : forall n, P (JNum n).
Hypothesis P_str : forall s, P (JStr s).
Hypothesis P_arr : forall items, Forall P items -> P (JArr items).
Hypothesis P_obj : forall members, P (JObj members).

Fixpoint json_nested_ind (v : json) : P v :=
  match v with
  | JUndefined => P_undefined
  | JNull => P_null
  | JBool b => P_bool b
  | JNum n => P_num n
  | JStr s => P_str s
  | JArr items =>
      P_arr items
        ((fix all (l : list json) : Forall P l :=
            match l with
            | [] => @List.Forall_nil _ P
            | x :: r => @List.Forall_cons _ P x r (json_nested_ind x) (all r)
            end) items)
  | JObj members => P_obj members
  end.

End json_induction.

(** ** The types of the registry *)

(** The types the checker meets: the types of literals, and the result and
    argument types of the registry. *)
Definition universe : list Ty := [
  NullType; NumberType; StringType; BooleanType; ColorType; ObjectType;
  InterpolationType; ValueType; vector ValueType; array NumberType 4; typename "T";
  variant [vector (typename "T"); anyArray (typename "T")];
  variant [vector (typename "T"); StringType]
].

Definition in_universe (t : Ty) : bool := existsb (Ty_eqb t) universe.

(** A declared argument type: a type of the universe, or an [NArgs] of
    such. *)
Definition slot_in_universe (t : Ty) : bool :=
  match t with
  | nargs types => forallb in_universe types
  | _ => in_universe t
  end.

(** The typename maps the checker meets: [T] alone is bound, to a type of the
    universe. *)
Definition map_in_universe (m : tmap) : bool :=
  forallb (fun kb => String.eqb (fst kb) "T" && in_universe (snd kb)) (map_to_list m).

(** The maps of the universe, and no map. *)
Definition maps : list (option tmap) :=
  None :: Some ∅ :: map (fun b => Some {["T" := b]}) universe.

(** One match of the universe returns or throws, and leaves a map of the
    universe. *)
Definition match_ends (expected t : Ty) (m : option tmap) : bool :=
  match matchTypeError (match_fuel expected t m) expected t m with
  | Ok (_, Some m') => map_in_universe m'
  | Ok (_, None) => true
  | Throw _ => true
  | OutOfFuel => false
  end.

(** The verdict of a match: whether it reports a mismatch, and the map. *)
Definition verdict (c : outcome (option string * option tmap)) : outcome (bool * option tmap) :=
  match c with
  | Ok (Some _, m) => Ok (true, m)
  | Ok (None, m) => Ok (false, m)
  | Throw e => Throw e
  | OutOfFuel => OutOfFuel
  end.

(** A run that returns a result with [P], or throws. *)
Definition ends_with {A : Type} (P : A -> Prop) (c : outcome A) : Prop :=
  match c with
  | Ok a => P a
  | Throw _ => True
  | OutOfFuel => False
  end.

(** The annotations of a tree are of the universe: the type of a literal, and
    the result and the declared arguments of the type of a call. *)
Fixpoint typed (e : TypedExpression) : bool :=
  match e with
  | Literal _ t _ => in_universe t
  | LambdaCall _ type arguments _ =>
      match type with
      | None => true
      | Some (lambda r a) => in_universe r && forallb slot_in_universe a
      | Some _ => false
      end && forallb typed arguments
  end.

(** The argument types of a checked call are resolved: none is an [NArgs]. *)
Definition resolved_slots (e : TypedExpression) : bool :=
  match e with
  | LambdaCall _ (Some (lambda _ a)) _ _ => forallb in_universe a
  | _ => true
  end.

Definition checked_typed (r : CheckResult) : Prop :=
  match r with
  | Checked e => typed e = true /\ resolved_slots e = true
  | Errors _ => True
  end.

(** The [compile] callbacks of the registry, one by one: each returns or
    throws. *)
Ltac callback_returns :=
  let e := fresh "e" in let cs := fresh "cs" in
  intros e cs;
  cbv beta iota zeta delta [def_compile fst snd unary fromContext defineMathConstant
    defineMathFunction defineBinaryMathOp defineComparisonOp defineBooleanOp
    compile_case compile_curve void0 feature_dependent output_js output_errors arg_at];
  repeat first
    [ discriminate
    | match goal with
      | |- bind (match ?x with _ => _ end) _ <> OutOfFuel => destruct x; cbn [bind]
      end
    | match goal with
      | |- context [match ?x with _ => _ end] => destruct x
      | |- context [if ?x then _ else _] => destruct x
      end ].

(** * Properties *)

(** ** The type checker: what a successful check returns *)

Lemma bind_Ok {A B : Type} (c : outcome A) (f : A -> outcome B) (b : B) :
  bind c f = Ok b -> exists a, c = Ok a /\ f a = Ok b.
Proof. destruct c; simpl; [eauto | discriminate | discriminate]. Qed.

(** A type that is itself a Typename matches nothing when no map is given: the
    check then throws. *)
Lemma matchTypeErrorNoMap_typename (n : string) (t : Ty) :
  matchTypeErrorNoMap (typename n) t = Throw (Error (n +:+ " is not a valid output type.")).
Proof. unfold matchTypeErrorNoMap, match_fuel. destruct t; reflexivity. Qed.

(** The diagnostics of a failed check are never an empty list. *)
Lemma typeCheckExpression_errors_nonempty (expected : Ty) (e : TypedExpression) l :
  typeCheckExpression expected e = Ok (Errors l) -> l <> [].
Proof.
  destruct e as [v t k | name t args k]; simpl; intros H.
  - apply bind_Ok in H as (err & _ & H). destruct err; inversion H; discriminate.
  - apply bind_Ok in H as (ea & _ & H).
    destruct (is_typename _); [inversion H; discriminate |].
    apply bind_Ok in H as (tr & _ & H).
    apply bind_Ok in H as ([err m] & _ & H).
    destruct err; [inversion H; discriminate |].
    apply bind_Ok in H as ([[ex errs] m'] & _ & H).
    destruct (if Nat.eqb _ _ then _ else _); [| inversion H; discriminate].
    apply bind_Ok in H as ([[errs2 res] chk] & _ & H).
    destruct errs2; inversion H; discriminate.
Qed.

(** The second pass, when it ends without diagnostics, started without any and
    has checked every argument it was given a type for. *)
Lemma checkArgs_inv (rec : Ty -> TypedExpression -> outcome CheckResult) (m : tmap) :
  (forall t a l, rec t a = Ok (Errors l) -> l <> []) ->
  forall (args : list TypedExpression) (types : list Ty) errors resolved checked resolved' checked',
    checkArgs rec m types args errors resolved checked = Ok ([], resolved', checked') ->
    length types = length args ->
    errors = [] /\
    exists rs cs, resolved' = resolved ++ rs /\ checked' = checked ++ cs /\
      Forall3 (fun arg t r => rec t arg = Ok (Checked r)) args rs cs.
Proof.
  intros Hne args. induction args as [| arg args IH]; intros types errors resolved checked
    resolved' checked' H Hlen.
  - destruct types; [| discriminate]. simpl in H. inversion H; subst.
    split; [reflexivity |]. exists [], []. rewrite !app_nil_r. repeat split. constructor.
  - destruct types as [| t types]; [discriminate |]. simpl in H, Hlen.
    apply bind_Ok in H as (result & Hrec & H).
    destruct result as [r | errs].
    + destruct errors as [| e0 errors].
      * apply IH in H as (_ & rs & cs & -> & -> & HF); [| lia].
        split; [reflexivity |].
        exists (resolve m t :: rs), (r :: cs).
        rewrite <- !app_assoc. repeat split. constructor; assumption.
      * apply IH in H as (Habs & _); [discriminate | lia].
    + apply IH in H as (Habs & _); [| lia].
      apply app_eq_nil in Habs as [_ ->]. apply Hne in Hrec. congruence.
Qed.

(** What a successful check of a call returns: the same call, annotated with
    the expected result type, which is not a Typename, and with the types its
    arguments were checked against. *)
Lemma typeCheckExpression_call_inv expected name t args k e' :
  typeCheckExpression expected (LambdaCall name t args k) = Ok (Checked e') ->
  let expectedResult := match expected with lambda r _ => r | _ => expected end in
  is_typename expectedResult = false /\
  exists resolved checked,
    e' = LambdaCall name (Some (lambda expectedResult resolved)) checked k /\
    Forall3 (fun arg t r => typeCheckExpression t arg = Ok (Checked r)) args resolved checked.
Proof.
  simpl; intros H.
  apply bind_Ok in H as (ea & _ & H).
  destruct (is_typename _) eqn:Hty; [discriminate |].
  split; [reflexivity |].
  apply bind_Ok in H as (tr & _ & H).
  apply bind_Ok in H as ([err m] & _ & H).
  destruct err; [discriminate |].
  apply bind_Ok in H as ([[ex errs] m'] & _ & H).
  destruct (Nat.eqb (length ex) (length args)) eqn:Hlen; [| destruct errs; discriminate].
  apply Nat.eqb_eq in Hlen.
  destruct errs; [| discriminate].
  apply bind_Ok in H as ([[errs2 res] chk] & Hc & H).
  destruct errs2; [| discriminate].
  inversion H; subst; clear H.
  apply checkArgs_inv in Hc as (_ & rs & cs & -> & -> & HF);
    [| apply typeCheckExpression_errors_nonempty | assumption].
  exists rs, cs. split; [reflexivity | assumption].
Qed.

Lemma typeCheckExpression_literal_eq expected v t k :
  typeCheckExpression expected (Literal v t k) =
  bind (matchTypeErrorNoMap expected t) (fun error =>
    match error with
    | Some msg => Ok (Errors [mkError k msg])
    | None => Ok (Checked (Literal v t k))
    end).
Proof. reflexivity. Qed.

(** A check never succeeds against an expected type that is itself a
    Typename. *)
Lemma typeCheckExpression_not_typename expected e e' :
  typeCheckExpression expected e = Ok (Checked e') -> is_typename expected = false.
Proof.
  destruct e as [v t k | name t args k]; intros H.
  - destruct expected; try reflexivity.
    rewrite typeCheckExpression_literal_eq, matchTypeErrorNoMap_typename in H. discriminate.
  - apply typeCheckExpression_call_inv in H as [H _].
    destruct expected; try reflexivity; discriminate.
Qed.

(** A checked literal is the literal itself. *)
Lemma typeCheckExpression_literal_inv expected v t k e' :
  typeCheckExpression expected (Literal v t k) = Ok (Checked e') ->
  e' = Literal v t k /\ matchTypeErrorNoMap expected t = Ok None.
Proof.
  rewrite typeCheckExpression_literal_eq; intros H. apply bind_Ok in H as (err & Hm & H).
  destruct err; inversion H; subst. split; [reflexivity | assumption].
Qed.

(** ** More fuel does not change a match *)

Lemma bind_not_OutOfFuel {A B : Type} (c : outcome A) (f : A -> outcome B) :
  bind c f <> OutOfFuel -> c <> OutOfFuel.
Proof. destruct c; simpl; congruence. Qed.

Lemma bind_stable {A B : Type} (c c' : outcome A) (f f' : A -> outcome B) :
  stable c c' -> (forall a, stable (f a) (f' a)) -> stable (bind c f) (bind c' f').
Proof.
  intros Hc Hf H. rewrite (Hc (bind_not_OutOfFuel _ _ H)).
  destruct c; simpl in *; try reflexivity. apply Hf. exact H.
Qed.

Lemma stable_refl {A : Type} (c : outcome A) : stable c c.
Proof. intros _. reflexivity. Qed.

Lemma matchMembers_stable
    (rec rec' : Ty -> Ty -> option tmap -> outcome (option string * option tmap))
    (t : Ty) (m : option tmap) (o o' : outcome (option string * option tmap)) (ms : list Ty) :
  (forall a b n, stable (rec a b n) (rec' a b n)) -> stable o o' ->
  stable (matchMembers rec t m o ms) (matchMembers rec' t m o' ms).
Proof.
  intros Hrec Ho. induction ms as [| a ms IH]; simpl; [exact Ho |].
  apply bind_stable; [apply Hrec |]. intros [[msg |] names]; [exact IH | apply stable_refl].
Qed.

Lemma someMismatch_stable
    (rec rec' : Ty -> Ty -> option tmap -> outcome (option string * option tmap))
    (expected : Ty) (ms : list Ty) :
  (forall a b n, stable (rec a b n) (rec' a b n)) ->
  stable (someMismatch rec expected ms) (someMismatch rec' expected ms).
Proof.
  intros Hrec. induction ms as [| a ms IH]; simpl; [apply stable_refl |].
  apply bind_stable; [apply Hrec |]. intros [[msg |] names]; [apply stable_refl | exact IH].
Qed.

(** A match that returns or throws with some fuel does the same with any
    larger fuel. *)
Lemma matchTypeError_more_fuel (n : nat) :
  forall n' expected t m, (n <= n')%nat ->
    stable (matchTypeError n expected t m) (matchTypeError n' expected t m).
Proof.
  induction n as [| n IH]; intros n' expected t m Hle;
    [intros H; exfalso; apply H; reflexivity |].
  destruct n' as [| n']; [lia |].
  assert (forall a b k, stable (matchTypeError n a b k) (matchTypeError n' a b k)) as Hrec
    by (intros; apply IH; lia).
  cbn -[matchMembers someMismatch bind].
  repeat first
    [ apply stable_refl
    | apply matchMembers_stable; [exact Hrec |]
    | apply bind_stable; [apply Hrec | intros [[?|] ?]]
    | apply bind_stable; [apply someMismatch_stable; exact Hrec | intros ?]
    | match goal with
      | |- stable (match ?x with _ => _ end) _ => destruct x
      | |- stable (if ?x then _ else _) _ => destruct x
      end ].
Qed.

(** ** What the checker keeps of an expression *)

Lemma checked_arguments (R : TypedExpression -> TypedExpression -> Prop) args rs cs :
  Forall (fun arg => forall t r, typeCheckExpression t arg = Ok (Checked r) -> R arg r) args ->
  Forall3 (fun arg t r => typeCheckExpression t arg = Ok (Checked r)) args rs cs ->
  Forall2 R args cs.
Proof.
  intros HP HF. induction HF as [| arg t r args rs cs Hc HF IH].
  - constructor.
  - inversion HP; subst. constructor; [eauto | apply IH; assumption].
Qed.

Lemma Forall2_existsb {A : Type} (f : A -> bool) (l l' : list A) :
  Forall2 (fun a b => f b = f a) l l' -> existsb f l' = existsb f l.
Proof. induction 1 as [| a b l l' H _ IH]; simpl; [reflexivity | now rewrite H, IH]. Qed.

Lemma Forall2_map_eq {A B : Type} (f : A -> B) (l l' : list A) :
  Forall2 (fun a b => f b = f a) l l' -> map f l' = map f l.
Proof. induction 1 as [| a b l l' H _ IH]; simpl; [reflexivity | now rewrite H, IH]. Qed.

(** Checking keeps the operators of an expression. *)
Lemma typeCheckExpression_mentions (p : string -> bool) (e : TypedExpression) :
  forall expected e', typeCheckExpression expected e = Ok (Checked e') ->
    mentions p e' = mentions p e.
Proof.
  induction e as [v t k | name t args k IH] using TypedExpression_nested_ind;
    intros expected e' H.
  - apply typeCheckExpression_literal_inv in H as [-> _]. reflexivity.
  - apply typeCheckExpression_call_inv in H as (_ & rs & cs & -> & HF).
    simpl. f_equal. apply Forall2_existsb.
    apply (checked_arguments (fun a b => mentions p b = mentions p a) args rs cs); [| exact HF].
    eapply Forall_impl; [exact IH |]. simpl. eauto.
Qed.

(** Checking keeps the height of an expression. *)
Lemma typeCheckExpression_height (e : TypedExpression) :
  forall expected e', typeCheckExpression expected e = Ok (Checked e') ->
    height e' = height e.
Proof.
  induction e as [v t k | name t args k IH] using TypedExpression_nested_ind;
    intros expected e' H.
  - apply typeCheckExpression_literal_inv in H as [-> _]. reflexivity.
  - apply typeCheckExpression_call_inv in H as (_ & rs & cs & -> & HF).
    simpl. do 2 f_equal. apply Forall2_map_eq.
    apply (checked_arguments (fun a b => height b = height a) args rs cs); [| exact HF].
    eapply Forall_impl; [exact IH |]. simpl. eauto.
Qed.

Lemma constant_mentions (p : string -> bool) (e : TypedExpression) :
  constant p e = negb (mentions p e).
Proof.
  induction e as [v t k | name t args k IH] using TypedExpression_nested_ind; [reflexivity |].
  simpl. rewrite negb_orb, andb_comm. f_equal.
  induction IH as [| a l Ha _ IHl]; simpl; [reflexivity |].
  rewrite negb_orb, Ha, IHl. reflexivity.
Qed.

Lemma matchMembers_no_match
    (rec : Ty -> Ty -> option tmap -> outcome (option string * option tmap))
    (t : Ty) (otherwise : outcome (option string * option tmap)) (members : list Ty) :
  (forall m r, rec m t None <> Ok (None, r)) ->
  (forall r, otherwise <> Ok (None, r)) ->
  forall r, matchMembers rec t None otherwise members <> Ok (None, r).
Proof.
  intros Hrec Hother r. induction members as [| m ms IH]; simpl; [apply Hother |].
  intros H. apply bind_Ok in H as ([err names] & Hm & H).
  destruct err; [exact (IH H) | exact (Hrec _ _ Hm)].
Qed.

(** A type matched without a map against an expected type is no Typename
    when the match succeeds. *)
Lemma matchTypeError_actual_not_typename (fuel : nat) :
  forall expected n r, matchTypeError fuel expected (typename n) None <> Ok (None, r).
Proof.
  induction fuel as [| fuel IH]; intros expected n r; [discriminate |].
  destruct expected; cbn -[matchMembers someMismatch]; try discriminate;
    apply matchMembers_no_match; try discriminate; intros; apply IH.
Qed.

Lemma matchTypeErrorNoMap_actual_not_typename (expected : Ty) (n : string) :
  matchTypeErrorNoMap expected (typename n) <> Ok None.
Proof.
  unfold matchTypeErrorNoMap. intros H. apply bind_Ok in H as ([err names] & Hm & H).
  inversion H; subst. exact (matchTypeError_actual_not_typename _ _ _ _ Hm).
Qed.

(** After a successful check no annotation of the tree is itself a
    Typename. *)
Lemma typeCheckExpression_annotations (e : TypedExpression) :
  forall expected e', typeCheckExpression expected e = Ok (Checked e') ->
    annotations_resolved e' = true.
Proof.
  induction e as [v t k | name t args k IH] using TypedExpression_nested_ind;
    intros expected e' H.
  - apply typeCheckExpression_literal_inv in H as [-> Hm]. simpl.
    destruct t; try reflexivity.
    exfalso. exact (matchTypeErrorNoMap_actual_not_typename expected _ Hm).
  - apply typeCheckExpression_call_inv in H as (Hres & rs & cs & -> & HF).
    simpl. rewrite Hres. simpl.
    apply andb_true_iff; split.
    + clear IH. induction HF as [| arg t' r' args rs cs Hc HF IHF]; [reflexivity |].
      simpl. rewrite (typeCheckExpression_not_typename _ _ _ Hc). exact IHF.
    + assert (Forall2 (fun _ b => annotations_resolved b = true) args cs) as H2.
      { apply (checked_arguments _ args rs cs); [| exact HF].
        eapply Forall_impl; [exact IH |]. simpl. eauto. }
      clear -H2. induction H2 as [| a b l l' Hb _ IHl]; [reflexivity |].
      simpl. rewrite Hb. exact IHl.
Qed.

(** ** The registry: what the [compile] callbacks report *)

Lemma expressions_report :
  Forall (fun kd => entry_reports (fst kd) (snd kd)) expressions.
Proof.
  unfold expressions.
  repeat (apply List.Forall_cons; [entry_reports_tac |]).
  apply List.Forall_nil.
Qed.

Lemma assoc_Forall {A : Type} (P : string * A -> Prop) (l : list (string * A)) k v :
  Forall P l -> assoc k l = Some v -> P (k, v).
Proof.
  induction 1 as [| [k' v'] l Hkv _ IH]; simpl; [discriminate |].
  destruct (String.eqb k k') eqn:E.
  - apply String.eqb_eq in E. intros [= <-]. subst. exact Hkv.
  - exact IH.
Qed.

Lemma lookup_expressions_reports (name : json) (d : Definition_) :
  lookup_expressions name = Own d -> entry_reports (js_String name) d.
Proof.
  unfold lookup_expressions. destruct (assoc _ expressions) eqn:E.
  - intros [= <-].
    exact (assoc_Forall (fun kd => entry_reports (fst kd) (snd kd)) _ _ _ expressions_report E).
  - destruct (existsb _ _); discriminate.
Qed.

(** ** The compiler driver *)

(** Which diagnostics and flags [finishCall] returns. *)
Lemma finishCall_inv e name t k cs :
  (forall l, finishCall e name t k cs = Ok (error_ l) -> l <> []) /\
  (forall c, finishCall e name t k cs = Ok (success c) ->
     expression c = e /\
     isFeatureConstant c =
       forallb isFeatureConstant cs && negb (feature_operator (js_String name)) /\
     isZoomConstant c =
       forallb isZoomConstant cs && negb (zoom_operator (js_String name))).
Proof.
  unfold finishCall. destruct (lookup_expressions name) as [d | |] eqn:Hd;
    [| split; discriminate | split; discriminate].
  apply lookup_expressions_reports in Hd.
  destruct (def_compile d e cs) as [out | |] eqn:Hout; simpl;
    [| split; discriminate | split; discriminate].
  destruct (Hd e cs out Hout) as [Hne Hflags].
  destruct (out_errors out) as [messages |].
  - split; [| discriminate]. intros l [= <-].
    specialize (Hne messages eq_refl). destruct messages; [congruence | discriminate].
  - destruct (Hflags eq_refl) as [-> ->].
    split; [intros l H | intros c H];
      destruct (out_js out) as [[| ? ?] |]; try discriminate;
      destruct t as [[] |]; try discriminate.
    inversion H; subst; simpl.
    repeat split;
      [destruct (feature_operator _) | destruct (zoom_operator _)];
      simpl; rewrite ?andb_true_r; reflexivity.
Qed.

(** The arguments compiled without a diagnostic: one result for each. *)
Lemma compileArgs_inv (rec : option Ty -> TypedExpression -> outcome CompileResult) :
  forall (args : list TypedExpression) tys errors cs cs',
    (forall t a l, In a args -> rec t a = Ok (error_ l) -> l <> []) ->
    compileArgs rec tys args errors cs = Ok ([], cs') ->
    errors = [] /\
    exists new, cs' = cs ++ new /\
      Forall2 (fun arg c => exists t, rec t arg = Ok (success c)) args new.
Proof.
  induction args as [| arg args IH]; intros tys errors cs cs' Hne H; simpl in H.
  - inversion H; subst. split; [reflexivity |]. exists []. rewrite app_nil_r.
    split; [reflexivity | constructor].
  - apply bind_Ok in H as ([c | errs] & Hrec & H).
    + apply IH in H as (-> & new & -> & HF); [| intros; eapply Hne; [right |]; eassumption].
      split; [reflexivity |]. exists (c :: new). rewrite <- app_assoc.
      split; [reflexivity |]. constructor; [eauto | assumption].
    + apply IH in H as (Habs & _); [| intros; eapply Hne; [right |]; eassumption].
      apply app_eq_nil in Habs as [_ ->].
      exfalso. exact (Hne _ _ _ (or_introl eq_refl) Hrec eq_refl).
Qed.

Lemma typecheck_for_errors_nonempty expected e l :
  typecheck_for expected e = Ok (Errors l) -> l <> [].
Proof.
  unfold typecheck_for. destruct (match expected with Some t => Some t | None => type_of e end);
    [apply typeCheckExpression_errors_nonempty | discriminate].
Qed.

(** The diagnostics [compile] returns are never an empty list. *)
Lemma compile_fuel_errors_nonempty (fuel : nat) :
  forall expected e l, compile_fuel fuel expected e = Ok (error_ l) -> l <> [].
Proof.
  destruct fuel as [| fuel]; intros expected e l H; simpl in H; [discriminate |].
  apply bind_Ok in H as ([[v t k | name t args k] | errs] & Hc & H).
  - discriminate.
  - apply bind_Ok in H as ([[| e0 errors] cs] & _ & H).
    + exact (proj1 (finishCall_inv _ _ _ _ _) l H).
    + inversion H; discriminate.
  - inversion H; subst. exact (typecheck_for_errors_nonempty _ _ _ Hc).
Qed.

(** A successful [compile] returns the checked expression, and flags that
    are the conjunction, over the whole checked tree, of the overrides of its
    operators. *)
Lemma compile_fuel_success (fuel : nat) :
  forall expected e c, compile_fuel fuel expected e = Ok (success c) ->
    typecheck_for expected e = Ok (Checked (expression c)) /\
    isFeatureConstant c = constant feature_operator (expression c) /\
    isZoomConstant c = constant zoom_operator (expression c).
Proof.
  induction fuel as [| fuel IH]; intros expected e c H; simpl in H; [discriminate |].
  apply bind_Ok in H as ([[v t k | name t args k] | errs] & Hc & H); [| | discriminate].
  - inversion H; subst; simpl. repeat split. exact Hc.
  - apply bind_Ok in H as ([[| e0 errors] cs] & Hargs & H); [| discriminate].
    apply (proj2 (finishCall_inv _ _ _ _ _)) in H as (He & Hf & Hz).
    apply compileArgs_inv in Hargs as (_ & new & -> & HF);
      [| intros; eapply compile_fuel_errors_nonempty; eassumption].
    rewrite He, Hf, Hz. simpl. split; [exact Hc |].
    assert (Forall2 (fun arg c' =>
              isFeatureConstant c' = constant feature_operator arg /\
              isZoomConstant c' = constant zoom_operator arg) args new) as Hflags.
    { eapply Forall2_impl; [exact HF |]. simpl. intros arg c' [t' Hs].
      apply IH in Hs as (Ht & -> & ->).
      unfold typecheck_for in Ht.
      destruct (match t' with Some t0 => Some t0 | None => type_of arg end);
        [| discriminate].
      rewrite !constant_mentions.
      rewrite !(typeCheckExpression_mentions _ _ _ _ Ht). split; reflexivity. }
    clear -Hflags. split; f_equal.
    + induction Hflags as [| a b l l' [Hb _] _ IHl]; simpl; [reflexivity | now rewrite Hb, IHl].
    + induction Hflags as [| a b l l' [_ Hb] _ IHl]; simpl; [reflexivity | now rewrite Hb, IHl].
Qed.

(** ** [compile] has enough fuel *)

Lemma compileArgs_ext (rec rec' : option Ty -> TypedExpression -> outcome CompileResult) :
  forall (args : list TypedExpression) tys errors cs,
    (forall t a, In a args -> rec t a = rec' t a) ->
    compileArgs rec tys args errors cs = compileArgs rec' tys args errors cs.
Proof.
  induction args as [| arg args IH]; intros tys errors cs Hrec; simpl; [reflexivity |].
  rewrite (Hrec _ _ (or_introl eq_refl)).
  destruct (rec' (head tys) arg) as [[c | errs] | |]; simpl; try reflexivity;
    apply IH; intros; apply Hrec; now right.
Qed.

Lemma height_argument (a : TypedExpression) (args : list TypedExpression) :
  In a args -> (height a <= list_max (map height args))%nat.
Proof.
  induction args as [| b args IH]; simpl; [tauto |].
  intros [-> | H]; [lia | specialize (IH H); lia].
Qed.

Lemma typecheck_for_height expected e e' :
  typecheck_for expected e = Ok (Checked e') -> height e' = height e.
Proof.
  unfold typecheck_for. destruct (match expected with Some t => Some t | None => type_of e end);
    [apply typeCheckExpression_height | discriminate].
Qed.

(** Fuel above the height of the expression changes nothing: [compile] never
    stops for lack of its own fuel. *)
Lemma compile_fuel_enough (n : nat) :
  forall n' expected e, (height e < n)%nat -> (height e < n')%nat ->
    compile_fuel n expected e = compile_fuel n' expected e.
Proof.
  induction n as [| n IH]; intros n' expected e Hn Hn'; [lia |].
  destruct n' as [| n']; [lia |]. simpl.
  destruct (typecheck_for expected e) as [[[v t k | name t args k] | errs] | |] eqn:Hc;
    simpl; try reflexivity.
  apply typecheck_for_height in Hc. simpl in Hc.
  rewrite (compileArgs_ext (compile_fuel n) (compile_fuel n')); [reflexivity |].
  intros t' a Ha. apply height_argument in Ha. apply IH; lia.
Qed.

Lemma compile_any_fuel (n : nat) (expected : option Ty) (e : TypedExpression) :
  (height e < n)%nat -> compile_fuel n expected e = compile expected e.
Proof. intros H. unfold compile. apply compile_fuel_enough; lia. Qed.

(** ** Parse failures are thrown, checker diagnostics are returned *)




(** ** [["+", 1, "two"]] *)

(** C2, as the code has it: the diagnostic for [["+", 1, "two"]] is not keyed
    [.2]. *)
Lemma plus_one_two_not_keyed_on_argument :
  exists errors,
    compileExpression plus_one_two = Ok (error_ errors) /\
    Forall (fun d => key d <> ".2") errors.
Proof.
  eexists. split; [reflexivity |]. repeat constructor. discriminate.
Qed.

(** C2, amended: compiling [["+", 1, "two"]] returns one compile error, with
    the message [Expected Number but found String instead.] and the key of the
    call itself, the empty string of the root. *)
Theorem plus_one_two_error :
  compileExpression plus_one_two =
    Ok (error_ [mkError EmptyString "Expected Number but found String instead."]).
Proof. reflexivity. Qed.

(** ** Too few arguments *)

(** Over a declared list without [NArgs], the first pass expands one type for
    each argument value it is given, up to the length of the list. *)
Lemma expandArgs_plain_length (k : string) (expectedArgs : list Ty) :
  forallb (fun t => negb (is_nargs t)) expectedArgs = true ->
  forall rest expanded errors m expanded' errors' m',
    expandArgs k expectedArgs rest expanded errors m = Ok (expanded', errors', m') ->
    length expanded' = (length expanded + Nat.min (length rest) (length expectedArgs))%nat.
Proof.
  induction expectedArgs as [| t ts IH]; intros Hplain rest expanded errors m
    expanded' errors' m' H.
  - destruct rest; simpl in H; inversion H; subst; simpl; lia.
  - simpl in Hplain. apply andb_true_iff in Hplain as [Ht Hts].
    destruct rest as [| arg rest]; [simpl in H; inversion H; subst; simpl; lia |].
    destruct t; try discriminate Ht; simpl in H;
      apply bind_Ok in H as ([err m1] & _ & H);
      apply (IH Hts) in H; rewrite H, length_app; simpl; lia.
Qed.

(** C3 at [["^", 1]]: the first pass stops when the argument values run out,
    so over a declared list without [NArgs] the expanded list is never longer
    than the argument list, and the test [expandedArgTypes.length !==
    argValues.length] only catches too many arguments ([["^", 1, 2, 3]]).  For
    [["^", 1]] no [Expected 2 arguments, but found 1 instead.] is reported:
    the checker returns the call annotated with one argument type, and the
    [compile] of [^] then throws on its missing second argument. *)
Theorem power_of_one_passes_the_checker :
  (forall k declared args expanded errors m m',
     forallb (fun t => negb (is_nargs t)) declared = true ->
     (length args <= length declared)%nat ->
     expandArgs k declared args [] [] m = Ok (expanded, errors, m') ->
     Nat.eqb (length expanded) (length args) = true) /\
  compileExpression (JArr [JStr "^"; JNum 1; JNum 2; JNum 3]) =
    Ok (error_ [mkError EmptyString "Expected 2 arguments, but found 3 instead."]) /\
  parseExpression EmptyString power_of_one =
    Ok (LambdaCall (JStr "^") (Some (lambda NumberType [NumberType; NumberType]))
          [Literal (LNumber 1) NumberType ".1"] EmptyString) /\
  typeCheckExpression (lambda NumberType [NumberType; NumberType])
    (LambdaCall (JStr "^") (Some (lambda NumberType [NumberType; NumberType]))
       [Literal (LNumber 1) NumberType ".1"] EmptyString) =
    Ok (Checked (LambdaCall (JStr "^") (Some (lambda NumberType [NumberType]))
                   [Literal (LNumber 1) NumberType ".1"] EmptyString)) /\
  compileExpression power_of_one = Throw TypeError.
Proof.
  repeat split; try reflexivity.
  intros k declared args expanded errors m m' Hplain Hlen H.
  apply (expandArgs_plain_length k declared Hplain) in H.
  apply Nat.eqb_eq. simpl in H. lia.
Qed.

(** ** Constancy flags *)

Lemma compileExpression_success (expr : json) (c : CompiledExpression) :
  compileExpression expr = Ok (success c) ->
  exists parsed, parseExpression EmptyString expr = Ok parsed /\
    compile_fuel (S (height parsed)) None parsed = Ok (success c).
Proof.
  unfold compileExpression, compile. intros H.
  apply bind_Ok in H as (parsed & Hp & H). eauto.
Qed.

(** C4: for every expression that compiles, each flag is the conjunction,
    node by node over the checked tree, of the flags of the arguments and of
    the override of the node's operator; so [isFeatureConstant] is false
    exactly when the tree mentions [properties], [geometry_type] or [id], and
    [isZoomConstant] is false exactly when it mentions [zoom]. *)
Theorem constancy_flags (expr : json) (c : CompiledExpression) :
  compileExpression expr = Ok (success c) ->
  isFeatureConstant c = constant feature_operator (expression c) /\
  isZoomConstant c = constant zoom_operator (expression c) /\
  (isFeatureConstant c = false <-> mentions feature_operator (expression c) = true) /\
  (isZoomConstant c = false <-> mentions zoom_operator (expression c) = true).
Proof.
  intros H. apply compileExpression_success in H as (parsed & _ & H).
  apply compile_fuel_success in H as (_ & Hf & Hz).
  rewrite Hf, Hz, !constant_mentions.
  repeat split; try (intros E; apply negb_false_iff; exact E);
    intros E; apply negb_false_iff in E; exact E.
Qed.

(** A [get] through [properties] compiles and is not feature constant. *)
Lemma constancy_flags_witness :
  compileExpression get_property_x = Ok (success get_property_x_compiled) /\
  (isFeatureConstant get_property_x_compiled = false <->
   mentions feature_operator (expression get_property_x_compiled) = true).
Proof.
  assert (compileExpression get_property_x = Ok (success get_property_x_compiled))
    as H by reflexivity.
  split; [exact H |].
  exact (proj1 (proj2 (proj2 (constancy_flags _ _ H)))).
Defined.

(** ** Generic resolution *)

(** C5, as the code has it: [["length", "abc"]] compiles, and the argument
    type of its checked call still holds the Typename [T] of the declared
    [(Vector<T> | String)]. *)
Lemma length_keeps_its_typename :
  exists c,
    compileExpression length_of_abc = Ok (success c) /\
    expression c =
      LambdaCall (JStr "length")
        (Some (lambda NumberType [variant [vector (typename "T"); StringType]]))
        [Literal (LString "abc") StringType ".1"] EmptyString /\
    typename_remains (expression c) = true.
Proof. eexists. repeat split; reflexivity. Qed.

(** C5, amended: for every expression that compiles, no annotation of the
    checked tree is itself a Typename: a literal's type is not one, and every
    call is annotated with a lambda whose result type and argument types are
    not; a call expected to return a Typename does not check ([Could not
    resolve ...]).  A Typename may remain inside a Vector, array or Variant
    argument type. *)
Theorem annotations_are_resolved :
  (forall expr c, compileExpression expr = Ok (success c) ->
     annotations_resolved (expression c) = true) /\
  (forall n name t arguments k,
     typeCheckExpression (typename n) (LambdaCall name (Some t) arguments k) =
     Ok (Errors [mkError k (could_not_resolve (typename n)
                              (LambdaCall name (Some t) arguments k))])).
Proof.
  split.
  - intros expr c H. apply compileExpression_success in H as (parsed & _ & H).
    apply compile_fuel_success in H as (H & _).
    unfold typecheck_for in H. destruct (type_of parsed); [| discriminate].
    exact (typeCheckExpression_annotations _ _ _ H).
  - intros n name t arguments k. simpl. destruct t; reflexivity.
Qed.

(** The checked tree of [["length", "abc"]] has no Typename as an
    annotation. *)
Lemma annotations_are_resolved_witness :
  exists c,
    compileExpression length_of_abc = Ok (success c) /\
    annotations_resolved (expression c) = true.
Proof.
  eexists. split; [reflexivity |].
  apply (proj1 annotations_are_resolved length_of_abc). reflexivity.
Defined.

(** ** A curve with one stop *)

(** C6 at [["number", ["curve", ["step"], ["zoom"], 0, 10]]]: with one stop
    the [compile] of [curve] returns the text of the stop's thunk, [() => 10],
    as the body, without the call that [evaluateCurve] makes
    ([stopOutputs[0]()]); the body of the curve is a function expression, and
    the whole expression reads [Number] of a function. *)
Theorem one_stop_curve_body_is_a_thunk :
  (exists c,
     compileExpression one_stop_curve = Ok (success c) /\
     js c = "(Number((() => 10)))") /\
  (forall e interpolation name t arguments k input stop output value vt vk,
     expression interpolation = LambdaCall name t arguments k ->
     expression stop = Literal (LNumber value) vt vk ->
     type output = NumberType \/ type output = ColorType ->
     compile_curve e [interpolation; input; stop; output] =
       Ok (output_js ("() => " +:+ js output))).
Proof.
  split.
  - eexists. split; reflexivity.
  - intros e interpolation name t arguments k input stop output value vt vk Hi Hs Ht.
    unfold compile_curve. simpl. rewrite Hi.
    assert ((if Ty_eqb (type output) NumberType then Some "number"
             else if Ty_eqb (type output) ColorType then Some "color" else None)
            <> None) as Hr.
    { destruct Ht as [-> | ->]; discriminate. }
    destruct (if Ty_eqb (type output) NumberType then _ else _); [| congruence].
    rewrite Hs. reflexivity.
Qed.

(** ** Property access at run time *)

(** [get] on an object: the value read through the prototype chain when the
    key is [in] the object, the missing-key error when it is not. *)
Lemma get_object (class : ObjClass) own proto (key : string) :
  get (VObject class own proto) key =
  if js_in key (VObject class own proto)
  then Ok (js_read (VObject class own proto) key)
  else Throw (not_found key (VObject class own proto)).
Proof. unfold get. simpl truthy. cbv iota beta. simpl negb at 1. cbv iota. destruct (js_in _ _); reflexivity. Qed.

(** C9: the body compiled for [["get", ["properties"], "missing"]] is
    [this.get((this.asObject(props)), "missing")]; on a feature whose
    [properties] is [{}] (or absent, which [props] defaults to [{}]) it throws
    the [RuntimeError] named [ExpressionEvaluationError] with the message
    [Property missing not found in object with keys: []]; and [get] throws the
    same error, with the key asked for and the keys the object has, for any
    object and any key that is not [in] it. *)
Theorem get_missing_property :
  (exists c,
     compileExpression get_missing = Ok (success c) /\
     js c = "(this.get((this.asObject(props)), " +:+ dq +:+ "missing" +:+ dq +:+ "))") /\
  evaluate_get_properties emptyObject "missing" =
    Throw (RuntimeError "ExpressionEvaluationError"
             "Property missing not found in object with keys: []") /\
  evaluate_get_properties VUndefined "missing" =
    Throw (RuntimeError "ExpressionEvaluationError"
             "Property missing not found in object with keys: []") /\
  toJSON (RuntimeError "ExpressionEvaluationError"
            "Property missing not found in object with keys: []") =
    "ExpressionEvaluationError: Property missing not found in object with keys: []" /\
  (forall class own proto key,
     js_in key (VObject class own proto) = false ->
     get (VObject class own proto) key =
     Throw (RuntimeError "ExpressionEvaluationError"
              ("Property " +:+ key +:+ " not found in object with keys: [" +:+
               join "," (Object_keys (VObject class own proto)) +:+ "]"))) /\
  (forall own proto key,
     js_in key (VObject PlainObject own proto) = false ->
     evaluate_get_properties (VObject PlainObject own proto) key =
     Throw (not_found key (VObject PlainObject own proto))).
Proof.
  repeat split; try reflexivity.
  - eexists. split; reflexivity.
  - intros class own proto key H. rewrite get_object, H. reflexivity.
  - intros own proto key H. unfold evaluate_get_properties, props_of, asObject.
    simpl truthy. cbv iota. simpl. rewrite get_object, H. reflexivity.
Qed.

(** An object with the keys [a] and [b], asked for [c]. *)
Lemma get_missing_property_witness :
  evaluate_get_properties (object_literal [("a", VNull); ("b", VNull)]) "c" =
  Throw (RuntimeError "ExpressionEvaluationError"
           "Property c not found in object with keys: [a,b]").
Proof.
  apply (proj2 (proj2 (proj2 (proj2 (proj2 get_missing_property))))).
  reflexivity.
Defined.

Lemma has_own_In (own : list (string * (bool * Value))) (k : string) :
  has_own own k = true <-> In k (map fst own).
Proof.
  unfold has_own. rewrite existsb_exists. split.
  - intros (p & Hin & Hp). apply String.eqb_eq in Hp. subst. apply in_map. exact Hin.
  - intros H. apply in_map_iff in H as (p & <- & Hin). exists p.
    split; [exact Hin | apply String.eqb_refl].
Qed.

Lemma js_in_on_chain (k : string) (o : Value) : js_in k o = true <-> on_chain k o.
Proof.
  unfold on_chain.
  induction o as [| | b | q | s | class own proto IH]; simpl;
    try (split; [discriminate | intros (own' & [] & _)]).
  rewrite orb_true_iff, has_own_In, IH. split.
  - intros [H | (own' & Hin & H)]; [exists own | exists own']; auto.
  - intros (own' & [<- | Hin] & H); [left | right]; eauto.
Qed.

(** C10, as the code has it: on the object [{hasOwnProperty: 1}] the key
    [hasOwnProperty] is an own property, and the body compiled for [has],
    [o.hasOwnProperty(k)], throws a [TypeError]: what it calls is the
    property of that name, here the number 1. *)
Lemma has_shadowed_hasOwnProperty :
  has_own [("hasOwnProperty", (true, VNumber 1))] "hasOwnProperty" = true /\
  evaluate_has (fun _ _ _ => Ok (VBoolean true)) PlainObject
    [("hasOwnProperty", (true, VNumber 1))] ObjectPrototype "hasOwnProperty" =
  Throw TypeError.
Proof. split; reflexivity. Qed.

(** C10, amended: for every key [k] the body compiled for
    [["has", ["properties"], k]] is [o.hasOwnProperty(k)]; on every object
    whose [hasOwnProperty] is the method inherited from [Object.prototype] it
    is true exactly when [k] is a key of the object's own properties,
    whatever its prototypes hold.  [get] throws its missing-key error exactly
    when [k] is a key of no object of the prototype chain, and returns what
    the chain holds otherwise.  So, on such an object, [has] is false while
    [get] returns a value exactly for the keys that are not the object's own
    but are on the chain of its prototype; [toString] on [{}] is one. *)
Theorem has_is_own_get_is_inherited :
  (forall k, exists c,
     compileExpression (has_property k) = Ok (success c) /\
     js c = "(" +:+ ("(this.asObject(props))" +:+ ".hasOwnProperty(" +:+
                     JSON_stringify (JStr k) +:+ ")") +:+ ")") /\
  (forall call_function class own proto k,
     js_read (VObject class own proto) "hasOwnProperty" = builtin "hasOwnProperty" ->
     exists b,
       evaluate_has call_function class own proto k = Ok (VBoolean b) /\
       (b = true <-> In k (map fst own))) /\
  (forall class own proto k,
     (get (VObject class own proto) k = Throw (not_found k (VObject class own proto)) <->
      ~ on_chain k (VObject class own proto)) /\
     (on_chain k (VObject class own proto) ->
      get (VObject class own proto) k = Ok (js_read (VObject class own proto) k))) /\
  (forall call_function class own proto k,
     js_read (VObject class own proto) "hasOwnProperty" = builtin "hasOwnProperty" ->
     (evaluate_has call_function class own proto k = Ok (VBoolean false) /\
      exists v, get (VObject class own proto) k = Ok v) <->
     (~ In k (map fst own) /\ on_chain k proto)) /\
  (forall call_function,
     evaluate_has call_function PlainObject [] ObjectPrototype "toString" =
       Ok (VBoolean false)) /\
  get emptyObject "toString" = Ok (builtin "toString").
Proof.
  assert (forall call_function class own proto k,
            js_read (VObject class own proto) "hasOwnProperty" = builtin "hasOwnProperty" ->
            evaluate_has call_function class own proto k = Ok (VBoolean (has_own own k)))
    as Hhas.
  { intros call_function class own proto k H. unfold evaluate_has. rewrite H. reflexivity. }
  assert (forall class own proto k,
            on_chain k (VObject class own proto) <-> In k (map fst own) \/ on_chain k proto)
    as Hchain.
  { intros class own proto k. rewrite <- !js_in_on_chain. simpl.
    rewrite orb_true_iff, has_own_In. reflexivity. }
  split; [| split; [| split; [| split; [| split]]]].
  - intros k. eexists. split; reflexivity.
  - intros call_function class own proto k H. exists (has_own own k).
    split; [exact (Hhas _ _ _ _ _ H) | apply has_own_In].
  - intros class own proto k. rewrite get_object, <- js_in_on_chain.
    destruct (js_in k (VObject class own proto)); split.
    + split; [discriminate | intros H; exfalso; exact (H eq_refl)].
    + reflexivity.
    + split; [intros _; discriminate | reflexivity].
    + discriminate.
  - intros call_function class own proto k H.
    rewrite (Hhas _ _ _ _ _ H), get_object.
    pose proof (has_own_In own k) as Hown.
    pose proof (js_in_on_chain k proto) as Hup. simpl js_in.
    destruct (has_own own k); simpl.
    + split; [intros [[=] _] | intros [Hn _]; exfalso; apply Hn, Hown; reflexivity].
    + assert (~ In k (map fst own)) as Hn by (intros Hin; apply Hown in Hin; discriminate).
      destruct (js_in k proto).
      * split; [intros _ | intros _; split; [reflexivity | eauto]].
        split; [exact Hn | apply Hup; reflexivity].
      * split; [intros [_ [v [=]]] | intros [_ Hc]; apply Hup in Hc; discriminate].
  - reflexivity.
  - reflexivity.
Qed.

(** An object that has its own [toString]: [has] is then true. *)
Lemma has_is_own_get_is_inherited_witness :
  exists b,
    evaluate_has (fun _ _ _ => Throw TypeError) PlainObject
      [("toString", (true, VString "mine"))] ObjectPrototype "toString" =
    Ok (VBoolean b) /\
    (b = true <-> In "toString" (map fst [("toString", (true, VString "mine"))])).
Proof.
  apply (proj1 (proj2 has_is_own_get_is_inherited)). reflexivity.
Defined.

(** ** The stop search *)

Local Open Scope Z_scope.

Lemma Qltb_lt (a b : Q) : Qltb a b = true <-> (a < b)%Q.
Proof.
  unfold Qltb. rewrite negb_true_iff, <- not_true_iff_false, Qle_bool_iff.
  split; [apply Qnot_le_lt | apply Qlt_not_le].
Qed.

Lemma Qltb_ge (a b : Q) : Qltb a b = false <-> (b <= a)%Q.
Proof. unfold Qltb. rewrite negb_false_iff. apply Qle_bool_iff. Qed.

Lemma Qeq_bool_false (a b : Q) : ~ (a == b)%Q -> Qeq_bool a b = false.
Proof. intros H. apply not_true_iff_false. rewrite Qeq_bool_iff. exact H. Qed.

Lemma at_index_Some {A : Type} (l : list A) (i : Z) (a : A) :
  at_index l i = Some a -> 0 <= i < Z.of_nat (length l).
Proof.
  unfold at_index. destruct (Z.ltb_spec i 0) as [Hneg | Hpos]; [discriminate |].
  intros Hi. assert (nth_error l (Z.to_nat i) <> None) as Hn by congruence.
  apply nth_error_Some in Hn. lia.
Qed.

Lemma at_index_defined {A : Type} (l : list A) (i : Z) :
  0 <= i < Z.of_nat (length l) -> exists a, at_index l i = Some a.
Proof.
  intros Hi. unfold at_index. destruct (Z.ltb_spec i 0) as [Hneg | Hpos]; [lia |].
  destruct (nth_error l (Z.to_nat i)) eqn:E; [eauto |].
  apply nth_error_None in E. lia.
Qed.

Lemma ascending_head (rest : list Q) :
  forall a, ascending (a :: rest) = true ->
    forall j b, nth_error rest j = Some b -> (a < b)%Q.
Proof.
  induction rest as [| b0 rest IH]; intros a H j b Hj; [destruct j; discriminate |].
  simpl in H. apply andb_true_iff in H as [Hab H]. apply Qltb_lt in Hab.
  destruct j as [| j]; simpl in Hj.
  - inversion Hj; subst. exact Hab.
  - apply (Qlt_trans _ b0); [exact Hab | exact (IH b0 H j b Hj)].
Qed.

Lemma ascending_tail (a : Q) (rest : list Q) :
  ascending (a :: rest) = true -> ascending rest = true.
Proof. destruct rest; simpl; [reflexivity |]. intros H. apply andb_true_iff in H. tauto. Qed.

Lemma ascending_nth (stops : list Q) :
  ascending stops = true ->
  forall i j a b, (i < j)%nat ->
    nth_error stops i = Some a -> nth_error stops j = Some b -> (a < b)%Q.
Proof.
  induction stops as [| a0 rest IH]; intros H i j a b Hij Hi Hj; [destruct i; discriminate |].
  destruct j as [| j]; [lia |]. destruct i as [| i]; simpl in Hi, Hj.
  - inversion Hi; subst. exact (ascending_head rest a H j b Hj).
  - apply (IH (ascending_tail _ _ H) i j); [lia | assumption | assumption].
Qed.

Lemma ascending_at (stops : list Q) (i j : Z) (a b : Q) :
  ascending stops = true -> i < j ->
  at_index stops i = Some a -> at_index stops j = Some b -> (a < b)%Q.
Proof.
  intros H Hij Hi Hj.
  pose proof (at_index_Some _ _ _ Hi). pose proof (at_index_Some _ _ _ Hj).
  unfold at_index in Hi, Hj.
  destruct (Z.ltb_spec i 0); [lia |]. destruct (Z.ltb_spec j 0); [lia |].
  apply (ascending_nth stops H (Z.to_nat i) (Z.to_nat j)); [lia | assumption | assumption].
Qed.

Lemma ascending_at_le (stops : list Q) (i j : Z) (a b : Q) :
  ascending stops = true -> i <= j ->
  at_index stops i = Some a -> at_index stops j = Some b -> (a <= b)%Q.
Proof.
  intros H Hij Hi Hj. destruct (Z.eq_dec i j) as [-> | Hne].
  - rewrite Hi in Hj. inversion Hj; subst. apply Qle_refl.
  - apply Qlt_le_weak. apply (ascending_at stops i j); [assumption | lia | assumption | assumption].
Qed.

Lemma half_between (l u : Z) : l <= u -> l <= (l + u) / 2 <= u.
Proof. intros H. split; [apply Z.div_le_lower_bound | apply Z.div_le_upper_bound]; lia. Qed.

Lemma findStop_loop_eq (fuel : nat) (stops : list Q) (input : Q) (l u c : Z) :
  findStop_loop (S fuel) stops input l u c =
  if l <=? u then
    if eq_ (Some input) (at_index stops ((l + u) / 2))
       || (lt_ (at_index stops ((l + u) / 2)) (Some input)
           && lt_ (Some input) (at_index stops ((l + u) / 2 + 1)))
    then Some ((l + u) / 2)
    else if lt_ (at_index stops ((l + u) / 2)) (Some input)
    then findStop_loop fuel stops input ((l + u) / 2 + 1) u ((l + u) / 2)
    else if lt_ (Some input) (at_index stops ((l + u) / 2))
    then findStop_loop fuel stops input l ((l + u) / 2 - 1) ((l + u) / 2)
    else findStop_loop fuel stops input l u ((l + u) / 2)
  else Some (Z.max (c - 1) 0).
Proof. reflexivity. Qed.

(** The loop returns the index that settles the search whenever that index
    is within its bounds. *)
Lemma findStop_loop_settles (stops : list Q) (input : Q) (i : Z) :
  ascending stops = true -> settles stops input i ->
  forall fuel l u c,
    0 <= l <= i -> i <= u < Z.of_nat (length stops) ->
    (Z.to_nat (u - l) < fuel)%nat ->
    findStop_loop fuel stops input l u c = Some i.
Proof.
  intros Hasc (k & Hk & Hin).
  induction fuel as [| fuel IH]; intros l u c Hl Hu Hfuel; [lia |].
  rewrite findStop_loop_eq. destruct (Z.leb_spec l u) as [Hlu | Hlu]; [| lia].
  pose proof (half_between l u Hlu) as Hc. set (m := (l + u) / 2) in *.
  destruct (at_index_defined stops m) as (km & Hm); [lia |]. rewrite Hm.
  assert (k <= input)%Q as Hle
    by (destruct Hin as [E | [L _]]; [rewrite E; apply Qle_refl | apply Qlt_le_weak; exact L]).
  destruct (Z.lt_trichotomy m i) as [Hlt | [-> | Hgt]].
  - (* below the index: the search goes up *)
    assert (km < k)%Q as Hkm by (apply (ascending_at stops m i); assumption).
    assert (km < input)%Q as Hlow by (eapply Qlt_le_trans; eassumption).
    assert (eq_ (Some input) (Some km) = false) as ->.
    { simpl. apply Qeq_bool_false. intros E. rewrite E in Hlow. exact (Qlt_irrefl _ Hlow). }
    assert (lt_ (Some km) (Some input) = true) as -> by (apply Qltb_lt; exact Hlow).
    assert (lt_ (Some input) (at_index stops (m + 1)) = false) as ->.
    { destruct (at_index stops (m + 1)) as [ku |] eqn:Hu1; [| reflexivity].
      simpl. apply Qltb_ge. apply (Qle_trans _ k); [| exact Hle].
      apply (ascending_at_le stops (m + 1) i); [assumption | lia | assumption | assumption]. }
    simpl. apply IH; lia.
  - (* at the index *)
    rewrite Hk in Hm. inversion Hm; subst km.
    destruct Hin as [E | (L & k' & Hk' & U)].
    + assert (eq_ (Some input) (Some k) = true) as -> by (apply Qeq_bool_iff; exact E).
      reflexivity.
    + rewrite Hk'.
      assert (lt_ (Some k) (Some input) = true) as -> by (apply Qltb_lt; exact L).
      assert (lt_ (Some input) (Some k') = true) as -> by (apply Qltb_lt; exact U).
      rewrite orb_true_r. reflexivity.
  - (* above the index: the search goes down *)
    assert (input < km)%Q as Hup.
    { destruct Hin as [E | (_ & k' & Hk' & U)].
      - rewrite E. apply (ascending_at stops i m); assumption.
      - apply (Qlt_le_trans _ k'); [exact U |].
        apply (ascending_at_le stops (i + 1) m); [assumption | lia | assumption | assumption]. }
    assert (eq_ (Some input) (Some km) = false) as ->.
    { simpl. apply Qeq_bool_false. intros E. rewrite E in Hup. exact (Qlt_irrefl _ Hup). }
    assert (lt_ (Some km) (Some input) = false) as ->
      by (apply Qltb_ge; apply Qlt_le_weak; exact Hup).
    assert (lt_ (Some input) (Some km) = true) as -> by (apply Qltb_lt; exact Hup).
    simpl. apply IH; lia.
Qed.

Lemma findStop_settles (stops : list Q) (input : Q) (i : Z) :
  ascending stops = true -> settles stops input i ->
  findStopLessThanOrEqualTo stops input = Some i.
Proof.
  intros Hasc Hs. pose proof Hs as (k & Hk & _). apply at_index_Some in Hk.
  unfold findStopLessThanOrEqualTo. apply findStop_loop_settles; try assumption; lia.
Qed.

(** Below the first stop the loop goes down to index 0 and ends there. *)
Lemma findStop_loop_below (stops : list Q) (input first : Q) :
  ascending stops = true -> at_index stops 0 = Some first -> (input < first)%Q ->
  forall fuel u c,
    -1 <= u < Z.of_nat (length stops) -> (u < 0 -> c = 0) ->
    (Z.to_nat (u + 1) < fuel)%nat ->
    findStop_loop fuel stops input 0 u c = Some 0.
Proof.
  intros Hasc Hfirst Hbelow.
  induction fuel as [| fuel IH]; intros u c Hu Hc Hfuel; [lia |].
  rewrite findStop_loop_eq. destruct (Z.leb_spec 0 u) as [H0u | H0u].
  - pose proof (half_between 0 u H0u) as Hm. set (m := (0 + u) / 2) in *.
    destruct (at_index_defined stops m) as (km & Hkm); [lia |]. rewrite Hkm.
    assert (input < km)%Q as Hup.
    { apply (Qlt_le_trans _ first); [exact Hbelow |].
      apply (ascending_at_le stops 0 m); [assumption | lia | assumption | assumption]. }
    assert (eq_ (Some input) (Some km) = false) as ->.
    { simpl. apply Qeq_bool_false. intros E. rewrite E in Hup. exact (Qlt_irrefl _ Hup). }
    assert (lt_ (Some km) (Some input) = false) as ->
      by (apply Qltb_ge; apply Qlt_le_weak; exact Hup).
    assert (lt_ (Some input) (Some km) = true) as -> by (apply Qltb_lt; exact Hup).
    simpl. apply IH; lia.
  - rewrite (Hc H0u). reflexivity.
Qed.

(** Between the first and the last of ascending stops, some stop and the next
    one bracket the input. *)
Lemma bracket_exists (input : Q) (stops : list Q) :
  ascending stops = true ->
  forall first last,
    nth_error stops 0 = Some first -> nth_error stops (length stops - 1) = Some last ->
    (first <= input)%Q -> (input < last)%Q ->
    exists i k k', nth_error stops i = Some k /\ nth_error stops (S i) = Some k' /\
                   (k <= input)%Q /\ (input < k')%Q.
Proof.
  induction stops as [| a rest IH]; intros Hasc first last Hf Hl Hge Hlt; [discriminate |].
  simpl in Hf. inversion Hf; subst a.
  destruct rest as [| b rest].
  - simpl in Hl. inversion Hl; subst last.
    exfalso. exact (Qlt_irrefl _ (Qle_lt_trans _ _ _ Hge Hlt)).
  - destruct (Qlt_le_dec input b) as [Hb | Hb].
    + exists 0%nat, first, b. repeat split; assumption.
    + destruct (IH (ascending_tail _ _ Hasc) b last) as (i & k & k' & Hi & Hi' & Hk & Hk');
        [reflexivity | | assumption | assumption |].
      * simpl length in Hl |- *. replace (S (S (length rest)) - 1)%nat with
          (S (S (length rest) - 1))%nat in Hl by lia. exact Hl.
      * exists (S i), k, k'. repeat split; assumption.
Qed.

(** The search returns on every input. *)
Lemma findStop_loop_total (stops : list Q) (input : Q) :
  forall fuel l u c,
    0 <= l -> u < Z.of_nat (length stops) -> (Z.to_nat (u - l + 1) <= fuel)%nat ->
    findStop_loop fuel stops input l u c <> None.
Proof.
  induction fuel as [| fuel IH]; intros l u c Hl Hu Hfuel.
  - simpl. destruct (Z.leb_spec l u); [lia | discriminate].
  - rewrite findStop_loop_eq. destruct (Z.leb_spec l u) as [Hlu | Hlu]; [| discriminate].
    pose proof (half_between l u Hlu) as Hm. set (m := (l + u) / 2) in *.
    destruct (at_index_defined stops m) as (km & Hkm); [lia |]. rewrite Hkm.
    destruct (eq_ (Some input) (Some km)) eqn:Heq; [discriminate |].
    rewrite orb_false_l.
    destruct (lt_ (Some km) (Some input)) eqn:L.
    + destruct (lt_ (Some input) (at_index stops (m + 1))); [discriminate |].
      apply IH; lia.
    + rewrite andb_false_l.
      destruct (lt_ (Some input) (Some km)) eqn:G; [apply IH; lia |].
      (* neither below nor above: the two are equal, and the loop has returned *)
      exfalso. simpl in Heq, L, G. apply Qltb_ge in L, G.
      apply not_true_iff_false in Heq. apply Heq. apply Qeq_bool_iff.
      apply Qle_antisym; assumption.
Qed.

Lemma findStopLessThanOrEqualTo_total (stops : list Q) (input : Q) :
  findStopLessThanOrEqualTo stops input <> None.
Proof. unfold findStopLessThanOrEqualTo. apply findStop_loop_total; lia. Qed.

Lemma at_index_of_nat {A : Type} (l : list A) (i : nat) :
  at_index l (Z.of_nat i) = nth_error l i.
Proof.
  unfold at_index. destruct (Z.ltb_spec (Z.of_nat i) 0) as [Hneg | Hpos]; [lia |].
  rewrite Nat2Z.id. reflexivity.
Qed.

Lemma at_index_nth {A : Type} (l : list A) (i : Z) (a : A) :
  at_index l i = Some a -> nth_error l (Z.to_nat i) = Some a.
Proof. unfold at_index. destruct (i <? 0); [discriminate | tauto]. Qed.

(** Between the first and the last stop, some index settles the search, and
    no later stop is at most the input. *)
Lemma settles_between (stops : list Q) (input first last : Q) :
  ascending stops = true ->
  at_index stops 0 = Some first ->
  at_index stops (Z.of_nat (length stops) - 1) = Some last ->
  (first <= input)%Q -> (input < last)%Q ->
  exists i k, settles stops input i /\ at_index stops i = Some k /\ (k <= input)%Q /\
    forall j kj, at_index stops j = Some kj -> (kj <= input)%Q -> j <= i.
Proof.
  intros Hasc Hf Hl Hge Hlt.
  apply at_index_nth in Hf. pose proof (at_index_Some _ _ _ Hl) as Hn.
  apply at_index_nth in Hl.
  replace (Z.to_nat (Z.of_nat (length stops) - 1)) with (length stops - 1)%nat in Hl by lia.
  destruct (bracket_exists input stops Hasc first last Hf Hl Hge Hlt)
    as (i & k & k' & Hi & Hi' & Hk & Hk').
  rewrite <- at_index_of_nat in Hi, Hi'.
  replace (Z.of_nat (S i)) with (Z.of_nat i + 1) in Hi' by lia.
  exists (Z.of_nat i), k. repeat split; try assumption.
  - exists k. split; [assumption |].
    destruct (Qle_lt_or_eq _ _ Hk) as [L | E].
    + right. split; [exact L |]. exists k'. split; assumption.
    + left. symmetry. exact E.
  - intros j kj Hj Hkj. destruct (Z.le_gt_cases j (Z.of_nat i)) as [Hle | Hgt]; [exact Hle |].
    exfalso. apply (Qlt_irrefl input). apply (Qlt_le_trans _ k'); [exact Hk' |].
    apply (Qle_trans _ kj); [| exact Hkj].
    apply (ascending_at_le stops (Z.of_nat i + 1) j); [assumption | lia | assumption | assumption].
Qed.

(** C7: on stop inputs in strictly ascending order, for an input strictly
    between the first and the last stop, [findStopLessThanOrEqualTo] returns
    the index of the largest stop that is at most the input; on an input equal
    to a stop it returns that stop's index; on an input below the first stop
    it returns 0. *)
Theorem findStop_largest_at_most (stops : list Q) (input : Q) :
  ascending stops = true ->
  (forall first last,
     at_index stops 0 = Some first ->
     at_index stops (Z.of_nat (length stops) - 1) = Some last ->
     (first < input)%Q -> (input < last)%Q ->
     exists i k,
       findStopLessThanOrEqualTo stops input = Some i /\
       at_index stops i = Some k /\ (k <= input)%Q /\
       forall j kj, at_index stops j = Some kj -> (kj <= input)%Q -> j <= i) /\
  (forall i k, at_index stops i = Some k -> (input == k)%Q ->
     findStopLessThanOrEqualTo stops input = Some i) /\
  (forall first, at_index stops 0 = Some first -> (input < first)%Q ->
     findStopLessThanOrEqualTo stops input = Some 0).
Proof.
  intros Hasc. repeat split.
  - intros first last Hf Hl Hgt Hlt.
    destruct (settles_between stops input first last Hasc Hf Hl (Qlt_le_weak _ _ Hgt) Hlt)
      as (i & k & Hs & Hi & Hk & Hmax).
    exists i, k. repeat split; try assumption.
    apply findStop_settles; assumption.
  - intros i k Hi E. apply findStop_settles; [assumption |].
    exists k. split; [assumption | left; exact E].
  - intros first Hf Hlt. pose proof (at_index_Some _ _ _ Hf).
    unfold findStopLessThanOrEqualTo.
    apply (findStop_loop_below stops input first); try assumption; lia.
Qed.

(** Four stops and an input between the second and the third. *)
Lemma findStop_largest_at_most_witness :
  exists i k,
    findStopLessThanOrEqualTo four_stops 15 = Some i /\
    at_index four_stops i = Some k /\ (k <= 15)%Q /\
    forall j kj, at_index four_stops j = Some kj -> (kj <= 15)%Q -> j <= i.
Proof.
  apply (proj1 (findStop_largest_at_most four_stops 15 eq_refl) 0%Q 30%Q);
    reflexivity.
Defined.

(** ** The interpolation factor *)

Lemma Qle_bool_false (a b : Q) : (b < a)%Q -> Qle_bool a b = false.
Proof. intros H. apply Qltb_lt in H. unfold Qltb in H. apply negb_true_iff in H. exact H. Qed.

(** C8: for a stop pair [lower < upper] of ascending stops and an input
    strictly in between, [interpolationFactor] is [(input - lower) / (upper -
    lower)] for base 1 and [(base^(input - lower) - 1) / (base^(upper - lower)
    - 1)] for any other base, and it is the factor at which [evaluateCurve]
    interpolates the outputs of that pair, with base 1 for [linear] and the
    given base for [exponential]. *)
Theorem curve_interpolation_factor
    (pow : Q -> Q -> Q)
    (interpolate : ResultType -> Value -> Value -> option Q -> outcome Value)
    (parseColor : Value -> Value) (text_of : Value -> string)
    (stops : list Q) (outputs : list (unit -> outcome Value)) (resultType : ResultType)
    (input : Q) (i : Z) (lower upper : Q) :
  ascending stops = true ->
  at_index stops i = Some lower -> at_index stops (i + 1) = Some upper ->
  (lower < input)%Q -> (input < upper)%Q ->
  (forall base, Qeq_bool base 1 = true ->
     interpolationFactor pow input base lower upper =
       ((input - lower) / (upper - lower))%Q) /\
  (forall base, Qeq_bool base 1 = false ->
     interpolationFactor pow input base lower upper =
       ((pow base (input - lower) - 1) / (pow base (upper - lower) - 1))%Q) /\
  evaluateCurve pow interpolate parseColor text_of input stops outputs linear resultType =
    Some (interpolateOutputs interpolate parseColor text_of outputs resultType i
            (Some ((input - lower) / (upper - lower))%Q)) /\
  (forall base, Qeq_bool base 1 = false ->
     evaluateCurve pow interpolate parseColor text_of input stops outputs
       (exponential base) resultType =
     Some (interpolateOutputs interpolate parseColor text_of outputs resultType i
             (Some ((pow base (input - lower) - 1) / (pow base (upper - lower) - 1))%Q))).
Proof.
  intros Hasc Hlo Hup Hgt Hlt.
  assert (forall base, Qeq_bool base 1 = true ->
            interpolationFactor pow input base lower upper =
              ((input - lower) / (upper - lower))%Q) as Hlinear
    by (intros base E; unfold interpolationFactor; rewrite E; reflexivity).
  assert (forall base, Qeq_bool base 1 = false ->
            interpolationFactor pow input base lower upper =
              ((pow base (input - lower) - 1) / (pow base (upper - lower) - 1))%Q)
    as Hexponential
    by (intros base E; unfold interpolationFactor; rewrite E; reflexivity).
  pose proof (at_index_Some _ _ _ Hlo) as Hi. pose proof (at_index_Some _ _ _ Hup) as Hi'.
  destruct (at_index_defined stops 0) as (first & Hfirst); [lia |].
  destruct (at_index_defined stops (Z.of_nat (length stops) - 1)) as (last & Hlast); [lia |].
  assert (findStopLessThanOrEqualTo stops input = Some i) as Hfind.
  { apply findStop_settles; [assumption |]. exists lower. split; [assumption |].
    right. split; [assumption |]. exists upper. split; assumption. }
  assert (forall interpolation,
            evaluateCurve pow interpolate parseColor text_of input stops outputs
              interpolation resultType =
            Some match interpolation with
                 | step => call_output outputs i
                 | _ => interpolateOutputs interpolate parseColor text_of outputs resultType i
                          (Some (interpolationFactor pow input
                                   (match interpolation with exponential b => b | _ => 1%Q end)
                                   lower upper))
                 end) as Hcurve.
  { intros interpolation. unfold evaluateCurve. rewrite Hfirst, Hlast, Hfind.
    assert (le_ (Some input) (Some first) = false) as ->.
    { apply Qle_bool_false. apply (Qle_lt_trans _ lower); [| exact Hgt].
      apply (ascending_at_le stops 0 i); [assumption | lia | assumption | assumption]. }
    assert (le_ (Some last) (Some input) = false) as ->.
    { apply Qle_bool_false. apply (Qlt_le_trans _ upper); [exact Hlt |].
      apply (ascending_at_le stops (i + 1) (Z.of_nat (length stops) - 1));
        [assumption | lia | assumption | assumption]. }
    simpl. rewrite Hlo, Hup. destruct interpolation; reflexivity. }
  repeat split.
  - exact Hlinear.
  - exact Hexponential.
  - rewrite Hcurve, (Hlinear 1%Q eq_refl). reflexivity.
  - intros base E. rewrite Hcurve, (Hexponential base E). reflexivity.
Qed.

(** Two stops, 0 and 10, and the input 5: the factor of the linear curve. *)
Lemma curve_interpolation_factor_witness :
  evaluateCurve (fun _ _ => 1%Q) factor_as_value (fun v => v) (fun _ => EmptyString)
    5 [0; 10]%Q [fun _ => Ok (VNumber 0); fun _ => Ok (VNumber 100)] linear number_result =
  Some (Ok (VNumber ((5 - 0) / (10 - 0)))).
Proof.
  exact (proj1 (proj2 (proj2
    (curve_interpolation_factor (fun _ _ => 1%Q) factor_as_value (fun v => v)
       (fun _ => EmptyString) [0; 10]%Q
       [fun _ => Ok (VNumber 0); fun _ => Ok (VNumber 100)] number_result
       5 0 0 10 eq_refl eq_refl eq_refl eq_refl eq_refl)))).
Defined.

(** * Further properties *)

(** ** The stop search outside the stops *)

(** Above every stop the loop goes up to the last index and ends there, one
    past it. *)
Lemma findStop_loop_above (stops : list Q) (input : Q) :
  Forall (fun k => (k < input)%Q) stops ->
  forall fuel l c,
    0 <= l <= Z.of_nat (length stops) ->
    (l = Z.of_nat (length stops) -> Z.max (c - 1) 0 = Z.max (l - 2) 0) ->
    (Z.to_nat (Z.of_nat (length stops) - l) < fuel)%nat ->
    findStop_loop fuel stops input l (Z.of_nat (length stops) - 1) c =
      Some (Z.max (Z.of_nat (length stops) - 2) 0).
Proof.
  intros Hall. set (n := Z.of_nat (length stops)).
  induction fuel as [| fuel IH]; intros l c Hl Hc Hfuel; [lia |].
  rewrite findStop_loop_eq. destruct (Z.leb_spec l (n - 1)) as [Hlu | Hlu].
  - pose proof (half_between l (n - 1) Hlu) as Hm. set (m := (l + (n - 1)) / 2) in *.
    destruct (at_index_defined stops m) as (km & Hkm); [lia |]. rewrite Hkm.
    assert (forall i k, at_index stops i = Some k -> (k < input)%Q) as Hbelow.
    { intros i k Hi. apply at_index_nth in Hi. apply nth_error_In in Hi.
      rewrite List.Forall_forall in Hall. exact (Hall k Hi). }
    pose proof (Hbelow m km Hkm) as Hlow.
    assert (eq_ (Some input) (Some km) = false) as ->.
    { simpl. apply Qeq_bool_false. intros E. rewrite E in Hlow. exact (Qlt_irrefl _ Hlow). }
    assert (lt_ (Some km) (Some input) = true) as -> by (apply Qltb_lt; exact Hlow).
    assert (lt_ (Some input) (at_index stops (m + 1)) = false) as ->.
    { destruct (at_index stops (m + 1)) as [ku |] eqn:Hu1; [| reflexivity].
      simpl. apply Qltb_ge. apply Qlt_le_weak. exact (Hbelow _ _ Hu1). }
    simpl. apply IH; lia.
  - assert (l = n) as Hn by lia. rewrite (Hc Hn), Hn. reflexivity.
Qed.

(** X1: on an input above every stop, [findStopLessThanOrEqualTo] returns the
    index before the last one, [n - 2] for [n] stops (0 when there are fewer
    than two): the loop ends one past the last index and [currentIndex - 1] is
    returned.  The stops need not be in order.  [evaluateCurve] does not get
    there: it returns the last output first. *)
Theorem findStop_above_every_stop (stops : list Q) (input : Q) :
  Forall (fun k => (k < input)%Q) stops ->
  findStopLessThanOrEqualTo stops input = Some (Z.max (Z.of_nat (length stops) - 2) 0).
Proof.
  intros Hall. unfold findStopLessThanOrEqualTo.
  apply findStop_loop_above; [assumption | lia | intros _; reflexivity | lia].
Qed.

(** Four stops, the last of them 30, and the input 40: index 2. *)
Lemma findStop_above_every_stop_witness :
  findStopLessThanOrEqualTo four_stops 40 = Some 2.
Proof.
  apply (findStop_above_every_stop four_stops 40).
  repeat constructor.
Defined.

(** ** The linear factor *)




(** ** The ends of a curve, and its steps *)



Local Close Scope Z_scope.

(** ** Conversions, and what [typeOf] says of their results *)

(** X4: [asArray] returns its argument, and only an array, whose [typeOf] is
    [Vector<Value>]; [asObject] returns its argument, which may be a plain
    object, an array or a [Color]: its [typeOf] is [Object], [Vector<Value>]
    or [Color], and every array passes [asObject]; [typeOf] answers [Null]
    for [null] alone. *)
Theorem conversions_and_typeOf :
  (forall v v', asArray v = Ok v' -> v' = v /\ typeOf v' = "Vector<Value>") /\
  (forall v v', asObject v = Ok v' ->
     v' = v /\ In (typeOf v') ["Object"; "Vector<Value>"; "Color"]) /\
  (forall items,
     asObject (array_literal items) = Ok (array_literal items) /\
     typeOf (array_literal items) = "Vector<Value>") /\
  (forall v, typeOf v = "Null" <-> v = VNull).
Proof.
  split; [| split; [| split]].
  - intros v v' H. unfold asArray in H. destruct (isArray v) eqn:E; inversion H; subst.
    split; [reflexivity |]. unfold typeOf. rewrite E. reflexivity.
  - intros v v' H. unfold asObject in H.
    destruct (truthy v && typeof_object v) eqn:E; inversion H; subst; clear H.
    split; [reflexivity |].
    apply andb_true_iff in E as [Ht Ho].
    destruct v' as [| | b | q | s | [| | f] own proto]; try discriminate.
    + unfold typeOf. simpl isArray. cbv iota.
      destruct (instanceof_Color _); simpl; tauto.
    + simpl. tauto.
  - intros items. split; reflexivity.
  - intros v. split; [| intros ->; reflexivity].
    intros H. unfold typeOf in H.
    destruct (isArray v); [discriminate |].
    destruct v as [| | b | q | s | c own proto]; try reflexivity;
      try (destruct (instanceof_Color _); try discriminate H);
      try (simpl in H; discriminate H).
    destruct c; simpl in H; discriminate H.
Qed.

(** X5: whatever the value and the key, a failure of [get] on the result of
    [asObject] is a [RuntimeError], named [ExpressionEvaluationError], which
    [toJSON] writes as [ExpressionEvaluationError: message]; the [TypeError]
    of [key in obj] on a value that is no object is not met. *)
Theorem get_after_asObject (v : Value) (key : string) (e : JsError) :
  bind (asObject v) (fun o => get o key) = Throw e ->
  exists message,
    e = RuntimeError "ExpressionEvaluationError" message /\
    toJSON e = "ExpressionEvaluationError: " +:+ message.
Proof.
  unfold asObject. destruct (truthy v && typeof_object v) eqn:E; simpl.
  - apply andb_true_iff in E as [Ht Ho].
    destruct v as [| | b | q | s | c own proto]; try discriminate.
    rewrite get_object. destruct (js_in _ _); [discriminate |].
    intros [= <-]. eexists. split; reflexivity.
  - intros [= <-]. eexists. split; reflexivity.
Qed.

(** The number 1 is no object. *)
Lemma get_after_asObject_witness :
  exists message,
    RuntimeError "ExpressionEvaluationError" "Expected an object" =
      RuntimeError "ExpressionEvaluationError" message /\
    toJSON (RuntimeError "ExpressionEvaluationError" "Expected an object") =
      "ExpressionEvaluationError: " +:+ message.
Proof.
  apply (get_after_asObject (VNumber 1) "x"). reflexivity.
Defined.

(** X6: a value made by [color] has [typeOf] [Color] and its [value] is the
    parsed colour (the input itself when it is an array); [color] throws the
    [RuntimeError] [Could not parse color from value '...'] when [parseColor]
    gives [undefined]; [rgba] of three numbers is [rgba] of the three and 1;
    [rgba] of four or more numbers is a [Color] whose [value] is the array of
    the first three divided by 255 and of the fourth as it is. *)
Theorem colors_have_a_value (parseColor : Value -> Value) (text_of : Value -> string) :
  (forall s c, color parseColor text_of s = Ok c ->
     typeOf c = "Color" /\
     dot_value c = Ok (if isArray s then s else parseColor s)) /\
  (forall s, isArray s = false -> parseColor s = VUndefined ->
     color parseColor text_of s =
       Throw (RuntimeError "ExpressionEvaluationError"
                ("Could not parse color from value '" +:+ text_of s +:+ "'"))) /\
  (forall r g b, rgba parseColor text_of [r; g; b] = rgba parseColor text_of [r; g; b; 1%Q]) /\
  (forall r g b a rest,
     exists c, rgba parseColor text_of (r :: g :: b :: a :: rest) = Some (Ok c) /\
       typeOf c = "Color" /\
       dot_value c =
         Ok (array_literal [VNumber (r / 255); VNumber (g / 255); VNumber (b / 255);
                            VNumber a])).
Proof.
  split; [| split; [| split]].
  - intros s c H. unfold color, new_Color in H.
    destruct s as [| | b | q | s | [| | f] own proto];
      try (inversion H; subst; split; reflexivity);
      destruct (parseColor _); inversion H; subst; split; reflexivity.
  - intros s Hs Hp. unfold color, new_Color. rewrite Hp.
    destruct s as [| | b | q | s | [| | f] own proto]; try reflexivity. discriminate.
  - reflexivity.
  - intros r g b a rest. eexists. split; [reflexivity |]. split; reflexivity.
Qed.

(** ** The typename map only grows in a match *)

Lemma grows_refl (m : option tmap) : grows m m.
Proof. destruct m; simpl; [reflexivity | exact I]. Qed.

Lemma grows_trans (a b c : option tmap) : grows a b -> grows b c -> grows a c.
Proof.
  destruct a, b, c; simpl; try tauto. intros H1 H2. etrans; eassumption.
Qed.

Lemma grows_insert (m : tmap) (k : string) (t : Ty) :
  m !! k = None -> grows (Some m) (Some (<[k := t]> m)).
Proof. intros H. simpl. apply insert_subseteq. exact H. Qed.

Lemma matchMembers_grows
    (rec : Ty -> Ty -> option tmap -> outcome (option string * option tmap))
    (t : Ty) (m : option tmap) (otherwise : outcome (option string * option tmap))
    (members : list Ty) :
  (forall a b n e r, rec a b n = Ok (e, r) -> grows n r) ->
  (forall e r, otherwise = Ok (e, r) -> grows m r) ->
  forall e r, matchMembers rec t m otherwise members = Ok (e, r) -> grows m r.
Proof.
  intros Hrec Hother. induction members as [| a ms IH]; simpl; [exact Hother |].
  intros e r H. apply bind_Ok in H as ([err names] & Hm & H).
  destruct err as [msg |]; [exact (IH _ _ H) |].
  apply Hrec in Hm. inversion H; subst; clear H.
  destruct m as [m |], names as [names |]; simpl in *; try tauto.
  unfold extend in *. etrans; [| apply map_union_subseteq_l].
  etrans; [| exact Hm]. apply map_union_subseteq_l.
Qed.

(** The step of [matchTypeError] that reads or binds the actual type when it
    is a Typename. *)
Lemma resolved_grows (g : tmap) (t expected t0 : Ty) (r : option tmap) :
  match t with
  | typename tn =>
      match g !! tn with
      | Some bound => (bound, Some g)
      | None => if isGeneric expected then (t, Some g)
                else (expected, Some (<[tn := expected]> g))
      end
  | _ => (t, Some g)
  end = (t0, r) -> grows (Some g) r.
Proof.
  destruct t; try (intros [= <- <-]; apply grows_refl).
  destruct (g !! tn) eqn:E; [intros [= <- <-]; apply grows_refl |].
  destruct (isGeneric expected); intros [= <- <-];
    [apply grows_refl | apply grows_insert; exact E].
Qed.

Lemma matchTypeError_grows (fuel : nat) :
  forall expected t m e r, matchTypeError fuel expected t m = Ok (e, r) -> grows m r.
Proof.
  induction fuel as [| fuel IH]; intros expected t m e r H; [discriminate |].
  cbn -[matchMembers someMismatch bind] in H.
  repeat match type of H with
         | Ok _ = Ok _ => inversion H; subst; clear H
         | Throw _ = Ok _ => discriminate H
         | not_valid_output _ = Ok _ => discriminate H
         | bind (matchTypeError fuel _ _ _) _ = Ok _ =>
             let Hm := fresh "Hm" in
             apply bind_Ok in H as ([? ?] & Hm & H); apply IH in Hm
         | matchMembers _ _ _ _ _ = Ok _ => idtac
         | context [match ?x with _ => _ end] => destruct x eqn:?
         | context [if ?x then _ else _] => destruct x eqn:?
         end;
    try (apply matchMembers_grows in H;
         [| intros; eapply IH; eassumption
          | clear H; intros ? ? H;
            repeat match type of H with
                   | Ok _ = Ok _ => inversion H; subst; clear H
                   | bind _ _ = Ok _ => apply bind_Ok in H as (? & _ & H)
                   | context [match ?x with _ => _ end] => destruct x eqn:?
                   end; apply grows_refl]);
    repeat match goal with
           | H : (_, _) = (_, _) |- _ => inversion H; subst; clear H
           | H : match unlambda _ with _ => _ end = (_, _) |- _ => apply resolved_grows in H
           end;
    try (apply grows_refl);
    try (apply grows_insert; assumption);
    try (eapply grows_trans; [apply grows_insert; eassumption | eassumption]);
    try (eapply grows_trans; eassumption);
    try assumption.
Qed.

(** X7: the typename map that [matchTypeError] leaves, whether the types
    match or not, holds every binding of the map it was given, with the same
    type: a match may bind a Typename that was free, and never rebinds or
    drops one. *)
Theorem matchTypeError_keeps_bindings (expected t : Ty) (m m' : tmap) (e : option string) :
  matchTypeErrorMap expected t m = Ok (e, m') ->
  m ⊆ m' /\
  (forall n bound, m !! n = Some bound -> m' !! n = Some bound).
Proof.
  intros H. assert (m ⊆ m') as Hsub.
  { unfold matchTypeErrorMap in H. apply bind_Ok in H as ([err names] & Hm & H).
    apply matchTypeError_grows in Hm. inversion H; subst; clear H.
    destruct names as [names |]; [exact Hm | reflexivity]. }
  split; [exact Hsub |].
  intros n bound Hn. exact (lookup_weaken _ _ _ _ Hn Hsub).
Qed.

(** With [T] bound to Number, matching [T] against String reports nothing
    and leaves [T] bound to Number. *)
Lemma matchTypeError_keeps_bindings_witness :
  matchTypeErrorMap (typename "T") StringType {["T" := NumberType]} =
    Ok (None, {["T" := NumberType]}) /\
  ({["T" := NumberType]} : tmap) !! "T" = Some NumberType.
Proof.
  assert (matchTypeErrorMap (typename "T") StringType {["T" := NumberType]} =
            Ok (None, {["T" := NumberType]})) as H by reflexivity.
  split; [exact H |].
  apply (proj2 (matchTypeError_keeps_bindings _ _ _ _ _ H) "T" NumberType).
  reflexivity.
Defined.

(** ** What [isGeneric] finds *)

(** X8: a type that [isGeneric] reports holds a Typename; the converse
    fails, since the walk does not enter an [any_array], a [lambda] or an
    [nargs]: an [any_array] over a Typename is not reported. *)
Theorem isGeneric_has_typename (t : Ty) :
  (isGeneric t = true -> has_typename t = true) /\
  (forall n, has_typename (anyArray (typename n)) = true /\
             isGeneric (anyArray (typename n)) = false /\
             isGeneric (lambda (typename n) []) = false /\
             isGeneric (nargs [typename n]) = false).
Proof.
  split; [| intros n; repeat split].
  induction t as [name | | i IH | i N IH | i IH | members IH | tn | types IH
                  | result args IHr IHa] using Ty_nested_ind;
    simpl; try discriminate; try assumption; try reflexivity.
  intros H. apply existsb_exists in H as (x & Hin & Hx).
  apply existsb_exists. exists x. split; [exact Hin |].
  rewrite List.Forall_forall in IH. exact (IH x Hin Hx).
Qed.

(** The type of the argument of [length]. *)
Lemma isGeneric_has_typename_witness :
  has_typename (variant [vector (typename "T"); StringType]) = true.
Proof.
  apply (proj1 (isGeneric_has_typename (variant [vector (typename "T"); StringType]))).
  reflexivity.
Defined.

(** ** A type matched against itself *)

Lemma Ty_eqb_refl (t : Ty) : Ty_eqb t t = true.
Proof.
  induction t as [name | | i IH | i N IH | i IH | members IH | tn | types IH
                  | result args IHr IHa] using Ty_nested_ind; simpl;
    try reflexivity; try assumption; try apply String.eqb_refl.
  - rewrite IH, Nat.eqb_refl. reflexivity.
  - induction IH as [| x l Hx _ IHl]; [reflexivity |]. rewrite Hx. exact IHl.
  - induction IH as [| x l Hx _ IHl]; [reflexivity |]. rewrite Hx. exact IHl.
  - rewrite IHr. simpl. induction IHa as [| x l Hx _ IHl]; [reflexivity |].
    rewrite Hx. exact IHl.
Qed.

Lemma self_matching_unlambda (t : Ty) : self_matching t = true -> unlambda t = t.
Proof. destruct t; try reflexivity. discriminate. Qed.

Lemma matchTypeError_self (t : Ty) :
  self_matching t = true ->
  forall fuel t0, unlambda t0 = t -> (type_size t <= fuel)%nat ->
    matchTypeError fuel t t0 None = Ok (None, None).
Proof.
  induction t as [name | | i IH | i N IH | i IH | members IH | tn | types IH
                  | result args IHr IHa] using Ty_nested_ind;
    intros Hs fuel t0 Ht0 Hfuel; try discriminate Hs;
    (destruct fuel as [| fuel]; [simpl in Hfuel; lia |]);
    cbn -[matchMembers someMismatch Ty_eqb]; rewrite Ht0.
  - rewrite Ty_eqb_refl. reflexivity.
  - reflexivity.
  - simpl in Hs, Hfuel.
    rewrite (IH Hs fuel i (self_matching_unlambda i Hs)) by lia. reflexivity.
  - simpl in Hs, Hfuel.
    rewrite (IH Hs fuel i (self_matching_unlambda i Hs)) by lia. simpl.
    rewrite Nat.eqb_refl. reflexivity.
  - rewrite Ty_eqb_refl. reflexivity.
Qed.

(** X9: matched without a typename map, a primitive, [Value], a variant, or
    a vector or array of such, accepts itself, and accepts a lambda whose
    result it is; an [any_array] type does not accept itself, the actual type
    having to be of kind [array]. *)
Theorem a_type_matches_itself (t t0 : Ty) :
  self_matching t = true -> unlambda t0 = t ->
  matchTypeErrorNoMap t t0 = Ok None /\
  matchTypeErrorNoMap (anyArray t) (anyArray t) =
    Ok (Some (errorMessage (anyArray t) (anyArray t))).
Proof.
  intros Hs Ht0. split; [| reflexivity].
  unfold matchTypeErrorNoMap. rewrite (matchTypeError_self t Hs _ t0 Ht0); [reflexivity |].
  unfold match_fuel. lia.
Qed.

(** A vector of numbers, against a lambda that returns one. *)
Lemma a_type_matches_itself_witness :
  matchTypeErrorNoMap (vector NumberType) (lambda (vector NumberType) [StringType]) = Ok None /\
  matchTypeErrorNoMap (anyArray (vector NumberType)) (anyArray (vector NumberType)) =
    Ok (Some (errorMessage (anyArray (vector NumberType)) (anyArray (vector NumberType)))).
Proof.
  apply (a_type_matches_itself (vector NumberType) (lambda (vector NumberType) [StringType]));
    reflexivity.
Defined.

(** ** The first pass of the checker *)

Lemma matchArg_Ok (t : option Ty) (arg : TypedExpression) (m : tmap) r :
  matchArg t arg m = Ok r -> exists t', t = Some t'.
Proof. destruct t; [eauto | discriminate]. Qed.

Lemma consume_groups (types : list Ty) (rest : list TypedExpression) :
  forall j cur committed expanded m rest' expanded' m' before,
    committed = before ++ rest -> length before = j ->
    consume types rest j cur committed expanded m = Ok (rest', expanded', m') ->
    exists n consumed,
      committed = consumed ++ rest' /\
      length consumed = (n * length types)%nat /\
      expanded' = expanded ++ concat (repeat types n).
Proof.
  induction rest as [| arg rest IH];
    intros j cur committed expanded m rest' expanded' m' before Hc Hj H; simpl in H.
  - inversion H; subst. exists 0%nat, []. simpl. rewrite !app_nil_r. repeat split.
  - apply bind_Ok in H as ([err cur'] & Hm & H).
    destruct err as [msg |].
    + inversion H; subst. exists 0%nat, []. simpl. rewrite !app_nil_r. repeat split.
    + apply matchArg_Ok in Hm as (t' & Ht').
      assert (j < length types)%nat as Hlt by (apply nth_error_Some; congruence).
      destruct (Nat.eqb_spec (S j mod length types) 0) as [Hz | Hnz].
      * assert (S j = length types) as HL.
        { destruct (Nat.eq_dec (S j) (length types)) as [E | E]; [exact E |].
          rewrite Nat.mod_small in Hz by lia. discriminate. }
        apply (IH _ _ _ _ _ _ _ _ []) in H as (n & consumed & Hr & Hlen & Hex);
          [| reflexivity | reflexivity].
        exists (S n), (before ++ arg :: consumed). repeat split.
        -- rewrite Hc, Hr, <- app_assoc. reflexivity.
        -- rewrite length_app. simpl. lia.
        -- rewrite Hex, <- app_assoc. reflexivity.
      * assert (S j mod length types = S j)%nat as Hs.
        { apply Nat.mod_small.
          destruct (Nat.eq_dec (S j) (length types)) as [E | E]; [| lia].
          rewrite E, Nat.Div0.mod_same in Hnz. contradiction. }
        rewrite Hs in H.
        apply (IH _ _ _ _ _ _ _ _ (before ++ [arg])) in H; [exact H | |].
        -- rewrite <- app_assoc. exact Hc.
        -- rewrite length_app. simpl. lia.
Qed.

(** X10: an [NArgs] slot takes whole groups only: the argument values it
    consumes are a prefix of the remaining ones whose length is a multiple of
    the length of its type list, one copy of the list is appended to the
    expanded types per group, and the values of a group left incomplete are
    handed back ([vi -= j]). *)
Theorem nargs_takes_whole_groups (types : list Ty) (rest rest' : list TypedExpression)
    (expanded expanded' : list Ty) (m m' : tmap) :
  consume types rest 0 ∅ rest expanded m = Ok (rest', expanded', m') ->
  exists n consumed,
    rest = consumed ++ rest' /\
    length consumed = (n * length types)%nat /\
    expanded' = expanded ++ concat (repeat types n).
Proof.
  intros H. exact (consume_groups _ _ _ _ _ _ _ _ _ _ [] eq_refl eq_refl H).
Qed.

(** The slot of [case], a Boolean and a [T], over [true, 1, false]: one
    group, and [false] is handed back. *)
Lemma nargs_takes_whole_groups_witness :
  exists n consumed,
    [Literal (LBoolean true) BooleanType ".1"; Literal (LNumber 1) NumberType ".2";
     Literal (LBoolean false) BooleanType ".3"] =
      consumed ++ [Literal (LBoolean false) BooleanType ".3"] /\
    length consumed = (n * length [BooleanType; typename "T"])%nat /\
    [BooleanType; typename "T"] = [] ++ concat (repeat [BooleanType; typename "T"] n).
Proof.
  apply (nargs_takes_whole_groups [BooleanType; typename "T"]
           [Literal (LBoolean true) BooleanType ".1"; Literal (LNumber 1) NumberType ".2";
            Literal (LBoolean false) BooleanType ".3"]
           [Literal (LBoolean false) BooleanType ".3"]
           [] [BooleanType; typename "T"] ∅ {["T" := NumberType]}).
  reflexivity.
Defined.

Lemma expandArgs_keys (k : string) (expectedArgs : list Ty) :
  forall rest expanded errors m expanded' errors' m',
    expandArgs k expectedArgs rest expanded errors m = Ok (expanded', errors', m') ->
    Forall (fun d => key d = k) errors -> Forall (fun d => key d = k) errors'.
Proof.
  induction expectedArgs as [| t ts IH];
    intros rest expanded errors m expanded' errors' m' H Herr.
  - destruct rest; simpl in H; inversion H; subst; exact Herr.
  - destruct rest as [| arg rest]; [simpl in H; inversion H; subst; exact Herr |].
    destruct t; simpl in H;
      try (apply bind_Ok in H as ([err m1] & _ & H);
           apply IH in H; [exact H |];
           destruct err; [apply Forall_app; split; [exact Herr | repeat constructor] | exact Herr]).
    apply bind_Ok in H as ([[rest2 expanded2] m2] & _ & H).
    apply IH in H; [exact H | exact Herr].
Qed.

(** X11: a call with more arguments than its declared type has, the
    declared list holding no [NArgs], never passes the checker: the result is
    a list of errors, all keyed on the call itself, which is either the single
    error of the result type or ends with [Expected N arguments, but found M
    instead.], [N] being the declared count and [M] the actual one. *)
Theorem too_many_arguments_are_reported (expected result : Ty) (declared : list Ty)
    (name : json) (arguments : list TypedExpression) (k : string) (r : CheckResult) :
  forallb (fun t => negb (is_nargs t)) declared = true ->
  (length declared < length arguments)%nat ->
  match expected with lambda _ a => a = declared | _ => True end ->
  typeCheckExpression expected (LambdaCall name (Some (lambda result declared)) arguments k)
    = Ok r ->
  exists errors,
    r = Errors errors /\
    Forall (fun d => key d = k) errors /\
    ((exists message, errors = [mkError k message]) \/
     last errors = Some (mkError k (arity_error (length declared) (length arguments)))).
Proof.
  intros Hplain Hlen Hexp H. simpl in H.
  apply bind_Ok in H as (ea & Hea & H).
  assert (ea = Some declared) as ->.
  { destruct expected; inversion Hea; subst; try reflexivity. }
  destruct (is_typename _).
  { inversion H; subst. eexists. split; [reflexivity |].
    split; [repeat constructor | left; eauto]. }
  apply bind_Ok in H as ([err m] & _ & H).
  destruct err as [msg |].
  { inversion H; subst. eexists. split; [reflexivity |].
    split; [repeat constructor | left; eauto]. }
  apply bind_Ok in H as ([[ex errs] m'] & Hex & H).
  destruct arguments as [| a arguments]; [simpl in Hlen; lia |].
  pose proof (expandArgs_plain_length _ _ Hplain _ _ _ _ _ _ _ Hex) as Hn.
  pose proof (expandArgs_keys _ _ _ _ _ _ _ _ _ Hex (@List.Forall_nil _ _)) as Hk.
  change (length (@nil Ty) + ?x)%nat with x in Hn. rewrite Nat.min_r in Hn by lia.
  rewrite Hn in H.
  destruct (Nat.eqb_spec (length declared) (length (a :: arguments))) as [E | _]; [lia |].
  destruct (errs ++ _) as [| d0 l0] eqn:El; [destruct errs; discriminate |].
  inversion H; subst. rewrite <- El. eexists. split; [reflexivity |]. split.
  - apply Forall_app. split; [exact Hk | repeat constructor].
  - right. apply last_snoc.
Qed.

(** The operator [^] with three numbers. *)
Lemma too_many_arguments_are_reported_witness :
  exists errors,
    Errors [mkError EmptyString "Expected 2 arguments, but found 3 instead."] = Errors errors /\
    Forall (fun d => key d = EmptyString) errors /\
    ((exists message, errors = [mkError EmptyString message]) \/
     last errors =
       Some (mkError EmptyString
               (arity_error (length [NumberType; NumberType])
                  (length [Literal (LNumber 1) NumberType ".1";
                           Literal (LNumber 2) NumberType ".2";
                           Literal (LNumber 3) NumberType ".3"])))).
Proof.
  apply (too_many_arguments_are_reported (lambda NumberType [NumberType; NumberType])
           NumberType [NumberType; NumberType] (JStr "^")
           [Literal (LNumber 1) NumberType ".1"; Literal (LNumber 2) NumberType ".2";
            Literal (LNumber 3) NumberType ".3"] EmptyString);
    [reflexivity | simpl; lia | reflexivity | reflexivity].
Defined.

(** ** What [parseExpression] returns *)

Lemma parseExpression_array (key : string) (items : list json) (parsed : TypedExpression) :
  parseExpression key (JArr items) = Ok parsed ->
  exists op rest arguments t,
    items = op :: rest /\
    parseArguments parseExpression key 0 rest = Ok arguments /\
    parsed = LambdaCall op t arguments key.
Proof.
  destruct items as [| op rest]; simpl.
  - discriminate.
  - destruct (lookup_expressions op); try discriminate; intros H;
      apply bind_Ok in H as (arguments & Ha & H); inversion H; subst; eauto 8.
Qed.

Lemma parseArguments_nth (key : string) (rest : list json) :
  forall i arguments,
    parseArguments parseExpression key i rest = Ok arguments ->
    length arguments = length rest /\
    forall j x, nth_error rest j = Some x ->
      exists a, nth_error arguments j = Some a /\
        parseExpression (key +:+ "." +:+ string_of_nat (i + j + 1)) x = Ok a.
Proof.
  induction rest as [| x rest IH]; intros i arguments H; simpl in H.
  - inversion H; subst. split; [reflexivity |]. intros [| j] y Hy; discriminate.
  - apply bind_Ok in H as (a & Ha & H). apply bind_Ok in H as (others & Ho & H).
    inversion H; subst; clear H. destruct (IH _ _ Ho) as [Hlen Hnth].
    split; [simpl; congruence |].
    intros [| j] y Hy; simpl in Hy.
    + inversion Hy; subst. exists a. split; [reflexivity |].
      replace (i + 0 + 1)%nat with (i + 1)%nat by lia. exact Ha.
    + destruct (Hnth j y Hy) as (b & Hb & Hp). exists b. split; [exact Hb |].
      replace (i + S j + 1)%nat with (S i + j + 1)%nat by lia. exact Hp.
Qed.

Lemma parseExpression_key (expr : json) (key : string) (parsed : TypedExpression) :
  parseExpression key expr = Ok parsed -> key_of parsed = key.
Proof.
  destruct expr; try (simpl; intros [= <-]; reflexivity); try discriminate.
  intros H. apply parseExpression_array in H as (op & rest & args & t & _ & _ & ->).
  reflexivity.
Qed.

Lemma parseExpression_keyed (expr : json) :
  forall key parsed, parseExpression key expr = Ok parsed -> keyed_by_path parsed.
Proof.
  induction expr as [| | b | n | s | items IH | members] using json_nested_ind;
    intros key parsed H; try (simpl in H; inversion H; subst; constructor); try discriminate.
  apply parseExpression_array in H as (op & rest & args & t & -> & Ha & ->).
  apply parseArguments_nth in Ha as [Hlen Hnth].
  inversion IH as [| ? ? _ IHrest]; subst.
  assert (forall i a, nth_error args i = Some a ->
            exists x, nth_error rest i = Some x /\
              parseExpression (key +:+ "." +:+ string_of_nat (0 + i + 1)) x = Ok a) as Hback.
  { intros i a Hi. destruct (nth_error rest i) as [x |] eqn:Hx.
    - destruct (Hnth i x Hx) as (a' & Ha' & Hp). exists x. split; [reflexivity |].
      rewrite Hi in Ha'. inversion Ha'; subst a'. exact Hp.
    - apply nth_error_None in Hx. assert (nth_error args i <> None) as Hn by congruence.
      apply nth_error_Some in Hn. lia. }
  constructor.
  - intros i a Hi. destruct (Hback i a Hi) as (x & _ & Hp).
    apply parseExpression_key in Hp. exact Hp.
  - apply List.Forall_forall. intros a Hin. apply In_nth_error in Hin as (i & Hi).
    destruct (Hback i a Hi) as (x & Hx & Hp).
    rewrite List.Forall_forall in IHrest.
    exact (IHrest x (nth_error_In _ _ Hx) _ _ Hp).
Qed.

Lemma item_text_serialized (e : TypedExpression) :
  item_text (serializeExpression e) = JSON_stringify (serializeExpression e).
Proof. destruct e as [[| s | n | b] t k | name t args k]; reflexivity. Qed.

Lemma JSON_stringify_array (items : list json) :
  JSON_stringify (JArr items) = "[" +:+ join "," (map item_text items) +:+ "]".
Proof. reflexivity. Qed.

Lemma parseExpression_text (expr : json) :
  forall key parsed, parseExpression key expr = Ok parsed ->
    stringifyExpression parsed = item_text expr.
Proof.
  unfold stringifyExpression.
  induction expr as [| | b | n | s | items IH | members] using json_nested_ind;
    intros key parsed H; try (simpl in H; inversion H; subst; reflexivity); try discriminate.
  apply parseExpression_array in H as (op & rest & args & t & -> & Ha & ->).
  inversion IH as [| ? ? _ IHrest]; subst. clear IH.
  assert (map item_text (map serializeExpression args) = map item_text rest) as Hmap.
  { clear t. revert args Ha. generalize 0%nat.
    induction rest as [| x rest IHr]; intros i args Ha; simpl in Ha.
    - inversion Ha; subst. reflexivity.
    - apply bind_Ok in Ha as (a & Hp & Ha). apply bind_Ok in Ha as (others & Ho & Ha).
      inversion Ha; subst; clear Ha. inversion IHrest as [| ? ? Hx Hrest]; subst.
      cbn [map]. f_equal.
      + rewrite item_text_serialized. exact (Hx _ _ Hp).
      + exact (IHr Hrest _ _ Ho). }
  unfold item_text at 1. cbn [serializeExpression]. rewrite !JSON_stringify_array.
  cbn [map]. rewrite Hmap. reflexivity.
Qed.

(** X12: the expression [parseExpression] returns reads back as its input:
    [stringifyExpression] of it is the text [JSON.stringify] writes for the
    input, an [undefined] anywhere in the input being written [null]. *)
Theorem parsed_expression_reads_back (key : string) (expr : json)
    (parsed : TypedExpression) :
  parseExpression key expr = Ok parsed ->
  stringifyExpression parsed = item_text expr /\
  (expr <> JUndefined -> stringifyExpression parsed = JSON_stringify expr).
Proof.
  intros H. pose proof (parseExpression_text _ _ _ H) as Ht.
  split; [exact Ht |]. intros Hne. rewrite Ht. destruct expr; try reflexivity.
  contradiction.
Qed.

(** A call with an argument that is itself a call, and one that is left
    out. *)
Lemma parsed_expression_reads_back_witness :
  stringifyExpression
    (LambdaCall (JStr "concat") (Some (lambda StringType [nargs [ValueType]]))
       [LambdaCall (JStr "zoom") (Some (lambda NumberType [])) [] ".1";
        Literal LNull NullType ".2"; Literal (LString "a") StringType ".3"] EmptyString) =
  item_text (JArr [JStr "concat"; JArr [JStr "zoom"]; JUndefined; JStr "a"]).
Proof.
  apply (proj1 (parsed_expression_reads_back EmptyString
                  (JArr [JStr "concat"; JArr [JStr "zoom"]; JUndefined; JStr "a"]) _ eq_refl)).
Defined.

(** X13: [parseExpression] keys the node it returns with the key it was
    given, and every node below by its path: the [i]-th argument, counted
    from 1, of a node keyed [k] is keyed [k.i]. *)
Theorem parsed_nodes_are_keyed_by_path (key : string) (expr : json)
    (parsed : TypedExpression) :
  parseExpression key expr = Ok parsed ->
  key_of parsed = key /\ keyed_by_path parsed.
Proof.
  intros H. split; [exact (parseExpression_key _ _ _ H) | exact (parseExpression_keyed _ _ _ H)].
Qed.

Lemma parsed_nodes_are_keyed_by_path_witness :
  key_of (LambdaCall (JStr "+") (Some (lambda NumberType [NumberType; NumberType]))
            [Literal (LNumber 1) NumberType ".1"; Literal (LString "two") StringType ".2"]
            EmptyString) = EmptyString /\
  keyed_by_path
    (LambdaCall (JStr "+") (Some (lambda NumberType [NumberType; NumberType]))
       [Literal (LNumber 1) NumberType ".1"; Literal (LString "two") StringType ".2"]
       EmptyString).
Proof.
  apply (parsed_nodes_are_keyed_by_path EmptyString plus_one_two). reflexivity.
Defined.

(** ** Operators named as a property of [Object.prototype] *)

Lemma lookup_prototype_name (op : json) :
  In (js_String op) objectPrototypeKeys -> lookup_expressions op = Inherited.
Proof.
  unfold lookup_expressions. intros H.
  repeat (destruct H as [<- | H]; [reflexivity |]). destruct H.
Qed.

(** X15: an operator named as a property every object inherits
    ([toString], [constructor], ...) passes the guard [if (!definition)] of
    [parseExpression], which returns a call without a type; [compile] then
    throws a [TypeError], reading [kind] of [undefined], where an unknown
    operator is reported as [unknown function]. *)
Theorem prototype_names_pass_the_parser (op : json) (rest : list json)
    (arguments : list TypedExpression) :
  In (js_String op) objectPrototypeKeys ->
  parseArguments parseExpression EmptyString 0 rest = Ok arguments ->
  parseExpression EmptyString (JArr (op :: rest)) =
    Ok (LambdaCall op None arguments EmptyString) /\
  compileExpression (JArr (op :: rest)) = Throw TypeError.
Proof.
  intros Hop Hargs. apply lookup_prototype_name in Hop.
  assert (parseExpression EmptyString (JArr (op :: rest)) =
            Ok (LambdaCall op None arguments EmptyString)) as Hparse.
  { simpl. rewrite Hop, Hargs. reflexivity. }
  split; [exact Hparse |].
  unfold compileExpression. rewrite Hparse. reflexivity.
Qed.

Lemma prototype_names_pass_the_parser_witness :
  parseExpression EmptyString (JArr [JStr "toString"; JNum 1]) =
    Ok (LambdaCall (JStr "toString") None [Literal (LNumber 1) NumberType ".1"] EmptyString) /\
  compileExpression (JArr [JStr "toString"; JNum 1]) = Throw TypeError.
Proof.
  apply (prototype_names_pass_the_parser (JStr "toString") [JNum 1]).
  - simpl. tauto.
  - reflexivity.
Defined.

(** ** What a successful compilation returns *)

Lemma typeCheckExpression_serialized (e : TypedExpression) :
  forall expected e', typeCheckExpression expected e = Ok (Checked e') ->
    serializeExpression e' = serializeExpression e /\ key_of e' = key_of e.
Proof.
  induction e as [v t k | name t args k IH] using TypedExpression_nested_ind;
    intros expected e' H.
  - apply typeCheckExpression_literal_inv in H as [-> _]. split; reflexivity.
  - apply typeCheckExpression_call_inv in H as (_ & rs & cs & -> & HF).
    simpl. split; [| reflexivity]. do 2 f_equal. apply Forall2_map_eq.
    apply (checked_arguments (fun a b => serializeExpression b = serializeExpression a)
             args rs cs); [| exact HF].
    eapply Forall_impl; [exact IH |]. simpl. intros a Ha t' r Hr. exact (proj1 (Ha t' r Hr)).
Qed.

Lemma Forall2_nth_error_r {A B : Type} (R : A -> B -> Prop) (l : list A) (l' : list B) :
  Forall2 R l l' ->
  forall i b, nth_error l' i = Some b -> exists a, nth_error l i = Some a /\ R a b.
Proof.
  induction 1 as [| a b0 l l' Hab _ IH]; intros [| i] b Hb; try discriminate.
  - inversion Hb; subst. exists a. split; [reflexivity | exact Hab].
  - exact (IH i b Hb).
Qed.

Lemma typeCheckExpression_keyed (e : TypedExpression) :
  forall expected e', typeCheckExpression expected e = Ok (Checked e') ->
    keyed_by_path e -> keyed_by_path e'.
Proof.
  induction e as [v t k | name t args k IH] using TypedExpression_nested_ind;
    intros expected e' H Hk.
  - apply typeCheckExpression_literal_inv in H as [-> _]. exact Hk.
  - apply typeCheckExpression_call_inv in H as (_ & rs & cs & -> & HF).
    inversion Hk as [| ? ? ? ? Hchildren Hargs]; subst.
    assert (Forall2 (fun a b => key_of b = key_of a /\ (keyed_by_path a -> keyed_by_path b))
              args cs) as H2.
    { apply (checked_arguments _ args rs cs); [| exact HF].
      eapply Forall_impl; [exact IH |]. simpl. intros a Ha t' r Hr.
      split; [exact (proj2 (typeCheckExpression_serialized a t' r Hr)) | exact (Ha t' r Hr)]. }
    clear IH HF. constructor.
    + intros i b Hb. destruct (Forall2_nth_error_r _ _ _ H2 _ _ Hb) as (a & Ha & Hkey & _).
      rewrite Hkey. exact (Hchildren i a Ha).
    + apply List.Forall_forall. intros b Hin. apply In_nth_error in Hin as (i & Hb).
      destruct (Forall2_nth_error_r _ _ _ H2 _ _ Hb) as (a & Ha & _ & Hkeyed).
      apply Hkeyed. rewrite List.Forall_forall in Hargs. exact (Hargs a (nth_error_In _ _ Ha)).
Qed.

Lemma compileExpression_checked (expr : json) (c : CompiledExpression) :
  compileExpression expr = Ok (success c) ->
  exists parsed t,
    parseExpression EmptyString expr = Ok parsed /\
    typeCheckExpression t parsed = Ok (Checked (expression c)).
Proof.
  intros H. apply compileExpression_success in H as (parsed & Hp & Hc).
  apply compile_fuel_success in Hc as (Ht & _).
  unfold typecheck_for in Ht.
  destruct (match None with Some t => Some t | None => type_of parsed end) as [t |];
    [| discriminate].
  exists parsed, t. split; assumption.
Qed.

(** X16: the [expression] of a successful compilation is the input with its
    types resolved and nothing else changed: it reads back as the text of the
    input, its root is keyed by the empty string, and every node is keyed by
    its path. *)
Theorem compiled_expression_is_the_input (expr : json) (c : CompiledExpression) :
  compileExpression expr = Ok (success c) ->
  stringifyExpression (expression c) = item_text expr /\
  key_of (expression c) = EmptyString /\
  keyed_by_path (expression c).
Proof.
  intros H. apply compileExpression_checked in H as (parsed & t & Hp & Hc).
  destruct (typeCheckExpression_serialized _ _ _ Hc) as [Hs Hk].
  split; [| split].
  - unfold stringifyExpression. rewrite Hs. exact (parseExpression_text _ _ _ Hp).
  - rewrite Hk. exact (parseExpression_key _ _ _ Hp).
  - apply (typeCheckExpression_keyed _ _ _ Hc). exact (parseExpression_keyed _ _ _ Hp).
Qed.

Lemma compiled_expression_is_the_input_witness :
  stringifyExpression (expression get_property_x_compiled) = item_text get_property_x /\
  key_of (expression get_property_x_compiled) = EmptyString /\
  keyed_by_path (expression get_property_x_compiled).
Proof.
  apply (compiled_expression_is_the_input get_property_x get_property_x_compiled).
  reflexivity.
Defined.

Lemma compile_fuel_shape (fuel : nat) expected e c :
  compile_fuel fuel expected e = Ok (success c) ->
  match expression c with
  | Literal v t _ =>
      js c = JSON_stringify (json_of_value v) /\ type c = t
  | LambdaCall name t arguments _ =>
      exists body argTypes definition,
        js c = "(" +:+ body +:+ ")" /\ body <> EmptyString /\
        t = Some (lambda (type c) argTypes) /\
        lookup_expressions name = Own definition
  end.
Proof.
  destruct fuel as [| fuel]; intros H; simpl in H; [discriminate |].
  apply bind_Ok in H as ([[v t k | name t args k] | errs] & Hc & H); [| | discriminate].
  - inversion H; subst; simpl. split; reflexivity.
  - apply bind_Ok in H as ([[| e0 errors] cs] & Hargs & H); [| discriminate].
    unfold finishCall in H.
    destruct (lookup_expressions name) as [d | |] eqn:Hd; try discriminate.
    apply bind_Ok in H as (out & _ & H).
    destruct (out_errors out); [discriminate |].
    destruct (out_js out) as [[| ch body] |]; try discriminate.
    destruct t as [[| | | | | | | | r a] |]; try discriminate.
    inversion H; subst; simpl.
    exists (String ch body), a, d.
    split; [reflexivity | split; [discriminate | split; [reflexivity | exact Hd]]].
Qed.

(** X17: in a successful compilation the result type is never a Typename;
    a literal compiles to its JSON text and keeps its type; a call compiles
    to a text in parentheses that is not empty, its operator is a registered
    one, its annotation is a lambda whose result is the result type and which
    has one argument type per argument. *)
Theorem compiled_shape (expr : json) (c : CompiledExpression) :
  compileExpression expr = Ok (success c) ->
  is_typename (type c) = false /\
  match expression c with
  | Literal v t _ =>
      js c = JSON_stringify (json_of_value v) /\ type c = t
  | LambdaCall name t arguments _ =>
      exists body argTypes definition,
        js c = "(" +:+ body +:+ ")" /\ body <> EmptyString /\
        t = Some (lambda (type c) argTypes) /\
        length argTypes = length arguments /\
        lookup_expressions name = Own definition
  end.
Proof.
  intros H.
  apply compileExpression_success in H as (parsed & Hp & Hc).
  pose proof (compile_fuel_shape _ _ _ _ Hc) as Hs.
  apply compile_fuel_success in Hc as (Ht & _).
  unfold typecheck_for in Ht.
  destruct (match None with Some t => Some t | None => type_of parsed end) as [t0 |];
    [| discriminate].
  pose proof (typeCheckExpression_annotations _ _ _ Ht) as Ha.
  destruct (expression c) as [v t k | name t args k] eqn:He.
  - destruct Hs as [Hjs Hty]. simpl in Ha.
    split; [rewrite Hty; apply negb_true_iff; exact Ha | split; [exact Hjs | exact Hty]].
  - destruct Hs as (body & a & d & Hjs & Hne & -> & Hd). simpl in Ha.
    apply andb_true_iff in Ha as [Ha _]. apply andb_true_iff in Ha as [Ha _].
    split; [apply negb_true_iff; exact Ha |].
    exists body, a, d.
    split; [exact Hjs | split; [exact Hne | split; [reflexivity | split; [| exact Hd]]]].
    destruct parsed as [v' t' k' | name' t' args' k'].
    + apply typeCheckExpression_literal_inv in Ht as [Ht _]. discriminate.
    + apply typeCheckExpression_call_inv in Ht as (_ & rs & cs & Heq & HF).
      inversion Heq; subst. clear -HF.
      induction HF; simpl; congruence.
Qed.

Lemma compiled_shape_witness :
  is_typename (type get_property_x_compiled) = false /\
  match expression get_property_x_compiled with
  | Literal v t _ =>
      js get_property_x_compiled = JSON_stringify (json_of_value v) /\
      type get_property_x_compiled = t
  | LambdaCall name t arguments _ =>
      exists body argTypes definition,
        js get_property_x_compiled = "(" +:+ body +:+ ")" /\ body <> EmptyString /\
        t = Some (lambda (type get_property_x_compiled) argTypes) /\
        length argTypes = length arguments /\
        lookup_expressions name = Own definition
  end.
Proof.
  apply (compiled_shape get_property_x get_property_x_compiled). reflexivity.
Defined.

(** ** What a failed compilation returns *)

Lemma checkArgs_errors (P : TypeError_ -> Prop)
    (rec : Ty -> TypedExpression -> outcome CheckResult) (m : tmap) :
  forall (args : list TypedExpression) (types : list Ty) errors resolved checked
         errors' resolved' checked',
    (forall t a l, In a args -> rec t a = Ok (Errors l) -> Forall P l) ->
    Forall P errors ->
    checkArgs rec m types args errors resolved checked = Ok (errors', resolved', checked') ->
    Forall P errors'.
Proof.
  induction args as [| arg args IH];
    intros types errors resolved checked errors' resolved' checked' Hrec Herr H.
  - destruct types; simpl in H; inversion H; subst. exact Herr.
  - destruct types as [| t types]; [simpl in H; inversion H; subst; exact Herr |].
    simpl in H. apply bind_Ok in H as (result & Hr & H).
    assert (forall t a l, In a args -> rec t a = Ok (Errors l) -> Forall P l) as Hrec'
      by (intros; eapply Hrec; [right |]; eassumption).
    destruct result as [r | errs].
    + destruct errors; exact (IH _ _ _ _ _ _ _ Hrec' Herr H).
    + apply (IH _ _ _ _ _ _ _ Hrec') in H; [exact H |].
      apply Forall_app. split; [exact Herr |]. exact (Hrec _ _ _ (or_introl eq_refl) Hr).
Qed.

Lemma In_keys_of_argument (a : TypedExpression) (args : list TypedExpression) (x : string) :
  In a args -> In x (keys_of a) -> In x (flat_map keys_of args).
Proof. intros Ha Hx. apply in_flat_map. exists a. split; assumption. Qed.

(** Every error of the checker is keyed on a node of the expression. *)
Lemma typeCheckExpression_error_keys (e : TypedExpression) :
  forall expected l, typeCheckExpression expected e = Ok (Errors l) ->
    Forall (fun d => In (key d) (keys_of e)) l.
Proof.
  induction e as [v t k | name t args k IH] using TypedExpression_nested_ind;
    intros expected l H.
  - rewrite typeCheckExpression_literal_eq in H. apply bind_Ok in H as (err & _ & H).
    destruct err; inversion H; subst. repeat constructor.
  - simpl in H. apply bind_Ok in H as (ea & _ & H).
    destruct (is_typename _); [inversion H; subst; repeat constructor |].
    apply bind_Ok in H as (tr & _ & H).
    apply bind_Ok in H as ([err m] & _ & H).
    destruct err; [inversion H; subst; repeat constructor |].
    apply bind_Ok in H as ([[ex errs] m'] & Hex & H).
    assert (Forall (fun d => key d = k) errs) as Hfirst.
    { destruct args as [| a args]; [inversion Hex; constructor |].
      destruct ea as [ea |]; [| discriminate].
      exact (expandArgs_keys _ _ _ _ _ _ _ _ _ Hex (@List.Forall_nil _ _)). }
    assert (forall errs', Forall (fun d => key d = k) errs' ->
              Forall (fun d => In (key d) (keys_of (LambdaCall name t args k))) errs') as Hk.
    { intros errs' Hall. eapply Forall_impl; [exact Hall |].
      simpl. intros d ->. left. reflexivity. }
    match type of H with
    | match ?errors with _ => _ end = _ =>
        assert (Forall (fun d => key d = k) errors) as Hall
          by (destruct (Nat.eqb _ _);
              [exact Hfirst | apply Forall_app; split; [exact Hfirst | repeat constructor]]);
        destruct errors as [| d0 errors0]
    end.
    + apply bind_Ok in H as ([[errs2 res] chk] & Hchk & H).
      destruct errs2; inversion H; subst.
      eapply checkArgs_errors in Hchk; [exact Hchk | | constructor].
      intros t' a l' Hin Hr. rewrite List.Forall_forall in IH.
      eapply Forall_impl; [exact (IH a Hin _ _ Hr) |].
      simpl. intros d Hd. right. exact (In_keys_of_argument _ _ _ Hin Hd).
    + inversion H; subst. exact (Hk _ Hall).
Qed.

Lemma Forall2_flat_map_eq {A B : Type} (f : A -> list B) (l l' : list A) :
  Forall2 (fun a b => f b = f a) l l' -> flat_map f l' = flat_map f l.
Proof. induction 1 as [| a b l l' H _ IH]; simpl; [reflexivity | now rewrite H, IH]. Qed.

Lemma typeCheckExpression_keys_of (e : TypedExpression) :
  forall expected e', typeCheckExpression expected e = Ok (Checked e') ->
    keys_of e' = keys_of e.
Proof.
  induction e as [v t k | name t args k IH] using TypedExpression_nested_ind;
    intros expected e' H.
  - apply typeCheckExpression_literal_inv in H as [-> _]. reflexivity.
  - apply typeCheckExpression_call_inv in H as (_ & rs & cs & -> & HF).
    simpl. f_equal. apply Forall2_flat_map_eq.
    apply (checked_arguments (fun a b => keys_of b = keys_of a) args rs cs); [| exact HF].
    eapply Forall_impl; [exact IH |]. simpl. eauto.
Qed.

Lemma compileArgs_errors (P : TypeError_ -> Prop)
    (rec : option Ty -> TypedExpression -> outcome CompileResult) :
  forall (args : list TypedExpression) tys errors cs errors' cs',
    (forall t a l, In a args -> rec t a = Ok (error_ l) -> Forall P l) ->
    Forall P errors ->
    compileArgs rec tys args errors cs = Ok (errors', cs') ->
    Forall P errors'.
Proof.
  induction args as [| arg args IH]; intros tys errors cs errors' cs' Hrec Herr H; simpl in H.
  - inversion H; subst. exact Herr.
  - apply bind_Ok in H as (r & Hr & H).
    assert (forall t a l, In a args -> rec t a = Ok (error_ l) -> Forall P l) as Hrec'
      by (intros; eapply Hrec; [right |]; eassumption).
    destruct r as [c | errs].
    + exact (IH _ _ _ _ _ Hrec' Herr H).
    + apply (IH _ _ _ _ _ Hrec') in H; [exact H |].
      apply Forall_app. split; [exact Herr |]. exact (Hrec _ _ _ (or_introl eq_refl) Hr).
Qed.

Lemma finishCall_error_keys e name t k cs l :
  finishCall e name t k cs = Ok (error_ l) -> Forall (fun d => key d = k) l.
Proof.
  unfold finishCall. destruct (lookup_expressions name); try discriminate.
  intros H. apply bind_Ok in H as (out & _ & H).
  destruct (out_errors out) as [messages |].
  - inversion H; subst. apply List.Forall_forall. intros d Hd.
    apply in_map_iff in Hd as (msg & <- & _). reflexivity.
  - destruct (out_js out) as [[| c body] |]; try discriminate.
    destruct t as [[] |]; discriminate.
Qed.

Lemma compile_fuel_error_keys (fuel : nat) :
  forall expected e l, compile_fuel fuel expected e = Ok (error_ l) ->
    Forall (fun d => In (key d) (keys_of e)) l.
Proof.
  induction fuel as [| fuel IH]; intros expected e l H; simpl in H; [discriminate |].
  apply bind_Ok in H as (result & Hc & H).
  unfold typecheck_for in Hc.
  destruct (match expected with Some t => Some t | None => type_of e end) as [t0 |];
    [| discriminate].
  destruct result as [[v t k | name t args k] | errs].
  - discriminate.
  - rewrite <- (typeCheckExpression_keys_of _ _ _ Hc).
    apply bind_Ok in H as ([[| e0 errors] cs] & Hargs & H).
    + apply finishCall_error_keys in H. eapply Forall_impl; [exact H |].
      simpl. intros d ->. left. reflexivity.
    + inversion H; subst. eapply compileArgs_errors in Hargs; [exact Hargs | | constructor].
      intros t' a l' Hin Hr. eapply Forall_impl; [exact (IH _ _ _ Hr) |].
      simpl. intros d Hd. right. exact (In_keys_of_argument _ _ _ Hin Hd).
  - inversion H; subst. exact (typeCheckExpression_error_keys _ _ _ Hc).
Qed.

(** X18: a compilation that returns [{result: 'error'}] returns at least one
    error, and each error is keyed on a node of the parsed input: its key is
    the key of the call that was checked or compiled, or of one of the nodes
    below it, each of which is keyed by its path. *)
Theorem compile_errors_are_keyed_on_nodes (expr : json) (errors : list TypeError_) :
  compileExpression expr = Ok (error_ errors) ->
  (exists first rest, errors = first :: rest) /\
  exists parsed,
    parseExpression EmptyString expr = Ok parsed /\
    keyed_by_path parsed /\
    Forall (fun d => In (key d) (keys_of parsed)) errors.
Proof.
  unfold compileExpression. intros H. apply bind_Ok in H as (parsed & Hp & H). split.
  - apply compile_fuel_errors_nonempty in H.
    destruct errors as [| d rest]; [contradiction | eauto].
  - exists parsed. split; [exact Hp |]. split; [exact (parseExpression_keyed _ _ _ Hp) |].
    exact (compile_fuel_error_keys _ _ _ _ H).
Qed.

(** An argument of the wrong type two levels down. *)
Lemma compile_errors_are_keyed_on_nodes_witness :
  (exists first rest,
     [mkError ".1.2" "Expected String but found Number instead."] = first :: rest) /\
  exists parsed,
    parseExpression EmptyString
      (JArr [JStr "!"; JArr [JStr "=="; JStr "a"; JNum 2]]) = Ok parsed /\
    keyed_by_path parsed /\
    Forall (fun d => In (key d) (keys_of parsed))
      [mkError ".1.2" "Expected String but found Number instead."].
Proof.
  apply (compile_errors_are_keyed_on_nodes
           (JArr [JStr "!"; JArr [JStr "=="; JStr "a"; JNum 2]])).
  reflexivity.
Defined.

(** ** Literals and operators on literals *)

(** X19: a string, a number or a boolean given as the whole expression
    compiles to its JSON text, with its own type and both constancy flags
    true; [undefined] compiles as the literal [null], of type Null. *)
Theorem literals_compile (v : LitValue) :
  compileExpression (literal_input v) =
    Ok (success (mkCompiled (JSON_stringify (json_of_value v)) (literal_type v) true true
                   (Literal v (literal_type v) EmptyString))).
Proof. destruct v; reflexivity. Qed.

(** X20: for one of the five binary arithmetic operators applied to two
    integer literals, [compile] returns the two texts joined by the operator
    inside one pair of parentheses; the literals get none of their own, so
    that a negative right operand of [-] gives the text [1--1].  Where the
    operator is not [-] or the right operand is not negative,
    [compileExpression] returns that result. *)
Theorem binary_operator_text (op : string) (n m : Z) :
  In op ["+"; "*"; "-"; "/"; "%"] ->
  parseExpression EmptyString (JArr [JStr op; JNum n; JNum m]) = Ok (binary_call op n m) /\
  compile None (binary_call op n m) =
    Ok (success
          (mkCompiled ("(" +:+ (string_of_Z n +:+ op +:+ string_of_Z m) +:+ ")")
             NumberType true true (binary_call op n m))) /\
  ((op = "-" -> (0 <= m)%Z) ->
   compileExpression (JArr [JStr op; JNum n; JNum m]) =
     Ok (success
           (mkCompiled ("(" +:+ (string_of_Z n +:+ op +:+ string_of_Z m) +:+ ")")
              NumberType true true (binary_call op n m)))).
Proof.
  intros H.
  assert (parseExpression EmptyString (JArr [JStr op; JNum n; JNum m]) =
            Ok (binary_call op n m)) as Hp
    by (repeat (destruct H as [<- | H]; [reflexivity |]); destruct H).
  assert (compile None (binary_call op n m) =
            Ok (success
                  (mkCompiled ("(" +:+ (string_of_Z n +:+ op +:+ string_of_Z m) +:+ ")")
                     NumberType true true (binary_call op n m)))) as Hc.
  { repeat (destruct H as [<- | H];
            [match goal with
             | |- _ = Ok (success (mkCompiled ("(" +:+ ?body +:+ ")") ?t ?f ?z ?e)) =>
                 transitivity (match body with
                               | EmptyString => Throw AssertionError
                               | _ => Ok (success (mkCompiled ("(" +:+ body +:+ ")") t f z e))
                               end);
                 [reflexivity | destruct (string_of_Z n); reflexivity]
             end |]).
    destruct H. }
  split; [exact Hp | split; [exact Hc |]].
  intros _. unfold compileExpression. rewrite Hp. exact Hc.
Qed.

Lemma binary_operator_text_witness :
  compile None (binary_call "-" 1 (-1)) =
    Ok (success (mkCompiled "(1--1)" NumberType true true (binary_call "-" 1 (-1)))).
Proof.
  assert (In "-" ["+"; "*"; "-"; "/"; "%"]) as H by (simpl; tauto).
  exact (proj1 (proj2 (binary_operator_text "-" 1 (-1) H))).
Defined.

(** X21: a comparison of two literals compiles when the two have the same
    type, to the two texts around the JavaScript operator ([===] for [==],
    [!==] for [!=]); otherwise the first argument has fixed [T], and the one
    error is keyed on the second argument, [.2], and says that the type of
    the first was expected and the type of the second found. *)
Theorem comparison_of_literals (op : string) (v w : LitValue) :
  In op ["=="; "!="; ">"; "<"; ">="; "<="] ->
  compileExpression (JArr [JStr op; literal_input v; literal_input w]) =
    if Ty_eqb (literal_type v) (literal_type w)
    then Ok (success
               (mkCompiled
                  ("(" +:+ (JSON_stringify (json_of_value v) +:+ " " +:+
                            comparison_operator op +:+ " " +:+
                            JSON_stringify (json_of_value w)) +:+ ")")
                  BooleanType true true
                  (LambdaCall (JStr op)
                     (Some (lambda BooleanType [literal_type v; literal_type v]))
                     [Literal v (literal_type v) ".1"; Literal w (literal_type w) ".2"]
                     EmptyString)))
    else Ok (error_ [mkError ".2" (errorMessage (literal_type v) (literal_type w))]).
Proof.
  intros H.
  repeat (destruct H as [<- | H];
          [destruct v as [| s | n | [|]], w as [| s' | n' | [|]];
           first
             [ reflexivity
             | unfold literal_type; simpl (Ty_eqb _ _); cbv iota;
               match goal with
               | |- _ = Ok (success (mkCompiled ("(" +:+ ?body +:+ ")") ?t ?f ?z ?e)) =>
                   transitivity (match body with
                                 | EmptyString => Throw AssertionError
                                 | _ => Ok (success (mkCompiled ("(" +:+ body +:+ ")") t f z e))
                                 end);
                   [reflexivity | simpl; destruct (string_of_Z n); reflexivity]
               end ] |]).
  destruct H.
Qed.

Lemma comparison_of_literals_witness :
  compileExpression (JArr [JStr "=="; JNum 1; JStr "a"]) =
    Ok (error_ [mkError ".2" "Expected Number but found String instead."]).
Proof.
  apply (comparison_of_literals "==" (LNumber 1) (LString "a")). simpl. tauto.
Defined.

(** ** The [compile] of [case] *)

Lemma case_branches_pairs (pairs : list (CompiledExpression * CompiledExpression))
    (final : CompiledExpression) :
  case_branches (flat_map (fun p => [fst p; snd p]) pairs ++ [final]) =
  (map (fun p => js (fst p) +:+ " ? " +:+ js (snd p)) pairs, [final]).
Proof.
  induction pairs as [| [c v] pairs IH]; [reflexivity |].
  simpl flat_map. cbn [app fst snd]. simpl case_branches. rewrite IH. reflexivity.
Qed.

Lemma odd_length_pairs (n : nat) :
  forall args : list CompiledExpression, (length args <= n)%nat ->
    Nat.odd (length args) = true ->
    exists pairs final, args = flat_map (fun p => [fst p; snd p]) pairs ++ [final].
Proof.
  induction n as [| n IH]; intros args Hn Hodd.
  - destruct args; [discriminate | simpl in Hn; lia].
  - destruct args as [| c [| v rest]]; [discriminate | exists [], c; reflexivity |].
    destruct (IH rest) as (pairs & final & ->); [simpl in Hn; lia | exact Hodd |].
    exists ((c, v) :: pairs), final. reflexivity.
Qed.

Lemma even_length_rest (n : nat) :
  forall args : list CompiledExpression, (length args <= n)%nat ->
    Nat.even (length args) = true -> snd (case_branches args) = [].
Proof.
  induction n as [| n IH]; intros args Hn Heven.
  - destruct args; [reflexivity | simpl in Hn; lia].
  - destruct args as [| c [| v rest]]; [reflexivity | discriminate |].
    simpl case_branches. specialize (IH rest ltac:(simpl in Hn; lia) Heven).
    destruct (case_branches rest). exact IH.
Qed.

(** X22: the [compile] of [case] returns a text exactly for an odd number
    of compiled arguments, which are then pairs of a condition and a value
    followed by one last argument: each pair becomes the branch
    [condition ? value], and the branches, followed by the text of the last
    argument, are joined by colons; for an even number, zero included, its
    [assert(args.length === 1)] fails.  The checker lets an even number
    through: [["number", ["case", true, 1]]] throws the failed assertion out
    of [compileExpression]. *)
Theorem compile_case_needs_odd_arguments :
  (forall e args, Nat.odd (length args) = true ->
     exists pairs final,
       args = flat_map (fun p => [fst p; snd p]) pairs ++ [final] /\
       compile_case e args =
         Ok (output_js (join ":" (map (fun p => js (fst p) +:+ " ? " +:+ js (snd p)) pairs ++
                                  [js final])))) /\
  (forall e args, Nat.even (length args) = true ->
     compile_case e args = Throw AssertionError) /\
  compileExpression (JArr [JStr "number"; JArr [JStr "case"; JBool true; JNum 1]]) =
    Throw AssertionError.
Proof.
  split; [| split; [| reflexivity]]; intros e args Hpar.
  - destruct (odd_length_pairs _ args (le_n _) Hpar) as (pairs & final & ->).
    exists pairs, final. split; [reflexivity |].
    unfold compile_case. rewrite case_branches_pairs. reflexivity.
  - pose proof (even_length_rest _ args (le_n _) Hpar) as H.
    unfold compile_case. destruct (case_branches args) as [result remaining].
    simpl in H. subst remaining. reflexivity.
Qed.

(** ** The stops of a compiled curve *)

Lemma ascending_snoc (l : list Q) (v : Q) :
  ascending l = true ->
  match last l with Some top => Qltb top v = true | None => True end ->
  ascending (l ++ [v]) = true.
Proof.
  induction l as [| a l IH]; intros Hasc Hlast; [reflexivity |].
  destruct l as [| b l].
  - simpl in *. rewrite Hlast. reflexivity.
  - simpl in Hasc. apply andb_true_iff in Hasc as [Hab Hasc].
    change ((a :: b :: l) ++ [v]) with (a :: (b :: l) ++ [v]).
    change ((b :: l) ++ [v]) with (b :: l ++ [v]) in *.
    cbn [ascending]. rewrite Hab. apply IH; [exact Hasc | exact Hlast].
Qed.

Lemma last_map {A B : Type} (f : A -> B) (l : list A) :
  last (map f l) = option_map f (last l).
Proof.
  induction l as [| a [| b l] IH]; try reflexivity. exact IH.
Qed.

Lemma Qltb_inject_Z (a b : Z) : Qltb (inject_Z a) (inject_Z b) = negb (Z.geb a b).
Proof.
  unfold Qltb. f_equal. unfold Qle_bool, inject_Z. simpl.
  rewrite !Z.mul_1_r. rewrite Z.geb_leb. reflexivity.
Qed.

Lemma curve_stops_ascending (n : nat) :
  forall pairs stops outputs stops' outputs',
    (length pairs <= n)%nat ->
    ascending (map inject_Z stops) = true -> length outputs = length stops ->
    curve_stops pairs stops outputs = inr (stops', outputs') ->
    ascending (map inject_Z stops') = true /\
    length outputs' = length stops' /\
    length stops' = (length stops + length pairs / 2)%nat.
Proof.
  induction n as [| n IH]; intros pairs stops outputs stops' outputs' Hn Hasc Hlen H.
  - destruct pairs; [| simpl in Hn; lia]. inversion H; subst.
    split; [exact Hasc | split; [exact Hlen | simpl; lia]].
  - destruct pairs as [| inputArg [| output rest]].
    + inversion H; subst. split; [exact Hasc | split; [exact Hlen | simpl; lia]].
    + inversion H; subst. split; [exact Hasc | split; [exact Hlen | simpl; lia]].
    + simpl in H.
      destruct (expression inputArg) as [[| s | value | b] t k | name t args k];
        try discriminate H.
      destruct (match last stops with Some top => Z.geb top value | None => false end) eqn:Htop;
        [discriminate H |].
      apply IH in H.
      * destruct H as (H1 & H2 & H3). split; [exact H1 | split; [exact H2 |]].
        rewrite H3, length_app. cbn [length].
        change (S (S (length rest))) with (2 + length rest)%nat.
        replace (2 + length rest)%nat with (length rest + 1 * 2)%nat by lia.
        rewrite Nat.div_add by lia. lia.
      * simpl in Hn. lia.
      * rewrite map_app. apply ascending_snoc; [exact Hasc |].
        rewrite last_map. destruct (last stops) as [top |]; [| exact I].
        simpl. rewrite Qltb_inject_Z, Htop. reflexivity.
      * rewrite !length_app. simpl. lia.
Qed.

(** X23: the stops that the [compile] of [curve] collects from its
    arguments, when its loop returns no error, are in strictly ascending
    order, one per input/output pair, each with one output thunk; the stop
    search at run time therefore finds, for every input strictly between the
    first and the last of them, the largest stop that is at most the
    input. *)
Theorem curve_stops_are_ascending (args : list CompiledExpression)
    (stops : list Z) (outputs : list string) :
  curve_stops (skipn 2 args) [] [] = inr (stops, outputs) ->
  ascending (map inject_Z stops) = true /\
  length outputs = length stops /\
  length stops = ((length args - 2) / 2)%nat /\
  (forall input first last,
     at_index (map inject_Z stops) 0 = Some first ->
     at_index (map inject_Z stops) (Z.of_nat (length (map inject_Z stops)) - 1) = Some last ->
     (first < input)%Q -> (input < last)%Q ->
     exists i k,
       findStopLessThanOrEqualTo (map inject_Z stops) input = Some i /\
       at_index (map inject_Z stops) i = Some k /\ (k <= input)%Q /\
       forall j kj, at_index (map inject_Z stops) j = Some kj -> (kj <= input)%Q ->
         (j <= i)%Z).
Proof.
  intros H.
  destruct (curve_stops_ascending _ _ [] [] _ _ (le_n _) eq_refl eq_refl H) as (H1 & H2 & H3).
  split; [exact H1 | split; [exact H2 | split]].
  - rewrite H3, length_skipn. reflexivity.
  - intros input first last Hf Hl Hgt Hlt.
    destruct (settles_between _ input first last H1 Hf Hl (Qlt_le_weak _ _ Hgt) Hlt)
      as (i & k & Hs & Hi & Hk & Hmax).
    exists i, k. split; [apply findStop_settles; assumption |].
    split; [exact Hi | split; [exact Hk | exact Hmax]].
Qed.

(** The arguments of a curve with the stops 0 and 10. *)
Lemma curve_stops_are_ascending_witness :
  ascending (map inject_Z [0; 10]%Z) = true /\
  length ["() => 1"; "() => 2"] = length [0; 10]%Z /\
  length [0; 10]%Z =
    ((length [compiled_number 0 ".1"; compiled_number 0 ".2"; compiled_number 0 ".3";
              compiled_number 1 ".4"; compiled_number 10 ".5"; compiled_number 2 ".6"] - 2)
     / 2)%nat.
Proof.
  pose proof (curve_stops_are_ascending
                [compiled_number 0 ".1"; compiled_number 0 ".2"; compiled_number 0 ".3";
                 compiled_number 1 ".4"; compiled_number 10 ".5"; compiled_number 2 ".6"]
                [0; 10]%Z ["() => 1"; "() => 2"] eq_refl) as (H1 & H2 & H3 & _).
  split; [exact H1 | split; [exact H2 | exact H3]].
Defined.

(** ** The registry *)

(** X24: the keys of the registry are pairwise distinct; none is the name
    of a property inherited from [Object.prototype]; the type of every entry
    is a lambda, so that a call of a registered operator always has a result
    type and a list of argument types; and the [name] of an entry is its key
    except for [number], [rgba] and [linear], named [string], [rgb] and
    [step]. *)
Theorem registry_is_well_formed :
  NoDup (map fst expressions) /\
  Forall (fun kd => existsb (String.eqb (fst kd)) objectPrototypeKeys = false) expressions /\
  (forall op definition, lookup_expressions op = Own definition ->
     exists result args, def_type definition = lambda result args) /\
  map (fun kd => (fst kd, def_name (snd kd)))
    (List.filter (fun kd => negb (String.eqb (fst kd) (def_name (snd kd)))) expressions)
    = [("number", "string"); ("rgba", "rgb"); ("linear", "step")].
Proof.
  assert (Forall (fun kd => is_lambda (def_type (snd kd)) = true) expressions) as Hl
    by (repeat constructor).
  split; [| split; [| split]].
  - apply (bool_decide_eq_true_1 (NoDup (map fst expressions))). vm_compute. reflexivity.
  - repeat constructor.
  - intros op d H. unfold lookup_expressions in H.
    destruct (assoc (js_String op) expressions) as [d' |] eqn:E.
    + inversion H; subst. apply (assoc_Forall _ _ _ _ Hl) in E. simpl in E.
      destruct (def_type d); try discriminate. eauto.
    + destruct (existsb _ _); discriminate.
  - reflexivity.
Qed.

(** X25: the three mathematical constants compile to the property of
    [Math] named in upper case, and each of the nine mathematical functions,
    applied to an integer literal, to a call of the method of [Math] of the
    same name, except [ln], which calls [Math.log]. *)
Theorem math_operators_text :
  (forall name, In name ["ln2"; "pi"; "e"] ->
     compileExpression (JArr [JStr name]) =
       Ok (success
             (mkCompiled ("(Math." +:+ toUpperCase name +:+ ")") NumberType true true
                (LambdaCall (JStr name) (Some (lambda NumberType [])) [] EmptyString)))) /\
  (forall name n,
     In name ["log10"; "ln"; "log2"; "sin"; "cos"; "tan"; "asin"; "acos"; "atan"] ->
     compileExpression (JArr [JStr name; JNum n]) =
       Ok (success
             (mkCompiled
                ("(" +:+ ("Math." +:+ (if String.eqb name "ln" then "log" else name) +:+
                          "(" +:+ string_of_Z n +:+ ")") +:+ ")")
                NumberType true true
                (LambdaCall (JStr name) (Some (lambda NumberType [NumberType]))
                   [Literal (LNumber n) NumberType ".1"] EmptyString)))).
Proof.
  split.
  - intros name H. repeat (destruct H as [<- | H]; [reflexivity |]). destruct H.
  - intros name n H. repeat (destruct H as [<- | H]; [reflexivity |]). destruct H.
Qed.

(** ** The compiler returns or throws *)

(** Every match of two types of the universe, under every map of the
    universe, returns or throws within its fuel. *)
Lemma universe_ends :
  forallb (fun expected =>
    forallb (fun t => forallb (match_ends expected t) maps) universe) universe = true.
Proof. vm_compute. reflexivity. Qed.

Lemma registry_in_universe :
  forallb (fun kd => match def_type (snd kd) with
                     | lambda r a => in_universe r && forallb slot_in_universe a
                     | _ => false
                     end) expressions = true.
Proof. vm_compute. reflexivity. Qed.

Lemma all2_eq (l1 : list Ty) :
  Forall (fun a => forall b, Ty_eqb a b = true -> a = b) l1 ->
  forall l2,
    (fix all2 (l1 l2 : list Ty) {struct l1} : bool :=
       match l1, l2 with
       | [], [] => true
       | x :: r1, y :: r2 => Ty_eqb x y && all2 r1 r2
       | _, _ => false
       end) l1 l2 = true -> l1 = l2.
Proof.
  induction 1 as [| x l Hx _ IH]; intros [| y l2] H; try discriminate; [reflexivity |].
  apply andb_true_iff in H as [H1 H2]. f_equal; [exact (Hx _ H1) | exact (IH _ H2)].
Qed.

Lemma Ty_eqb_eq (a : Ty) : forall b, Ty_eqb a b = true -> a = b.
Proof.
  induction a as [name | | i IH | i N IH | i IH | members IH | tn | types IH
                  | result args IHr IHa] using Ty_nested_ind;
    intros [] H; try discriminate H; simpl in H.
  - apply String.eqb_eq in H. congruence.
  - reflexivity.
  - f_equal. exact (IH _ H).
  - apply andb_true_iff in H as [H1 H2]. apply Nat.eqb_eq in H2. f_equal; [exact (IH _ H1) | exact H2].
  - f_equal. exact (IH _ H).
  - f_equal. exact (all2_eq _ IH _ H).
  - apply String.eqb_eq in H. congruence.
  - f_equal. exact (all2_eq _ IH _ H).
  - apply andb_true_iff in H as [H1 H2]. f_equal; [exact (IHr _ H1) | exact (all2_eq _ IHa _ H2)].
Qed.

Lemma in_universe_In (t : Ty) : in_universe t = true -> In t universe.
Proof.
  unfold in_universe. intros H. apply existsb_exists in H as (x & Hin & Hx).
  apply Ty_eqb_eq in Hx. subst. exact Hin.
Qed.

Lemma map_in_universe_shape (m : tmap) :
  map_in_universe m = true -> In (Some m) maps.
Proof.
  unfold map_in_universe. intros H.
  pose proof (NoDup_fst_map_to_list m) as Hnd.
  pose proof (list_to_map_to_list m) as Hm.
  destruct (map_to_list m) as [| [k b] [| [k' b'] r]] eqn:E.
  - simpl in Hm. subst m. right. left. reflexivity.
  - simpl in H. rewrite andb_true_r in H. apply andb_true_iff in H as [Hk Hb].
    apply String.eqb_eq in Hk. subst k. apply in_universe_In in Hb.
    right. right. apply in_map_iff. exists b. split; [| exact Hb].
    f_equal. rewrite <- Hm. simpl. rewrite insert_empty. reflexivity.
  - exfalso. simpl in H. rewrite !andb_true_iff in H.
    destruct H as ((Hk & _) & (Hk' & _) & _).
    apply String.eqb_eq in Hk, Hk'. subst. simpl in Hnd.
    inversion Hnd as [| ? ? Hnot _]; subst. apply Hnot. left.
Qed.

Lemma universe_match (expected t : Ty) (m : option tmap) :
  In expected universe -> In t universe -> In m maps ->
  match_ends expected t m = true.
Proof.
  intros He Ht Hm. pose proof universe_ends as H.
  rewrite forallb_forall in H. specialize (H _ He).
  rewrite forallb_forall in H. specialize (H _ Ht).
  rewrite forallb_forall in H. exact (H _ Hm).
Qed.

Lemma matchMembers_verdict
    (rec : Ty -> Ty -> option tmap -> outcome (option string * option tmap))
    (t : Ty) (m : option tmap) (o o' : outcome (option string * option tmap)) (ms : list Ty) :
  verdict o = verdict o' ->
  verdict (matchMembers rec t m o ms) = verdict (matchMembers rec t m o' ms).
Proof.
  intros Ho. induction ms as [| a ms IH]; simpl; [exact Ho |].
  destruct (rec a t _) as [[[msg |] names] | |]; simpl; try reflexivity. exact IH.
Qed.

(** A lambda is matched as its result is; the message alone differs. *)
Lemma matchTypeError_lambda (fuel : nat) (expected r : Ty) (a : list Ty) (m : option tmap) :
  unlambda r = r ->
  verdict (matchTypeError fuel expected (lambda r a) m) =
  verdict (matchTypeError fuel expected r m).
Proof.
  intros Hr. destruct fuel as [| fuel]; [reflexivity |].
  cbn -[matchMembers someMismatch bind]. rewrite Hr.
  generalize (errorMessage expected (lambda r a)) (errorMessage expected r).
  intros msg1 msg2.
  repeat first
    [ reflexivity
    | apply matchMembers_verdict
    | match goal with
      | |- context [bind ?c _] => destruct c as [[[?|] ?]| |]; cbn [bind]
      | |- context [bind ?c _] => destruct c as [[|] | |]; cbn [bind]
      end
    | match goal with
      | |- context [match ?x with _ => _ end] => destruct x
      | |- context [if ?x then _ else _] => destruct x
      end ].
Qed.

Lemma universe_unlambda (t : Ty) : In t universe -> unlambda t = t.
Proof. intros H. repeat (destruct H as [<- | H]; [reflexivity |]). destruct H. Qed.

Lemma type_size_unlambda (t : Ty) : (type_size (unlambda t) <= type_size t)%nat.
Proof. destruct t; simpl; lia. Qed.

Lemma verdict_Ok (c : outcome (option string * option tmap)) (b : bool) (m : option tmap) :
  verdict c = Ok (b, m) -> exists e, c = Ok (e, m).
Proof. destruct c as [[[msg |] names] | |]; simpl; intros [= <- <-]; eauto. Qed.

Lemma verdict_OutOfFuel (c : outcome (option string * option tmap)) :
  verdict c = OutOfFuel -> c = OutOfFuel.
Proof. destruct c as [[[msg |] names] | |]; simpl; congruence. Qed.

Lemma matchTypeError_universe (expected t : Ty) (m : option tmap) :
  In expected universe -> In (unlambda t) universe -> In m maps ->
  matchTypeError (match_fuel expected t m) expected t m <> OutOfFuel /\
  forall e m', matchTypeError (match_fuel expected t m) expected t m = Ok (e, Some m') ->
    map_in_universe m' = true.
Proof.
  intros He Ht Hm.
  pose proof (universe_match _ _ _ He Ht Hm) as Hs. unfold match_ends in Hs.
  assert (matchTypeError (match_fuel expected (unlambda t) m) expected (unlambda t) m
            <> OutOfFuel) as Hne
    by (intros E; rewrite E in Hs; discriminate).
  assert (match_fuel expected (unlambda t) m <= match_fuel expected t m)%nat as Hle
    by (unfold match_fuel; pose proof (type_size_unlambda t); lia).
  pose proof (matchTypeError_more_fuel _ _ expected (unlambda t) m Hle Hne) as Hmore.
  rewrite <- Hmore in Hs, Hne.
  assert (verdict (matchTypeError (match_fuel expected t m) expected t m) =
          verdict (matchTypeError (match_fuel expected t m) expected (unlambda t) m)) as Hv.
  { destruct t; try reflexivity. apply matchTypeError_lambda.
    exact (universe_unlambda _ Ht). }
  split.
  - intros E. rewrite E in Hv. simpl in Hv. symmetry in Hv.
    apply verdict_OutOfFuel in Hv. exact (Hne Hv).
  - intros e m' E. rewrite E in Hv.
    assert (exists e', matchTypeError (match_fuel expected t m) expected (unlambda t) m =
                       Ok (e', Some m')) as (e' & E')
      by (destruct e; simpl in Hv; symmetry in Hv; exact (verdict_Ok _ _ _ Hv)).
    rewrite E' in Hs. exact Hs.
Qed.

Lemma matchTypeErrorMap_universe (expected t : Ty) (m : tmap) :
  In expected universe -> In (unlambda t) universe -> map_in_universe m = true ->
  matchTypeErrorMap expected t m <> OutOfFuel /\
  forall e m', matchTypeErrorMap expected t m = Ok (e, m') -> map_in_universe m' = true.
Proof.
  intros He Ht Hm.
  destruct (matchTypeError_universe expected t (Some m) He Ht (map_in_universe_shape _ Hm))
    as [Hne Hmap].
  unfold matchTypeErrorMap.
  destruct (matchTypeError _ expected t (Some m)) as [[e names] | |]; simpl.
  - split; [discriminate |]. intros e' m' [= <- <-].
    destruct names as [m' |]; [exact (Hmap _ _ eq_refl) | exact Hm].
  - split; discriminate.
  - contradiction.
Qed.

Lemma matchTypeErrorNoMap_universe (expected t : Ty) :
  In expected universe -> In (unlambda t) universe ->
  matchTypeErrorNoMap expected t <> OutOfFuel.
Proof.
  intros He Ht.
  destruct (matchTypeError_universe expected t None He Ht (or_introl eq_refl)) as [Hne _].
  unfold matchTypeErrorNoMap.
  destruct (matchTypeError _ expected t None) as [[e names] | |]; simpl;
    [discriminate | discriminate | contradiction].
Qed.

Lemma ends_bind {A B : Type} (P : A -> Prop) (Q : B -> Prop)
    (c : outcome A) (f : A -> outcome B) :
  ends_with P c -> (forall a, P a -> ends_with Q (f a)) -> ends_with Q (bind c f).
Proof. destruct c; simpl; [auto | trivial | tauto]. Qed.

Lemma extend_in_universe (dest src : tmap) :
  map_in_universe dest = true -> map_in_universe src = true ->
  map_in_universe (extend dest src) = true.
Proof.
  intros Hd Hs. unfold extend.
  pose proof (map_in_universe_shape _ Hd) as Hd'.
  pose proof (map_in_universe_shape _ Hs) as Hs'.
  destruct Hs' as [Hs' | [Hs' | Hs']]; [discriminate | |].
  - injection Hs' as <-. rewrite (left_id ∅ (∪)). exact Hd.
  - apply in_map_iff in Hs' as (x & Hx & _). injection Hx as <-.
    destruct Hd' as [Hd' | [Hd' | Hd']]; [discriminate | |].
    + injection Hd' as <-. rewrite (right_id ∅ (∪)). exact Hs.
    + apply in_map_iff in Hd' as (y & Hy & _). injection Hy as <-.
      rewrite <- insert_union_singleton_l, insert_singleton. exact Hs.
Qed.

Lemma in_universe_unlambda (t : Ty) : in_universe t = true -> unlambda t = t.
Proof. intros H. apply universe_unlambda, in_universe_In, H. Qed.

Lemma matchTypeErrorMap_ends (expected t : Ty) (m : tmap) :
  in_universe expected = true -> in_universe (unlambda t) = true ->
  map_in_universe m = true ->
  ends_with (fun r => map_in_universe (snd r) = true) (matchTypeErrorMap expected t m).
Proof.
  intros He Ht Hm.
  destruct (matchTypeErrorMap_universe expected t m
              (in_universe_In _ He) (in_universe_In _ Ht) Hm) as [Hne Hmap].
  destruct (matchTypeErrorMap expected t m) as [[e m'] | |]; simpl;
    [exact (Hmap _ _ eq_refl) | exact I | congruence].
Qed.

Lemma matchTypeErrorNoMap_ends (expected t : Ty) :
  in_universe expected = true -> in_universe (unlambda t) = true ->
  ends_with (fun _ => True) (matchTypeErrorNoMap expected t).
Proof.
  intros He Ht.
  pose proof (matchTypeErrorNoMap_universe expected t
                (in_universe_In _ He) (in_universe_In _ Ht)) as Hne.
  destruct (matchTypeErrorNoMap expected t); simpl; [exact I | exact I | congruence].
Qed.

(** The type of a node of a typed tree is matched as a type of the
    universe. *)
Lemma typed_type_of (arg : TypedExpression) (t : Ty) :
  typed arg = true -> type_of arg = Some t -> in_universe (unlambda t) = true.
Proof.
  destruct arg as [v ty k | name [ty |] args k]; simpl; intros H [= <-].
  - rewrite (in_universe_unlambda _ H). exact H.
  - destruct ty; try discriminate H. simpl.
    apply andb_true_iff in H as [H _]. apply andb_true_iff in H as [H _]. exact H.
Qed.

Lemma matchArg_ends (t : option Ty) (arg : TypedExpression) (m : tmap) :
  (forall t', t = Some t' -> in_universe t' = true) -> typed arg = true ->
  map_in_universe m = true ->
  ends_with (fun r => map_in_universe (snd r) = true) (matchArg t arg m).
Proof.
  intros Ht Harg Hm. unfold matchArg.
  destruct t as [t |]; [| exact I].
  destruct (type_of arg) as [at_ |] eqn:E; [| exact I].
  apply matchTypeErrorMap_ends; [apply Ht; reflexivity | | exact Hm].
  exact (typed_type_of _ _ Harg E).
Qed.

Lemma forallb_nth_error {A : Type} (f : A -> bool) (l : list A) (i : nat) (a : A) :
  forallb f l = true -> nth_error l i = Some a -> f a = true.
Proof.
  intros H Hi. rewrite forallb_forall in H. apply H. exact (nth_error_In _ _ Hi).
Qed.

Lemma consume_ends (types : list Ty) (rest : list TypedExpression) :
  forallb in_universe types = true ->
  forall j cur committed expanded m,
    forallb typed rest = true -> forallb typed committed = true ->
    forallb in_universe expanded = true ->
    map_in_universe cur = true -> map_in_universe m = true ->
    ends_with (fun r => forallb typed (fst (fst r)) = true /\
                      forallb in_universe (snd (fst r)) = true /\
                      map_in_universe (snd r) = true)
      (consume types rest j cur committed expanded m).
Proof.
  intros Htypes. induction rest as [| arg rest IH];
    intros j cur committed expanded m Hrest Hcom Hex Hcur Hm; simpl.
  - auto.
  - apply andb_true_iff in Hrest as [Harg Hrest].
    eapply ends_bind.
    + apply (matchArg_ends (nth_error types j) arg cur); [| exact Harg | exact Hcur].
      intros t' Ht'. exact (forallb_nth_error _ _ _ _ Htypes Ht').
    + intros [[msg |] cur'] Hcur'; simpl in Hcur'; [simpl; auto |].
      destruct (Nat.eqb _ 0).
      * apply IH; try assumption; [| reflexivity |].
        -- rewrite forallb_app, Hex, Htypes. reflexivity.
        -- apply extend_in_universe; assumption.
      * apply IH; assumption.
Qed.

Lemma slot_of_universe (t : Ty) : in_universe t = true -> slot_in_universe t = true.
Proof. destruct t; simpl; auto. discriminate. Qed.

Lemma expandArgs_ends (k : string) (expectedArgs : list Ty) :
  forall rest expanded errors m,
    forallb slot_in_universe expectedArgs = true ->
    forallb typed rest = true -> forallb in_universe expanded = true ->
    map_in_universe m = true ->
    ends_with (fun r => forallb in_universe (fst (fst r)) = true /\
                      map_in_universe (snd r) = true)
      (expandArgs k expectedArgs rest expanded errors m).
Proof.
  induction expectedArgs as [| t expectedArgs IH];
    intros rest expanded errors m Hslots Hrest Hex Hm.
  - destruct rest; simpl; auto.
  - destruct rest as [| arg rest']; [simpl; auto |].
    simpl in Hslots. apply andb_true_iff in Hslots as [Ht Hslots].
    assert (forall t', (match t with nargs _ => False | _ => t = t' end) ->
              ends_with (fun r => forallb in_universe (fst (fst r)) = true /\
                                map_in_universe (snd r) = true)
                (do '(error, typenameMap) <- matchArg (Some t') arg m;
                 let errors := match error with
                               | Some msg => errors ++ [mkError k msg]
                               | None => errors
                               end in
                 expandArgs k expectedArgs rest' (expanded ++ [t']) errors typenameMap))
      as Hplain.
    { intros t' Ht'. assert (t = t') as <- by (destruct t; tauto || exact Ht').
      assert (in_universe t = true) as Hu by (destruct t; tauto || exact Ht).
      simpl in Hrest. apply andb_true_iff in Hrest as [Harg Hrest].
      eapply ends_bind.
      - apply (matchArg_ends (Some t) arg m); [| exact Harg | exact Hm].
        intros ? [= <-]. exact Hu.
      - intros [msg m'] Hm'. simpl in Hm'. apply IH; try assumption.
        rewrite forallb_app, Hex. simpl. rewrite Hu. reflexivity. }
    destruct t; try (apply Hplain; reflexivity).
    cbn [expandArgs]. eapply ends_bind.
    + apply (consume_ends types (arg :: rest') Ht 0 ∅ (arg :: rest') expanded m);
        try assumption. reflexivity.
    + intros [[rest2 expanded'] m'] (H1 & H2 & H3). simpl in H1, H2, H3.
      apply IH; assumption.
Qed.

Lemma resolve_in_universe (m : tmap) (t : Ty) :
  map_in_universe m = true -> in_universe t = true -> in_universe (resolve m t) = true.
Proof.
  intros Hm Ht. destruct t as [| | | | | | tn | |]; try exact Ht. simpl.
  destruct (m !! tn) as [bound |] eqn:E; [| exact Ht].
  unfold map_in_universe in Hm. rewrite forallb_forall in Hm.
  apply elem_of_map_to_list in E. apply list_elem_of_In in E.
  specialize (Hm _ E). simpl in Hm. apply andb_true_iff in Hm as [_ Hm]. exact Hm.
Qed.

Lemma checkArgs_ends (rec : Ty -> TypedExpression -> outcome CheckResult) (m : tmap)
    (args : list TypedExpression) :
  map_in_universe m = true ->
  Forall (fun arg => forall t, in_universe t = true -> ends_with checked_typed (rec t arg)) args ->
  forall types errors resolved checked,
    forallb in_universe types = true -> forallb in_universe resolved = true ->
    forallb typed checked = true ->
    ends_with (fun r => forallb in_universe (snd (fst r)) = true /\
                      forallb typed (snd r) = true)
      (checkArgs rec m types args errors resolved checked).
Proof.
  intros Hm Hrec. induction Hrec as [| arg args Harg _ IH];
    intros types errors resolved checked Htypes Hres Hchk.
  - destruct types; simpl; auto.
  - destruct types as [| t types]; simpl; [auto |].
    simpl in Htypes. apply andb_true_iff in Htypes as [Ht Htypes].
    pose proof (resolve_in_universe m t Hm Ht) as Hr.
    eapply ends_bind; [exact (Harg _ Hr) |].
    intros [r | errs] Hc; simpl in Hc.
    + destruct errors; apply IH; try assumption.
      * rewrite forallb_app, Hres. simpl. rewrite Hr. reflexivity.
      * rewrite forallb_app, Hchk. simpl. rewrite (proj1 Hc). reflexivity.
    + apply IH; assumption.
Qed.

Lemma forallb_slot_of_universe (l : list Ty) :
  forallb in_universe l = true -> forallb slot_in_universe l = true.
Proof.
  induction l as [| t l IH]; simpl; [reflexivity |].
  intros H. apply andb_true_iff in H as [H1 H2].
  rewrite (slot_of_universe _ H1), (IH H2). reflexivity.
Qed.

(** The check of a typed tree against a type of the universe, or against its
    own type, returns or throws; a checked tree is typed again. *)
Lemma typeCheckExpression_ends (e : TypedExpression) :
  forall expected, typed e = true ->
    in_universe expected = true \/ type_of e = Some expected ->
    ends_with checked_typed (typeCheckExpression expected e).
Proof.
  induction e as [v t k | name t args k IH] using TypedExpression_nested_ind;
    intros expected He Hexp.
  - rewrite typeCheckExpression_literal_eq. simpl in He.
    assert (in_universe expected = true) as Hu
      by (destruct Hexp as [H | [= <-]]; assumption).
    eapply ends_bind.
    + apply matchTypeErrorNoMap_ends; [exact Hu |].
      rewrite (in_universe_unlambda _ He). exact He.
    + intros [msg |] _; simpl; [exact I |]. split; [exact He | reflexivity].
  - simpl in He. apply andb_true_iff in He as [Ht Hargs].
    (* the expected result and the declared arguments *)
    set (expectedResult := match expected with lambda r _ => r | _ => expected end).
    set (expectedArgs :=
           match expected with
           | lambda _ a => Ok (Some a)
           | _ => match t with
                  | None => Throw TypeError
                  | Some (lambda _ a) => Ok (Some a)
                  | Some _ => Ok None
                  end
           end).
    assert (in_universe expectedResult = true /\
            ends_with (fun ea => forall a, ea = Some a -> forallb slot_in_universe a = true)
              expectedArgs) as [Hres Hea].
    { destruct Hexp as [Hu | Hown].
      - assert (expectedResult = expected) as -> by (destruct expected; reflexivity || discriminate Hu).
        split; [exact Hu |]. subst expectedArgs.
        destruct expected; try discriminate Hu;
          destruct t as [[] |]; simpl; try exact I; try discriminate;
          intros a' [= <-]; apply andb_true_iff in Ht as [_ Ht]; exact Ht.
      - simpl in Hown. subst t. subst expectedResult expectedArgs.
        destruct expected; try discriminate Ht.
        apply andb_true_iff in Ht as [Hr Ha]. split; [exact Hr |].
        simpl. intros a' [= <-]. exact Ha. }
    change (typeCheckExpression expected (LambdaCall name t args k)) with
      (do expectedArgs <- expectedArgs;
       if is_typename expectedResult
       then Ok (Errors [mkError k (could_not_resolve expectedResult (LambdaCall name t args k))])
       else
       do typeResult <- match t with
                        | Some (lambda r _) => Ok r
                        | _ => Throw TypeError
                        end;
       do '(error, typenameMap) <- matchTypeErrorMap expectedResult typeResult ∅;
       match error with
       | Some msg => Ok (Errors [mkError k msg])
       | None =>
           do '(expandedArgTypes, errors, typenameMap) <-
              match args, expectedArgs with
              | [], _ => Ok ([], [], typenameMap)
              | _ :: _, None => Throw TypeError
              | _ :: _, Some expectedArgs =>
                  expandArgs k expectedArgs args [] [] typenameMap
              end;
           let errors :=
             if Nat.eqb (length expandedArgTypes) (length args) then errors
             else errors ++ [mkError k (arity_error (length expandedArgTypes) (length args))] in
           match errors with
           | _ :: _ => Ok (Errors errors)
           | [] =>
               do '(errors, resolvedArgTypes, checkedArgs) <-
                  checkArgs typeCheckExpression typenameMap expandedArgTypes args [] [] [];
               match errors with
               | _ :: _ => Ok (Errors errors)
               | [] => Ok (Checked (LambdaCall name
                             (Some (lambda expectedResult resolvedArgTypes))
                             checkedArgs k))
               end
           end
       end).
    clearbody expectedResult expectedArgs.
    eapply ends_bind; [exact Hea |]. clear Hea. intros ea Hea.
    destruct (is_typename expectedResult); [exact I |].
    destruct t as [[] |]; try exact I. cbn [bind].
    apply andb_true_iff in Ht as [Hr Hslots].
    eapply ends_bind.
    { apply matchTypeErrorMap_ends; [exact Hres | | reflexivity].
      rewrite (in_universe_unlambda _ Hr). exact Hr. }
    intros [[msg |] m] Hm; [exact I |]. simpl in Hm.
    eapply ends_bind with
      (P := fun r => forallb in_universe (fst (fst r)) = true /\
                     map_in_universe (snd r) = true).
    { destruct args as [| arg args]; [simpl; auto |].
      destruct ea as [ea |]; [| exact I].
      apply expandArgs_ends; auto. }
    intros [[expanded errors] m'] [Hex Hm']. simpl in Hex, Hm'.
    cbv zeta.
    destruct (if Nat.eqb (length expanded) (length args) then errors else _);
      [| exact I].
    eapply ends_bind.
    { apply (checkArgs_ends typeCheckExpression m' args Hm'); auto.
      rewrite forallb_forall in Hargs. rewrite List.Forall_forall in IH |- *.
      intros arg Hin t' Ht'. apply IH; auto. }
    intros [[[| e0 errs] resolved] checked] [H1 H2]; [| exact I].
    simpl in H1, H2. simpl.
    rewrite Hres, H1, H2, (forallb_slot_of_universe _ H1). split; reflexivity.
Qed.

(** No [compile] of the registry stops for lack of fuel: none recurses. *)
Lemma expressions_return :
  Forall (fun kd => forall e cs, def_compile (snd kd) e cs <> OutOfFuel) expressions.
Proof.
  unfold expressions.
  repeat (apply List.Forall_cons; [callback_returns |]).
  apply List.Forall_nil.
Qed.

Lemma expressions_typed :
  Forall (fun kd => exists r a, def_type (snd kd) = lambda r a /\
                      in_universe r = true /\ forallb slot_in_universe a = true)
    expressions.
Proof.
  pose proof registry_in_universe as H. rewrite forallb_forall in H.
  apply List.Forall_forall. intros kd Hin. specialize (H kd Hin).
  destruct (def_type (snd kd)); try discriminate H.
  apply andb_true_iff in H as [H1 H2]. eauto.
Qed.

Lemma lookup_expressions_Own (P : string * Definition_ -> Prop) (name : json)
    (d : Definition_) :
  Forall P expressions -> lookup_expressions name = Own d -> P (js_String name, d).
Proof.
  intros HP. unfold lookup_expressions. destruct (assoc _ expressions) eqn:E.
  - intros [= <-]. exact (assoc_Forall P _ _ _ HP E).
  - destruct (existsb _ _); discriminate.
Qed.

Lemma finishCall_returns e name t k cs : finishCall e name t k cs <> OutOfFuel.
Proof.
  unfold finishCall. destruct (lookup_expressions name) as [d | |] eqn:Hd;
    [| discriminate | discriminate].
  pose proof (lookup_expressions_Own
                (fun kd => forall e cs, def_compile (snd kd) e cs <> OutOfFuel)
                name d expressions_return Hd e cs) as Hne. simpl in Hne.
  destruct (def_compile d e cs) as [out | |]; simpl; [| discriminate | congruence].
  destruct (out_errors out); [discriminate |].
  destruct (out_js out) as [[| ? ?] |]; try discriminate.
  destruct t as [[] |]; discriminate.
Qed.

Lemma compileArgs_returns (rec : option Ty -> TypedExpression -> outcome CompileResult)
    (args : list TypedExpression) :
  Forall (fun arg => forall t, (forall t', t = Some t' -> in_universe t' = true) ->
                       rec t arg <> OutOfFuel) args ->
  forall tys errors cs, forallb in_universe tys = true ->
    compileArgs rec tys args errors cs <> OutOfFuel.
Proof.
  induction 1 as [| arg args Harg _ IH]; intros tys errors cs Htys; simpl; [discriminate |].
  assert (forall t', head tys = Some t' -> in_universe t' = true) as Hhead.
  { destruct tys as [| t tys]; simpl; [discriminate |].
    intros t' [= <-]. simpl in Htys. apply andb_true_iff in Htys as [H _]. exact H. }
  assert (forallb in_universe (tail tys) = true) as Htail.
  { destruct tys as [| t tys]; simpl; [reflexivity |].
    simpl in Htys. apply andb_true_iff in Htys as [_ H]. exact H. }
  specialize (Harg _ Hhead).
  destruct (rec (head tys) arg) as [[c | errs] | |]; simpl;
    [apply IH; exact Htail | apply IH; exact Htail | discriminate | congruence].
Qed.

Lemma typecheck_for_ends (expected : option Ty) (e : TypedExpression) :
  typed e = true -> (forall t, expected = Some t -> in_universe t = true) ->
  ends_with checked_typed (typecheck_for expected e).
Proof.
  intros He Hexp. unfold typecheck_for. destruct expected as [t |].
  - apply typeCheckExpression_ends; [exact He |]. left. apply Hexp. reflexivity.
  - destruct (type_of e) as [t |] eqn:E; [| exact I].
    apply typeCheckExpression_ends; [exact He |]. right. exact E.
Qed.

(** [compile] of a typed tree returns or throws. *)
Lemma compile_fuel_returns (fuel : nat) :
  forall expected e, (height e < fuel)%nat -> typed e = true ->
    (forall t, expected = Some t -> in_universe t = true) ->
    compile_fuel fuel expected e <> OutOfFuel.
Proof.
  induction fuel as [| fuel IH]; intros expected e Hh He Hexp; [lia |].
  simpl. pose proof (typecheck_for_ends expected e He Hexp) as Hs.
  destruct (typecheck_for expected e) as [[[v t k | name t args k] | errs] | |] eqn:Hc;
    simpl; try discriminate; [| destruct Hs].
  apply typecheck_for_height in Hc. simpl in Hc, Hs. destruct Hs as [Ht Hslots].
  apply andb_true_iff in Ht as [Ht Hargs].
  assert (compileArgs (compile_fuel fuel) match t with Some (lambda _ a) => a | _ => [] end
            args [] [] <> OutOfFuel) as Hne.
  { apply compileArgs_returns.
    - apply List.Forall_forall. intros arg Hin t' Ht'.
      rewrite forallb_forall in Hargs.
      pose proof (height_argument _ _ Hin). apply IH; [lia | auto | exact Ht'].
    - destruct t as [[] |]; try reflexivity. exact Hslots. }
  destruct (compileArgs _ _ args [] []) as [[[| e0 errors] cs] | |]; simpl;
    [apply finishCall_returns | discriminate | discriminate | congruence].
Qed.

Lemma parseArguments_typed (rec : string -> json -> outcome TypedExpression)
    (key : string) (rest : list json) :
  Forall (fun x => forall k, ends_with (fun e => typed e = true) (rec k x)) rest ->
  forall i, ends_with (fun l => forallb typed l = true) (parseArguments rec key i rest).
Proof.
  induction 1 as [| x rest Hx _ IH]; intros i; simpl; [reflexivity |].
  eapply ends_bind; [apply Hx |]. intros a Ha.
  eapply ends_bind; [apply IH |]. intros others Ho. simpl. rewrite Ha, Ho. reflexivity.
Qed.

(** [parseExpression] returns a typed tree, or throws. *)
Lemma parseExpression_typed (expr : json) :
  forall key, ends_with (fun e => typed e = true) (parseExpression key expr).
Proof.
  induction expr as [| | b | n | s | items IH | members] using json_nested_ind;
    intros key; try exact I; try reflexivity.
  assert (forall op c, ends_with (fun l => forallb typed l = true) c ->
            ends_with (fun e => typed e = true)
              match lookup_expressions op with
              | Missing => Throw (Error (key +:+ ": unknown function " +:+ js_String op))
              | Own definition =>
                  do arguments <- c;
                  Ok (LambdaCall op (Some (def_type definition)) arguments key)
              | Inherited =>
                  do arguments <- c;
                  Ok (LambdaCall op None arguments key)
              end) as Hbuild.
  { intros op c Hc. destruct (lookup_expressions op) as [d | |] eqn:Hd; [| | exact I].
    - destruct (lookup_expressions_Own _ op d expressions_typed Hd)
        as (r & a & Hty & Hr & Ha). simpl in Hty.
      eapply ends_bind; [exact Hc |]. intros arguments Hargs. simpl.
      rewrite Hty, Hr, Ha, Hargs. reflexivity.
    - eapply ends_bind; [exact Hc |]. intros arguments Hargs. exact Hargs. }
  destruct items as [| op rest].
  - apply (Hbuild JUndefined (Ok [])). reflexivity.
  - apply (Hbuild op). apply parseArguments_typed.
    inversion IH; subst. assumption.
Qed.

(** X26: [compileExpression] returns a result or throws, whatever the input:
    the match of two types, of which the checker makes one for every node and
    argument, always ends, and so does [compile]. *)
Theorem compileExpression_returns_or_throws (expr : json) :
  (exists result, compileExpression expr = Ok result) \/
  (exists e, compileExpression expr = Throw e).
Proof.
  assert (compileExpression expr <> OutOfFuel) as H.
  { unfold compileExpression. pose proof (parseExpression_typed expr EmptyString) as Hp.
    destruct (parseExpression EmptyString expr) as [parsed | |]; simpl;
      [| discriminate | destruct Hp].
    apply compile_fuel_returns; [lia | exact Hp | discriminate]. }
  destruct (compileExpression expr); [left | right | congruence]; eauto.
Qed.

(** X27: the type of a call compiled at the root of the input is the result
    type its operator declares, and is no Typename; so [at], [case] and
    [curve], whose declared result is [T], never compile at the root. *)
Theorem root_call_has_declared_type (op : json) (rest : list json) (c : CompiledExpression) :
  compileExpression (JArr (op :: rest)) = Ok (success c) ->
  (exists definition args,
     lookup_expressions op = Own definition /\
     def_type definition = lambda (type c) args) /\
  is_typename (type c) = false /\
  ~ In (js_String op) ["at"; "case"; "curve"].
Proof.
  intros H.
  assert (is_typename (type c) = false) as Hnt by exact (proj1 (compiled_shape _ _ H)).
  apply compileExpression_success in H as (parsed & Hp & Hc).
  pose proof (compile_fuel_shape _ _ _ _ Hc) as Hs.
  apply compile_fuel_success in Hc as (Ht & _).
  assert (exists d args, lookup_expressions op = Own d /\ def_type d = lambda (type c) args)
    as (d & args & Hd & Hty).
  { simpl in Hp. destruct (lookup_expressions op) as [d | |] eqn:Hd; [| | discriminate].
    - apply bind_Ok in Hp as (arguments & _ & [= <-]).
      unfold typecheck_for in Ht. cbn [type_of] in Ht.
      destruct (lookup_expressions_Own _ op d expressions_typed Hd)
        as (r & a & Hty & _). simpl in Hty.
      apply typeCheckExpression_call_inv in Ht as (_ & rs & cs & He & _).
      rewrite He in Hs. destruct Hs as (body & argTypes & d' & _ & _ & Heq & _).
      rewrite Hty in Heq. injection Heq as <- _.
      exists d, a. split; [reflexivity | exact Hty].
    - apply bind_Ok in Hp as (arguments & _ & [= <-]). discriminate Ht. }
  split; [eauto | split; [exact Hnt |]].
  intros Hin. unfold lookup_expressions in Hd.
  repeat (destruct Hin as [Hin | Hin];
          [rewrite <- Hin in Hd; simpl in Hd; injection Hd as <-;
           simpl in Hty; injection Hty as Hty _; rewrite <- Hty in Hnt; discriminate Hnt |]).
  destruct Hin.
Qed.

Lemma root_call_has_declared_type_witness :
  (exists definition args,
     lookup_expressions (JStr "get") = Own definition /\
     def_type definition = lambda (type get_property_x_compiled) args) /\
  is_typename (type get_property_x_compiled) = false /\
  ~ In (js_String (JStr "get")) ["at"; "case"; "curve"].
Proof.
  apply (root_call_has_declared_type (JStr "get")
           [JArr [JStr "properties"]; JStr "x"] get_property_x_compiled).
  reflexivity.
Defined.

(** ** Which inputs [parseExpression] refuses *)








